(** * Vectra: the network-flow evacuation model

    A shallow embedding of [app/services/evacuation.py] (the graph builder
    [generate_network_graph] and the flow solver [calculate_max_flow]) and of
    the part of [app/api/routes.py] that selects endpoints and derives the
    response metrics ([run_simulation]).

    Conventions of the embedding.
    - Python floats are rationals ([Q]).  Capacities are added exactly, in
      the order the code adds them; the quotients and products of the
      response metrics and of the ingestion are rounded to binary64
      ([binary64]), as the interpreter rounds them.  NaN and the infinities
      are outside the model: a number beyond [float_max] is an infinity to
      the program.
    - Python [str] is [string]; [str.upper] acts on the ASCII letters.
    - Exceptions are values: fallible code returns [result A].
    - Library code (shapely, NetworkX, random) is outside the repository:
      shapely's readers and the connectivity routines are left open, the
      maximum-flow routine is modelled as Edmonds-Karp. *)

From Stdlib Require Import QArith Qround Qabs Qpower Lqa Ascii String.
From stdpp Require Import gmap strings list.

Local Open Scope Z_scope.

(** ** Exceptions and the error monad *)

(** Exceptions raised by library code (shapely, NetworkX, the interpreter). *)
Inductive lib_exn : Type :=
| IndexError            (* sequence index out of range *)
| GeometryError         (* shapely could not read a WKT/WKB payload *)
| NetworkXError.        (* raised by a NetworkX routine *)

(** Everything that can propagate out of the request handler. *)
Inductive exn : Type :=
| LibError (e : lib_exn)
| HTTPException (status_code : Z).

Inductive result (A : Type) : Type :=
| Ok (a : A)
| Raise (e : exn).
Arguments Ok {A} a.
Arguments Raise {A} e.

#[global] Instance result_ret : MRet result := fun A a => Ok a.

#[global] Instance result_bind : MBind result := fun A B k r =>
  match r with
  | Ok a => k a
  | Raise e => Raise e
  end.

(** [try: r except Exception: h] *)
Definition try_except {A : Type} (r : result A) (h : exn → result A) : result A :=
  match r with
  | Ok a => Ok a
  | Raise e => h e
  end.

(** ** Strings *)

Definition upper_ascii (c : ascii) : ascii :=
  let n := nat_of_ascii c in
  if (97 <=? n)%nat && (n <=? 122)%nat then ascii_of_nat (n - 32) else c.

(** [s.upper()] *)
Fixpoint upper (s : string) : string :=
  match s with
  | EmptyString => EmptyString
  | String c s' => String (upper_ascii c) (upper s')
  end.

(** [needle in hay] on strings *)
Fixpoint contains (needle hay : string) : bool :=
  String.prefix needle hay ||
  match hay with
  | EmptyString => false
  | String _ hay' => contains needle hay'
  end.

(** ** Numbers *)

Definition Qlt_bool (a b : Q) : bool := negb (Qle_bool b a).

(** Truth value of a float: [0.0] is falsy, every other number is truthy. *)
Definition truthy (q : Q) : bool := negb (Qeq_bool q 0).

(** ** Road segments (the columns queried by the graph builder) *)

Definition point : Type := (Q * Q)%type.          (* (x, y) = (lon, lat) *)

(** The [geom] column as the builder observes it.  The constructors follow
    the attribute tests of the code; for a payload handed to shapely the
    value records what [loads] yields on it ([Raise] when shapely rejects
    the payload, otherwise the coordinate sequence of the line). *)
Inductive geometry : Type :=
| GeomNone                                 (* NULL, or a value exposing none of wkt / desc / coords *)
| GeomWkt (loaded : result (list point))   (* exposes [wkt]: shapely.wkt.loads(str(geom)) *)
| GeomWkb (loaded : result (list point))   (* bytes, or exposes [desc]: shapely.wkb.loads(str(line)) *)
| GeomCoords (coords : list point).        (* exposes [coords] itself *)

Record RoadSegment : Type := {
  source : option Z;
  target : option Z;
  capacity : option Q;
  cost_time : option Q;
  geom : geometry;
  road_name : option string
}.

(** ** The directed graph (nx.DiGraph restricted to what the service uses)

    NetworkX keeps a DiGraph as a dictionary of adjacency dictionaries, so
    an ordered pair of nodes carries at most one attribute dictionary.  The
    node listing keeps insertion order. *)

Record EdgeData : Type := {
  e_capacity : Q;
  e_cost : option Q
}.

Record DiGraph : Type := {
  nodes : list Z;
  edges : gmap (Z * Z) EdgeData
}.

Definition empty_graph : DiGraph := {| nodes := []; edges := ∅ |}.

Definition add_node (ns : list Z) (n : Z) : list Z :=
  if bool_decide (n ∈ ns) then ns else ns ++ [n].

(** [n in G] *)
Definition has_node (G : DiGraph) (n : Z) : bool := bool_decide (n ∈ nodes G).

(** [G.has_edge(u, v)] *)
Definition has_edge (G : DiGraph) (u v : Z) : bool :=
  match edges G !! (u, v) with
  | Some _ => true
  | None => false
  end.

(** [G.add_edge(u, v, capacity=c, cost=k)] *)
Definition add_edge (G : DiGraph) (u v : Z) (c : Q) (k : option Q) : DiGraph :=
  {| nodes := add_node (add_node (nodes G) u) v;
     edges := <[(u, v) := {| e_capacity := c; e_cost := k |}]> (edges G) |}.

(** [G[u][v]['capacity'] += c] *)
Definition add_capacity (G : DiGraph) (u v : Z) (c : Q) : DiGraph :=
  {| nodes := nodes G;
     edges := alter (fun d => {| e_capacity := (e_capacity d + c)%Q;
                                 e_cost := e_cost d |}) (u, v) (edges G) |}.

Definition number_of_nodes (G : DiGraph) : nat := length (nodes G).
Definition number_of_edges (G : DiGraph) : nat := size (edges G).

(** [G.edges(data=True)] *)
Definition edge_list (G : DiGraph) : list ((Z * Z) * EdgeData) :=
  map_to_list (edges G).

(** ** Graph builder: [EvacuationService.generate_network_graph] *)

(** [seg.capacity if seg.capacity else 1800.0] *)
Definition resolve_capacity (c : option Q) : Q :=
  match c with
  | Some q => if truthy q then q else 1800%Q
  | None => 1800%Q
  end.

(** The coordinate sequence the builder reads, if the value has one:
    [line = shapely.wkt.loads(str(seg.geom)) if hasattr(seg.geom, 'wkt') else seg.geom],
    then [shapely.wkb.loads(str(line))] for bytes or a value with [desc],
    then [hasattr(line, 'coords')]. *)
Definition line_coords (g : geometry) : result (option (list point)) :=
  match g with
  | GeomNone => Ok None
  | GeomWkt loaded => cs ← loaded ; Ok (Some cs)
  | GeomWkb loaded => cs ← loaded ; Ok (Some cs)
  | GeomCoords cs => Ok (Some cs)
  end.

(** [coords[0]] and [coords[-1]] *)
Definition first_coord (cs : list point) : result point :=
  match cs with
  | [] => Raise (LibError IndexError)
  | p :: _ => Ok p
  end.

Definition last_coord (cs : list point) : result point :=
  match last cs with
  | None => Raise (LibError IndexError)
  | Some p => Ok p
  end.

(** The region rule table, applied to a major-highway segment. *)
Definition should_reverse (region : string) (is_sb is_wb is_eb : bool) : bool :=
  let r := upper region in
  if contains "TAMPA" r || contains "SARASOTA" r then is_sb || is_wb
  else if contains "ORLANDO" r || contains "DAYTONA" r || contains "LAKELAND" r
       then is_sb || is_wb
  else if contains "MIAMI" r || contains "SOUTH FL" r
          || contains "PORT ST. LUCIE" r || contains "MELBOURNE" r
       then is_sb || is_eb
  else if contains "CAPE CORAL" r || contains "NAPLES" r || contains "FORT MYERS" r
       then is_sb || is_eb
  else if contains "JACKSONVILLE" r then is_sb || is_eb
  else if contains "TALLAHASSEE" r || contains "PENSACOLA" r then is_sb || is_eb
  else is_sb.

(** The contraflow block: the endpoints [(u, v)] of the edge to insert for a
    segment whose endpoints are [u] and [v]. *)
Definition orient (scenario region : string) (seg : RoadSegment) (u v : Z)
  : result (Z * Z) :=
  if String.eqb scenario "contraflow" then
    match road_name seg with
    | None => Ok (u, v)
    | Some "" => Ok (u, v)
    | Some label =>
        let name := upper label in
        let is_major := contains "MAJOR HWY" name in
        if is_major then
          line ← line_coords (geom seg) ;
          match line with
          | None => Ok (u, v)
          | Some coords =>
              start_p ← first_coord coords ;
              end_p ← last_coord coords ;
              let dx := (fst end_p - fst start_p)%Q in
              let dy := (snd end_p - snd start_p)%Q in
              let is_sb := Qlt_bool dy 0 in
              let is_wb := Qlt_bool dx 0 in
              let is_eb := Qlt_bool 0 dx in
              if should_reverse region is_sb is_wb is_eb
              then Ok (v, u) else Ok (u, v)
          end
        else Ok (u, v)
    end
  else Ok (u, v).

(** One iteration of the loop over the segments. *)
Definition add_segment (scenario region : string) (G : DiGraph) (seg : RoadSegment)
  : result DiGraph :=
  match source seg, target seg with
  | Some u, Some v =>
      let c := resolve_capacity (capacity seg) in
      '(u, v) ← orient scenario region seg u v ;
      if has_edge G u v
      then Ok (add_capacity G u v c)
      else Ok (add_edge G u v c (cost_time seg))
  | _, _ => Ok G
  end.

Fixpoint add_segments (scenario region : string) (G : DiGraph)
    (segments : list RoadSegment) : result DiGraph :=
  match segments with
  | [] => Ok G
  | seg :: rest =>
      G' ← add_segment scenario region G seg ;
      add_segments scenario region G' rest
  end.

(** [segments] is the outcome of the database query. *)
Definition generate_network_graph (scenario region : string)
    (segments : list RoadSegment) : result DiGraph :=
  add_segments scenario region empty_graph segments.

(** ** Flow solver: [EvacuationService.calculate_max_flow] *)

(** *** The library call [nx.maximum_flow_value]

    NetworkX is not part of the repository.  The definitions of this part
    model the call from the specification's description of it: a maximum
    flow computed by the Edmonds-Karp algorithm, over a residual network. *)

(** Residual capacities, keyed by ordered node pair; an absent pair has
    residual capacity 0. *)
Definition res (R : gmap (Z * Z) Q) (u v : Z) : Q := default 0%Q (R !! (u, v)).

Definition Qmin (a b : Q) : Q := if Qle_bool a b then a else b.

(** The residual network at zero flow: the edges with a positive capacity,
    self loops excluded. *)
Definition build_residual_network (G : DiGraph) : gmap (Z * Z) Q :=
  map_imap (fun '(u, v) d =>
              if bool_decide (u ≠ v) && Qlt_bool 0 (e_capacity d)
              then Some (e_capacity d) else None) (edges G).

(** Nodes reachable from [u] over one arc with spare capacity. *)
Definition successors (R : gmap (Z * Z) Q) (u : Z) : list Z :=
  omap (fun '((a, b), r) =>
          if bool_decide (a = u) && Qlt_bool 0 r then Some b else None)
       (map_to_list R).

(** Breadth-first search.  A path is kept from its last node back to the
    source (the predecessor chain); [visited] holds every node already
    reached. *)
Fixpoint extend (p : list Z) (cands : list Z) (visited : gset Z)
    (acc : list (list Z)) : list (list Z) * gset Z :=
  match cands with
  | [] => (acc, visited)
  | v :: cs =>
      if bool_decide (v ∈ visited) then extend p cs visited acc
      else extend p cs ({[v]} ∪ visited) (acc ++ [v :: p])
  end.

Fixpoint next_layer (R : gmap (Z * Z) Q) (frontier : list (list Z))
    (visited : gset Z) (acc : list (list Z)) : list (list Z) * gset Z :=
  match frontier with
  | [] => (acc, visited)
  | p :: ps =>
      match p with
      | [] => next_layer R ps visited acc
      | u :: _ =>
          let '(acc', visited') := extend p (successors R u) visited acc in
          next_layer R ps visited' acc'
      end
  end.

Definition ends_at (t : Z) (p : list Z) : bool :=
  match p with
  | v :: _ => bool_decide (v = t)
  | [] => false
  end.

Fixpoint bfs (fuel : nat) (R : gmap (Z * Z) Q) (t : Z)
    (frontier : list (list Z)) (visited : gset Z) : option (list Z) :=
  match List.find (ends_at t) frontier with
  | Some p => Some p
  | None =>
      match fuel, frontier with
      | S n, _ :: _ =>
          let '(frontier', visited') := next_layer R frontier visited [] in
          bfs n R t frontier' visited'
      | _, _ => None
      end
  end.

(** A shortest path with spare capacity from [s] to [t], listed from [t]
    back to [s].  Every layer but the first reaches a node that is the head
    of some arc of [R], hence the bound on the number of layers. *)
Definition augmenting_path (R : gmap (Z * Z) Q) (s t : Z) : option (list Z) :=
  bfs (S (size R)) R t [[s]] {[s]}.

(** The least residual capacity along a path ([None]: the path has no arc). *)
Fixpoint bottleneck (R : gmap (Z * Z) Q) (p : list Z) : option Q :=
  match p with
  | v :: ((u :: _) as p') =>
      Some (match bottleneck R p' with
            | Some m => Qmin (res R u v) m
            | None => res R u v
            end)
  | _ => None
  end.

(** Push [b] units over the arc [(u, v)]. *)
Definition push (b : Q) (R : gmap (Z * Z) Q) (u v : Z) : gmap (Z * Z) Q :=
  <[(v, u) := (res R v u + b)%Q]> (<[(u, v) := (res R u v - b)%Q]> R).

Fixpoint augment (b : Q) (R : gmap (Z * Z) Q) (p : list Z) : gmap (Z * Z) Q :=
  match p with
  | v :: ((u :: _) as p') => push b (augment b R p') u v
  | _ => R
  end.

(** Modelled from the spec: the augmenting loop of the reference algorithm,
    which NetworkX runs in place of the repository.  [fuel] bounds the
    number of augmentations; when it runs out the flow pushed so far is
    returned. *)
Fixpoint edmonds_karp (fuel : nat) (R : gmap (Z * Z) Q) (s t : Z)
    (flow_value : Q) : Q :=
  match fuel with
  | O => flow_value
  | S n =>
      match augmenting_path R s t with
      | None => flow_value
      | Some p =>
          match bottleneck R p with
          | None => flow_value
          | Some b => edmonds_karp n (augment b R p) s t (flow_value + b)%Q
          end
      end
  end.

(** A common denominator of the capacities of the graph. *)
Definition common_denominator (G : DiGraph) : positive :=
  foldr (fun '(_, d) acc => (Qden (e_capacity d) * acc)%positive) 1%positive
        (edge_list G).

Definition Qsum (l : list Q) : Q := foldr Qplus 0%Q l.

(** The capacities that can carry flow out of [s]: those of the arcs
    leaving [s] that are not self loops and have a positive capacity. *)
Definition usable_out_capacities (G : DiGraph) (s : Z) : list Q :=
  omap (fun '((a, b), d) =>
          if bool_decide (a = s) && bool_decide (a ≠ b)
             && Qlt_bool 0 (e_capacity d)
          then Some (e_capacity d) else None)
       (edge_list G).

(** Every augmentation pushes at least [1 / common_denominator G] out of
    [s], and the flow never exceeds the usable capacity leaving [s]:
    this many augmentations are never exceeded. *)
Definition augmentation_bound (G : DiGraph) (s : Z) : nat :=
  S (Z.to_nat (Qfloor (inject_Z (Zpos (common_denominator G))
                       * Qsum (usable_out_capacities G s)))).

(** Modelled from the spec: [nx.maximum_flow_value(graph, s, t,
    capacity='capacity')] is NetworkX code, absent from the repository.  It
    is modelled as the reference algorithm the specification and the
    docstring of [calculate_max_flow] name, Edmonds-Karp (Ford-Fulkerson
    with breadth-first augmenting paths), on exact rationals, together with
    the rejections of the library routine: an endpoint that is not a node,
    and a source equal to the sink, raise [NetworkXError].  Capacities are
    finite here: the error the routine raises on a path of infinite
    capacities, which the caller turns into 0 like any other, does not
    arise, and the statements that would be affected assume
    [finite_capacities]. *)
Definition maximum_flow_value (G : DiGraph) (s t : Z) : result Q :=
  if negb (has_node G s) then Raise (LibError NetworkXError)
  else if negb (has_node G t) then Raise (LibError NetworkXError)
  else if bool_decide (s = t) then Raise (LibError NetworkXError)
  else Ok (edmonds_karp (augmentation_bound G s) (build_residual_network G) s t 0%Q).

(** *** The service method *)

Definition calculate_max_flow (graph : DiGraph) (source_node sink_node : Z)
  : result Q :=
  if negb (has_node graph source_node) || negb (has_node graph sink_node)
  then Ok 0%Q
  else try_except (maximum_flow_value graph source_node sink_node)
                  (fun _ => Ok 0%Q).

(** ** The request handler: [run_simulation] in [app/api/routes.py] *)

(** *** Floating-point arithmetic *)

(** Nearest integer, ties to even. *)
Definition round_half_even (q : Q) : Z :=
  let n := Qfloor q in
  let frac := (q - inject_Z n)%Q in
  if Qlt_bool frac (1 # 2) then n
  else if Qlt_bool (1 # 2) frac then n + 1
  else if Z.even n then n else n + 1.

(** The exponent of the leading bit of a positive rational, the [e] with
    [2 ^ e <= q < 2 ^ (e + 1)]; 0 for the others. *)
Definition Qlog2 (q : Q) : Z :=
  if Qle_bool q 0 then 0
  else
    let e := Z.log2 (Qnum q) - Z.log2 (Zpos (Qden q)) in
    if Qle_bool (2 ^ e) q then e else e - 1.

(** The binary64 number nearest to [q], ties to the even significand: the
    result of a float operation whose exact result is [q].  53 bits are
    kept from the leading one on, and none below [2 ^ -1074] (gradual
    underflow).  The exponent has no upper limit here: beyond [float_max]
    the interpreter holds an infinity, which the rationals do not have. *)
Definition binary64 (q : Q) : Q :=
  let e := Z.max (Qlog2 (Qabs q) - 52) (-1074) in
  (inject_Z (round_half_even (q / 2 ^ e)) * 2 ^ e)%Q.

(** The largest finite binary64 number, [sys.float_info.max]. *)
Definition float_max : Q := inject_Z ((2 ^ 53 - 1) * 2 ^ 971).

(** How far the float of a positive [q] can be from [q]: half a unit of
    the last of 53 bits, or half the smallest float. *)
Definition float_error (q : Q) : Q := (q / 2 ^ 53 + 2 ^ (-1075))%Q.

(** *** Derived metrics *)

Definition gridlock_risk_of (flow_value : Q) : string :=
  if Qlt_bool flow_value 1000 then "CRITICAL" else "MODERATE".

(** [clearance_time_hours = 24.0; if flow_value > 0: ... = 1000000 / flow_value],
    a float division. *)
Definition clearance_time_of (flow_value : Q) : Q :=
  if Qlt_bool 0 flow_value then binary64 (1000000 / flow_value) else 24%Q.

(** [round(x, 2)] of a float: the number of hundredths nearest to the exact
    value of [x], ties to even.  The interpreter returns the float nearest
    to this decimal; the model keeps the decimal. *)
Definition round2 (x : Q) : Q := (inject_Z (round_half_even (x * 100)) / 100)%Q.

Record Response : Type := {
  scenario_used : string;
  max_throughput_vph : Q;
  clearance_time_hours : Q;
  gridlock_risk : string;
  graph_size_nodes : nat;
  graph_size_edges : nat
}.

Definition make_response (scenario : string) (graph : DiGraph) (flow_value : Q)
  : Response :=
  {| scenario_used := scenario;
     max_throughput_vph := flow_value;
     clearance_time_hours := round2 (clearance_time_of flow_value);
     gridlock_risk := gridlock_risk_of flow_value;
     graph_size_nodes := number_of_nodes graph;
     graph_size_edges := number_of_edges graph |}.

(** *** Endpoint selection and the handler *)

(** Outcome of a library routine: it returns or raises one of its own
    exceptions (never the web framework's [HTTPException]). *)
Definition from_lib {A : Type} (r : lib_exn + A) : result A :=
  match r with
  | inl e => Raise (LibError e)
  | inr a => Ok a
  end.

(** [except HTTPException: raise] followed by
    [except Exception as e: raise HTTPException(status_code=500, ...)] *)
Definition reraise_as_500 {A : Type} (r : result A) : result A :=
  match r with
  | Ok a => Ok a
  | Raise (HTTPException c) => Raise (HTTPException c)
  | Raise (LibError _) => Raise (HTTPException 500)
  end.

Definition first_node (ns : list Z) : result Z :=
  match ns with
  | [] => Raise (LibError IndexError)
  | n :: _ => Ok n
  end.

Definition last_node (ns : list Z) : result Z :=
  match last ns with
  | None => Raise (LibError IndexError)
  | Some n => Ok n
  end.

Section Simulation.

(** The NetworkX connectivity routines and the random generator are
    outside the repository; the handler is modelled for any behaviour of
    theirs. *)
(** [nx.is_weakly_connected(graph)] *)
Variable is_weakly_connected : DiGraph → lib_exn + bool.
(** [graph.subgraph(max(nx.weakly_connected_components(graph), key=len)).copy()] *)
Variable largest_component : DiGraph → lib_exn + DiGraph.
(** [random.choice(nodes)] at the given trial *)
Variable random_choice : nat → list Z → lib_exn + Z.
(** [list(nx.descendants(subgraph, n))], in the iteration order of the set *)
Variable descendants : DiGraph → Z → lib_exn + list Z.

(** [for _ in range(10)]: [remaining] trials are left, [trial] were made. *)
Fixpoint trials (remaining trial : nat) (subgraph : DiGraph) (ns : list Z)
  : result (option (Z * Z)) :=
  match remaining with
  | O => Ok None
  | S k =>
      candidate_source ← from_lib (random_choice trial ns);
      ds ← from_lib (descendants subgraph candidate_source);
      if (50 <? length ds)%nat then
        sink_node ← last_node ds;
        Ok (Some (candidate_source, sink_node))
      else trials k (S trial) subgraph ns
  end.

(** The [try] block of the handler: the graph actually solved and the
    endpoints. *)
Definition select_endpoints (graph : DiGraph) : result (DiGraph * Z * Z) :=
  reraise_as_500 (
    if (number_of_nodes graph =? 0)%nat then Raise (HTTPException 404)
    else
      connected ← from_lib (is_weakly_connected graph);
      subgraph ← (if negb connected then from_lib (largest_component graph)
                  else Ok graph);
      let ns := nodes subgraph in
      found ← trials 10 0 subgraph ns;
      match found with
      | Some (source_node, sink_node) => Ok (subgraph, source_node, sink_node)
      | None =>
          source_node ← first_node ns;
          sink_node ← last_node ns;
          Ok (subgraph, source_node, sink_node)
      end).

(** [cached] is the outcome of the cache lookup, [segments] that of the
    database query. *)
Definition run_simulation (cached : option Response) (scenario region : string)
    (segments : list RoadSegment) : result Response :=
  match cached with
  | Some r => Ok r
  | None =>
      graph ← generate_network_graph scenario region segments;
      '(graph, source_node, sink_node) ← select_endpoints graph;
      flow_value ← calculate_max_flow graph source_node sink_node;
      Ok (make_response scenario graph flow_value)
  end.

End Simulation.

(** ** Vocabulary of the statements *)

(** The ordered pair a segment is inserted under: none when an endpoint is
    missing, otherwise its endpoints after the reversal decision. *)
Definition segment_edge (scenario region : string) (seg : RoadSegment)
  : result (option (Z * Z)) :=
  match source seg, target seg with
  | Some u, Some v => e ← orient scenario region seg u v; Ok (Some e)
  | _, _ => Ok None
  end.

Definition maps_to (scenario region : string) (u v : Z) (seg : RoadSegment) : bool :=
  match segment_edge scenario region seg with
  | Ok (Some (a, b)) => bool_decide (a = u) && bool_decide (b = v)
  | _ => false
  end.

(** The segments of the input that land on the ordered pair [(u, v)], in
    input order. *)
Definition segments_on (scenario region : string) (u v : Z)
    (segments : list RoadSegment) : list RoadSegment :=
  List.filter (maps_to scenario region u v) segments.

(** The sum of a non-empty run of capacities, added in order as [+=] does. *)
Definition sum_capacities (cs : list Q) : Q :=
  match cs with
  | [] => 0%Q
  | c :: rest => fold_left Qplus rest c
  end.

(** The attributes of an edge after the given segments were merged into it,
    [d] being its attributes before ([None]: no such edge yet). *)
Fixpoint accumulate (d : option EdgeData) (segs : list RoadSegment)
  : option EdgeData :=
  match segs with
  | [] => d
  | seg :: rest =>
      let c := resolve_capacity (capacity seg) in
      accumulate
        (Some match d with
              | Some d0 => {| e_capacity := (e_capacity d0 + c)%Q;
                              e_cost := e_cost d0 |}
              | None => {| e_capacity := c; e_cost := cost_time seg |}
              end) rest
  end.

(** A geometry shapely cannot turn into a non-empty coordinate sequence. *)
Definition unreadable (g : geometry) : Prop :=
  match g with
  | GeomNone => False
  | GeomWkt (Raise _) | GeomWkb (Raise _) => True
  | GeomWkt (Ok cs) | GeomWkb (Ok cs) | GeomCoords cs => cs = []
  end.

(** A directed walk of the graph, over edges of any capacity. *)
Inductive walk (G : DiGraph) : Z → Z → Prop :=
| walk_refl u : walk G u u
| walk_step u v w : walk G u v → is_Some (edges G !! (v, w)) → walk G u w.

(** The sum of the capacities of all edges leaving [s]. *)
Definition out_capacity (G : DiGraph) (s : Z) : Q :=
  Qsum (omap (fun '((a, _), d) =>
                if bool_decide (a = s) then Some (e_capacity d) else None)
             (edge_list G)).


(** ** Health checks: [app/core/health.py] and [app/api/endpoints/health.py] *)

(** [HealthStatus] *)
Definition HEALTHY : string := "healthy".
Definition DEGRADED : string := "degraded".
Definition UNHEALTHY : string := "unhealthy".

(** What the probe of the database does: [SELECT 1] succeeds, raises
    [OperationalError], or raises something else ([str(e)] is kept). *)
Inductive db_probe : Type :=
| DbOk
| DbOperationalError (err : string)
| DbOtherError (err : string).

(** The state of the cache client: never connected ([cache.client] is
    [None]), answering the ping, or raising on it. *)
Inductive cache_probe : Type :=
| CacheNoClient
| CachePingOk
| CachePingError (err : string).

Record ComponentStatus : Type := {
  cs_status : string;
  cs_message : string;
  cs_component : string;
  cs_error : option string
}.

Definition check_database (p : db_probe) : ComponentStatus :=
  match p with
  | DbOk =>
      {| cs_status := HEALTHY;
         cs_message := "PostgreSQL database is healthy";
         cs_component := "database"; cs_error := None |}
  | DbOperationalError e =>
      {| cs_status := UNHEALTHY;
         cs_message := "PostgreSQL database is unavailable";
         cs_component := "database"; cs_error := Some e |}
  | DbOtherError e =>
      {| cs_status := DEGRADED;
         cs_message := "Database health check encountered an error";
         cs_component := "database"; cs_error := Some e |}
  end.

Definition check_cache (p : cache_probe) : ComponentStatus :=
  match p with
  | CacheNoClient =>
      {| cs_status := UNHEALTHY;
         cs_message := "Redis cache is not initialized";
         cs_component := "cache"; cs_error := None |}
  | CachePingOk =>
      {| cs_status := HEALTHY;
         cs_message := "Redis cache is healthy";
         cs_component := "cache"; cs_error := None |}
  | CachePingError e =>
      {| cs_status := DEGRADED;
         cs_message := "Redis cache is unavailable (running in degraded mode)";
         cs_component := "cache"; cs_error := Some e |}
  end.

(** [messages.get(status, "Unknown status")] *)
Definition get_status_message (status : string) : string :=
  if String.eqb status HEALTHY then "System is operational"
  else if String.eqb status DEGRADED
  then "System is running with reduced functionality (non-critical services unavailable)"
  else if String.eqb status UNHEALTHY
  then "System is in maintenance mode (critical services unavailable)"
  else "Unknown status".

Record SystemHealth : Type := {
  sh_status : string;
  sh_database : ComponentStatus;
  sh_cache : ComponentStatus;
  sh_message : string
}.

Definition get_system_health (db : db_probe) (cache : cache_probe) : SystemHealth :=
  let db_status := check_database db in
  let cache_status := check_cache cache in
  let overall_status :=
    if String.eqb (cs_status db_status) UNHEALTHY then UNHEALTHY
    else if String.eqb (cs_status db_status) DEGRADED
            || String.eqb (cs_status cache_status) DEGRADED then DEGRADED
    else HEALTHY in
  {| sh_status := overall_status;
     sh_database := db_status;
     sh_cache := cache_status;
     sh_message := get_status_message overall_status |}.

(** An HTTP answer of the health endpoints: the status code (200 for a
    plain dictionary, 503 for the [JSONResponse]) and the fields of the
    body. *)
Record HealthReply : Type := {
  hr_code : Z;
  hr_status : string;
  hr_message : string;
  hr_components : ComponentStatus * ComponentStatus;
  hr_note : option string
}.

Definition health_check (db : db_probe) (cache : cache_probe) : HealthReply :=
  let health := get_system_health db cache in
  if String.eqb (sh_status health) UNHEALTHY then
    {| hr_code := 503; hr_status := sh_status health;
       hr_message := sh_message health;
       hr_components := (sh_database health, sh_cache health);
       hr_note := Some "System is in maintenance mode. Critical services are unavailable." |}
  else if String.eqb (sh_status health) DEGRADED then
    {| hr_code := 503; hr_status := sh_status health;
       hr_message := sh_message health;
       hr_components := (sh_database health, sh_cache health);
       hr_note := Some "System is running with reduced functionality." |}
  else
    {| hr_code := 200; hr_status := sh_status health;
       hr_message := sh_message health;
       hr_components := (sh_database health, sh_cache health);
       hr_note := None |}.

Record ReadyReply : Type := {
  rr_code : Z;
  rr_ready : bool;
  rr_status : string;
  rr_reason : option string
}.

Definition readiness_check (db : db_probe) (cache : cache_probe) : ReadyReply :=
  let health := get_system_health db cache in
  if String.eqb (sh_status health) HEALTHY then
    {| rr_code := 200; rr_ready := true; rr_status := "System is ready";
       rr_reason := None |}
  else
    {| rr_code := 503; rr_ready := false; rr_status := "System is not ready";
       rr_reason := Some (sh_message health) |}.

(** ** The ingestion pipeline: [app/etl/ingest_fdot.py], row by row *)

(** A row of the routes frame after attribute aggregation and
    classification, with the columns the two functions below read. *)
Record Route : Type := {
  ROADWAY : string;
  LANE_CNT : Q;
  SPEED : Q;
  route_length_m : Q;
  route_is_interstate : bool;
  route_is_toll_road : bool
}.

(** [synthesize_road_names]: the [road_name] of a row.  The suffix starts
    empty, is set on interstates, then on toll roads. *)
Definition synthesize_road_names (r : Route) : string :=
  let road_suffix := "" in
  let road_suffix := if route_is_interstate r then " (Major Hwy)" else road_suffix in
  let road_suffix := if route_is_toll_road r then " (Toll)" else road_suffix in
  (ROADWAY r ++ road_suffix)%string.

Record NetworkProperties : Type := {
  np_capacity : Q;
  np_speed_ms : Q;
  np_cost_time : Q
}.

(** [calculate_network_properties]: the columns it adds to a row.  The
    columns are float columns: the literal [0.44704] is the float nearest
    to it, and every product and quotient is rounded. *)
Definition calculate_network_properties (r : Route) : NetworkProperties :=
  let conversion_factor := binary64 (44704 # 100000) in
  let speed_ms := binary64 (SPEED r * conversion_factor) in
  let speed_ms := if Qeq_bool speed_ms 0 then binary64 (10 * conversion_factor)
                  else speed_ms in
  {| np_capacity := binary64 (LANE_CNT r * 1800);
     np_speed_ms := speed_ms;
     np_cost_time := binary64 (route_length_m r / speed_ms) |}.

Definition is_digit (c : ascii) : bool :=
  let n := nat_of_ascii c in (48 <=? n)%nat && (n <=? 57)%nat.

Fixpoint all_digits (s : string) : bool :=
  match s with
  | EmptyString => true
  | String c s' => is_digit c && all_digits s'
  end.

(** The segment the database holds for an ingested row: the builder reads
    its [road_name] and [capacity]; topology and geometry come from
    elsewhere. *)
Definition ingested (r : Route) (u v : option Z) (g : geometry) : RoadSegment :=
  {| source := u; target := v;
     capacity := Some (np_capacity (calculate_network_properties r));
     cost_time := Some (np_cost_time (calculate_network_properties r));
     geom := g;
     road_name := Some (synthesize_road_names r) |}.

(** A toll interstate heading south. *)
Definition turnpike : Route :=
  {| ROADWAY := "75470000"; LANE_CNT := 4%Q; SPEED := 70%Q;
     route_length_m := 1200%Q;
     route_is_interstate := true; route_is_toll_road := true |}.

(** Whether the contraflow block reads the geometry of a segment: contraflow
    scenario, both endpoints present, major-highway label. *)
Definition reversal_eligible (scenario : string) (seg : RoadSegment) : bool :=
  String.eqb scenario "contraflow"
  && bool_decide (is_Some (source seg)) && bool_decide (is_Some (target seg))
  && match road_name seg with
     | Some label => contains "MAJOR HWY" (upper label)
     | None => false
     end.

(** Results in which no [HTTPException] is raised. *)
Definition lib_only {A : Type} (r : result A) : Prop :=
  match r with
  | Raise (HTTPException _) => False
  | _ => True
  end.

(** ** Sample data *)

Definition lane (u v : Z) (c : option Q) (k : option Q) : RoadSegment :=
  {| source := Some u; target := Some v; capacity := c; cost_time := k;
     geom := GeomNone; road_name := None |}.

Definition highway (u v : Z) (g : geometry) : RoadSegment :=
  {| source := Some u; target := Some v; capacity := Some 3600%Q;
     cost_time := Some 60%Q; geom := g; road_name := Some "I-75 major hwy" |}.

(** Two parallel lanes from node 1 to node 2. *)
Definition parallel_lanes : list RoadSegment :=
  [lane 1 2 (Some 3600%Q) (Some 30%Q); lane 1 2 (Some 1800%Q) (Some 45%Q)].

Definition parallel_lanes_graph : DiGraph :=
  add_capacity (add_edge empty_graph 1 2 3600%Q (Some 30%Q)) 1 2 1800%Q.

(** A segment whose stored capacity is negative. *)
Definition negative_lane : RoadSegment := lane 1 2 (Some (-5)%Q) None.

(** A southbound major highway with a readable line. *)
Definition southbound_highway : RoadSegment :=
  highway 1 2 (GeomWkb (Ok [((-82)%Q, 28%Q); ((-82)%Q, 27%Q)])).

(** Major highways whose geometry is an empty line, and an unreadable payload. *)
Definition empty_line_highway : RoadSegment := highway 1 2 (GeomWkb (Ok [])).
Definition corrupt_highway : RoadSegment :=
  highway 1 2 (GeomWkb (Raise (LibError GeometryError))).

(** ** Vocabulary of the flow proofs *)

(** Paths of the residual network as the search keeps them: from the last
    node back to the source [s], every arc with spare capacity, and the
    source met at the start only. *)
Inductive rpath (R : gmap (Z * Z) Q) (s : Z) : list Z → Prop :=
| rpath_start : rpath R s [s]
| rpath_cons u v p :
    rpath R s (u :: p) → (0 < res R u v)%Q → v ≠ s → rpath R s (v :: u :: p).

(** The node a path reaches first after its source. *)
Fixpoint first_hop (p : list Z) : option Z :=
  match p with
  | v :: ((_ :: p0) as p') =>
      match p0 with
      | [] => Some v
      | _ => first_hop p'
      end
  | _ => None
  end.

(** Multiples of [1 / D]. *)
Definition grid (D : positive) (q : Q) : Prop :=
  ∃ k : Z, (q * inject_Z (Zpos D) == inject_Z k)%Q.

(** The nodes that [s] can send flow to directly. *)
Definition out_nodes (G : DiGraph) (s : Z) : list Z :=
  omap (fun '((a, b), d) =>
          if bool_decide (a = s) && bool_decide (a ≠ b)
             && Qlt_bool 0 (e_capacity d)
          then Some b else None)
       (edge_list G).

(** Spare capacity on the arcs leaving [s]. *)
Definition spare_out (G : DiGraph) (s : Z) (R : gmap (Z * Z) Q) : Q :=
  Qsum (map (res R s) (out_nodes G s)).

(** The augmenting loop without a bound on its iterations:
    [augmenting_loop s t R f R' f'] when the loop entered with residual
    network [R] and flow [f] ends, leaving the residual network [R'] and
    returning [f']. *)
Inductive augmenting_loop (s t : Z)
  : gmap (Z * Z) Q → Q → gmap (Z * Z) Q → Q → Prop :=
| loop_exit R f :
    augmenting_path R s t = None → augmenting_loop s t R f R f
| loop_iter R f p b R' f' :
    augmenting_path R s t = Some p →
    bottleneck R p = Some b →
    augmenting_loop s t (augment b R p) (f + b)%Q R' f' →
    augmenting_loop s t R f R' f'.

(** A graph with a positive and a negative capacity leaving node 1. *)
Definition mixed_sign_lanes : list RoadSegment :=
  [lane 1 2 (Some 1000%Q) None; lane 1 3 (Some (-5000)%Q) None].

Definition mixed_sign_graph : DiGraph :=
  add_edge (add_edge empty_graph 1 2 1000%Q None) 1 3 (-5000)%Q None.

(** The invariant of the augmenting loop on graph [G] with source [s]:
    [R] is the residual network and [f] the flow pushed so far. *)
Record flow_inv (G : DiGraph) (s : Z) (R : gmap (Z * Z) Q) (f : Q) : Prop := {
  inv_grid : ∀ u v, grid (common_denominator G) (res R u v);
  inv_out : ∀ x, x ∉ out_nodes G s → (res R s x <= 0)%Q;
  inv_in : ∀ x, x ∈ out_nodes G s → (0 <= res R s x)%Q;
  inv_value : (f == Qsum (usable_out_capacities G s) - spare_out G s R)%Q;
  inv_nonneg : (0 <= f)%Q
}.

(** Reachability over arcs with spare capacity. *)
Inductive reach (R : gmap (Z * Z) Q) (s : Z) : Z → Prop :=
| reach_refl : reach R s s
| reach_step u v : reach R s u → (0 < res R u v)%Q → reach R s v.

(** The nodes some arc of [R] points to. *)
Definition targets (R : gmap (Z * Z) Q) : gset Z :=
  list_to_set ((map_to_list R).*1.*2).

(** [v] is the last node of a path of the frontier. *)
Definition head_of (frontier : list (list Z)) (v : Z) : Prop :=
  ∃ p, (v :: p) ∈ frontier.

(** The invariant of the search for [t] from [s]: a visited node is either
    still on the frontier or has all its successors visited, and [t] was
    not left behind. *)
Record bfs_inv (R : gmap (Z * Z) Q) (s t : Z)
    (frontier : list (list Z)) (visited : gset Z) : Prop := {
  bfs_source : s ∈ visited;
  bfs_closed : ∀ u, u ∈ visited →
    head_of frontier u ∨ ∀ v, (0 < res R u v)%Q → v ∈ visited;
  bfs_target : t ∈ visited → head_of frontier t
}.

(** ** Further vocabulary of the graph builder *)

(** Both endpoint identifiers are present. *)
Definition has_endpoints (seg : RoadSegment) : bool :=
  match source seg, target seg with
  | Some _, Some _ => true
  | _, _ => false
  end.

(** The label carries the major-highway marker. *)
Definition is_major (seg : RoadSegment) : bool :=
  match road_name seg with
  | Some label => contains "MAJOR HWY" (upper label)
  | None => false
  end.

(** The direction vector [(dx, dy)] the contraflow block computes from the
    first and the last coordinate of a geometry, when it has coordinates. *)
Definition heading (g : geometry) : result (option (Q * Q)) :=
  line ← line_coords g;
  match line with
  | None => Ok None
  | Some coords =>
      start_p ← first_coord coords;
      end_p ← last_coord coords;
      Ok (Some ((fst end_p - fst start_p)%Q, (snd end_p - snd start_p)%Q))
  end.

(** The capacity of the edge [(u, v)], 0 when there is no such edge. *)
Definition cap_of (G : DiGraph) (u v : Z) : Q :=
  match edges G !! (u, v) with
  | Some d => e_capacity d
  | None => 0%Q
  end.

(** A local road whose geometry payload is corrupt. *)
Definition local_road : RoadSegment :=
  {| source := Some 1; target := Some 2; capacity := Some 1800%Q;
     cost_time := Some 20%Q; geom := GeomWkb (Raise (LibError GeometryError));
     road_name := Some "Main Street" |}.

(** Major highways heading north, west and east. *)
Definition northbound_highway : RoadSegment :=
  highway 1 2 (GeomWkb (Ok [((-82)%Q, 27%Q); ((-82)%Q, 28%Q)])).
Definition westbound_highway : RoadSegment :=
  highway 3 4 (GeomWkb (Ok [((-81)%Q, 28%Q); ((-82)%Q, 28%Q)])).
Definition eastbound_highway : RoadSegment :=
  highway 5 6 (GeomWkb (Ok [((-82)%Q, 28%Q); ((-81)%Q, 28%Q)])).

(** A segment whose target node is missing. *)
Definition dangling_lane : RoadSegment :=
  {| source := Some 1; target := None; capacity := Some 1800%Q;
     cost_time := None; geom := GeomNone; road_name := None |}.

(** Well-formedness of a graph as NetworkX keeps it: the node listing has no
    repetition and holds the endpoints of every edge. *)
Definition graph_wf (G : DiGraph) : Prop :=
  NoDup (nodes G) ∧
  ∀ u v, is_Some (edges G !! (u, v)) → u ∈ nodes G ∧ v ∈ nodes G.

(** A southbound major highway and a local lane over the same pair of
    nodes, with the graphs the two scenarios build from them. *)
Definition shared_corridor : list RoadSegment :=
  [southbound_highway; lane 1 2 (Some 1800%Q) None].

Definition shared_corridor_baseline : DiGraph :=
  add_capacity (add_edge empty_graph 1 2 3600%Q (Some 60%Q)) 1 2 1800%Q.

Definition shared_corridor_contraflow : DiGraph :=
  add_edge (add_edge empty_graph 2 1 3600%Q (Some 60%Q)) 1 2 1800%Q None.

(** ** Sample behaviour of the library routines

    A connected graph, a random choice that always takes node 1, and no
    descendants: the deterministic fallback of endpoint selection. *)
Definition always_connected (_ : DiGraph) : lib_exn + bool := inr true.
Definition whole_graph (G : DiGraph) : lib_exn + DiGraph := inr G.
Definition choose_one (_ : nat) (_ : list Z) : lib_exn + Z := inr 1.
Definition no_descendants (_ : DiGraph) (_ : Z) : lib_exn + list Z := inr [].

(** A directed walk over edges of positive capacity. *)
Inductive usable_walk (G : DiGraph) (s : Z) : Z → Prop :=
| usable_refl : usable_walk G s s
| usable_step u v d :
    usable_walk G s u → edges G !! (u, v) = Some d → (0 < e_capacity d)%Q →
    usable_walk G s v.




(** A road of capacity 40000000 from node 1 to node 2, and its graph. *)
Definition trunk_road : RoadSegment := lane 1 2 (Some 40000000%Q) None.

Definition trunk_graph : DiGraph := add_edge empty_graph 1 2 40000000%Q None.

(** A road of capacity 999.9990234375, just below the CRITICAL threshold. *)
Definition near_critical_road : RoadSegment :=
  lane 1 2 (Some (1023999 # 1024)%Q) None.

Definition near_critical_graph : DiGraph :=
  add_edge empty_graph 1 2 (1023999 # 1024)%Q None.

(** No capacity of the graph is beyond the largest float: the program holds
    a capacity beyond it, the sum of two lanes of 1e308 say, as an
    infinity. *)
Definition finite_capacities (G : DiGraph) : Prop :=
  ∀ u v d, edges G !! (u, v) = Some d → (e_capacity d <= float_max)%Q.

(** * Numbers *)

Lemma Qlt_bool_iff (a b : Q) : Qlt_bool a b = true ↔ (a < b)%Q.
Proof.
  unfold Qlt_bool. rewrite negb_true_iff. split.
  - intros H. apply Qnot_le_lt. intros Hle.
    apply Qle_bool_iff in Hle. congruence.
  - intros H. destruct (Qle_bool b a) eqn:E; [|done].
    apply Qle_bool_iff in E. by apply Qlt_not_le in H.
Qed.

Lemma Qlt_bool_false_iff (a b : Q) : Qlt_bool a b = false ↔ (b <= a)%Q.
Proof.
  unfold Qlt_bool. rewrite negb_false_iff. apply Qle_bool_iff.
Qed.

Lemma Qmin_le_l (a b : Q) : (Qmin a b <= a)%Q.
Proof.
  unfold Qmin. destruct (Qle_bool a b) eqn:E; [lra|].
  assert (Qlt_bool b a = true) as H by (unfold Qlt_bool; by rewrite E).
  apply Qlt_bool_iff in H. lra.
Qed.

Lemma Qmin_le_r (a b : Q) : (Qmin a b <= b)%Q.
Proof.
  unfold Qmin. destruct (Qle_bool a b) eqn:E; [|lra].
  by apply Qle_bool_iff.
Qed.

Lemma Qmin_cases (a b : Q) : Qmin a b = a ∨ Qmin a b = b.
Proof. unfold Qmin. destruct (Qle_bool a b); auto. Qed.

(** [round_half_even] is within one half of its argument. *)
Lemma round_half_even_close (q : Q) :
  (q - (1 # 2) <= inject_Z (round_half_even q) <= q + (1 # 2))%Q.
Proof.
  unfold round_half_even.
  pose proof (Qfloor_le q) as Hlo. pose proof (Qlt_floor q) as Hhi.
  rewrite inject_Z_plus in Hhi. change (inject_Z 1) with 1%Q in Hhi.
  destruct (Qlt_bool (q - inject_Z (Qfloor q)) (1 # 2)) eqn:E1.
  { apply Qlt_bool_iff in E1. lra. }
  apply Qlt_bool_false_iff in E1.
  assert (inject_Z (Qfloor q + 1) == inject_Z (Qfloor q) + 1)%Q as Hp
    by (rewrite inject_Z_plus; reflexivity).
  destruct (Qlt_bool (1 # 2) (q - inject_Z (Qfloor q))) eqn:E2.
  { rewrite Hp. lra. }
  apply Qlt_bool_false_iff in E2.
  destruct (Z.even (Qfloor q)); [lra|rewrite Hp; lra].
Qed.

(** [round2] yields a number of hundredths within half a hundredth. *)
Lemma round2_spec (x : Q) :
  (∃ n : Z, round2 x == inject_Z n / 100)%Q ∧
  (x - (1 # 200) <= round2 x <= x + (1 # 200))%Q.
Proof.
  unfold round2. split; [eexists; reflexivity|].
  pose proof (round_half_even_close (x * 100)) as H.
  set (r := inject_Z (round_half_even (x * 100))) in *.
  assert (r / 100 == r * (1 # 100))%Q as -> by (field; discriminate).
  lra.
Qed.

(** ** Rounding to the nearest integer *)

Lemma round_half_even_cases (q : Q) :
  round_half_even q = Qfloor q ∨ round_half_even q = Qfloor q + 1.
Proof.
  unfold round_half_even.
  destruct (Qlt_bool _ _); [by left|].
  destruct (Qlt_bool _ _); [by right|].
  destruct (Z.even _); auto.
Qed.

Lemma round_half_even_comp (x y : Q) :
  (x == y)%Q → round_half_even x = round_half_even y.
Proof.
  intros H. unfold round_half_even, Qlt_bool.
  rewrite (Qfloor_comp x y H).
  assert (x - inject_Z (Qfloor y) == y - inject_Z (Qfloor y))%Q as E
    by (rewrite H; reflexivity).
  by rewrite !E.
Qed.

Lemma round_half_even_Z (n : Z) : round_half_even (inject_Z n) = n.
Proof.
  unfold round_half_even. rewrite Qfloor_Z.
  assert (Qlt_bool (inject_Z n - inject_Z n) (1 # 2) = true) as ->; [|done].
  apply Qlt_bool_iff. lra.
Qed.

Lemma round_half_even_mono (x y : Q) :
  (x <= y)%Q → round_half_even x <= round_half_even y.
Proof.
  intros H. pose proof (Qfloor_resp_le x y H) as Hf.
  destruct (Z.eq_dec (Qfloor x) (Qfloor y)) as [E|NE].
  - unfold round_half_even. rewrite E.
    destruct (Qlt_bool (y - inject_Z (Qfloor y)) (1 # 2)) eqn:Y1.
    { apply Qlt_bool_iff in Y1.
      assert (Qlt_bool (x - inject_Z (Qfloor y)) (1 # 2) = true) as ->
        by (apply Qlt_bool_iff; lra).
      lia. }
    apply Qlt_bool_false_iff in Y1.
    destruct (Qlt_bool (1 # 2) (y - inject_Z (Qfloor y))) eqn:Y2.
    { destruct (Qlt_bool (x - inject_Z (Qfloor y)) (1 # 2)); [lia|].
      destruct (Qlt_bool (1 # 2) (x - inject_Z (Qfloor y))); [lia|].
      destruct (Z.even (Qfloor y)); lia. }
    apply Qlt_bool_false_iff in Y2.
    destruct (Qlt_bool (x - inject_Z (Qfloor y)) (1 # 2)) eqn:X1;
      [destruct (Z.even (Qfloor y)); lia|].
    apply Qlt_bool_false_iff in X1.
    assert (Qlt_bool (1 # 2) (x - inject_Z (Qfloor y)) = false) as ->
      by (apply Qlt_bool_false_iff; lra).
    lia.
  - destruct (round_half_even_cases x) as [-> | ->],
             (round_half_even_cases y) as [-> | ->]; lia.
Qed.

Lemma round_half_even_nonneg (q : Q) : (0 <= q)%Q → 0 <= round_half_even q.
Proof.
  intros Hq. rewrite <- (round_half_even_Z 0).
  by apply round_half_even_mono.
Qed.

(** ** Powers of two *)

Lemma pow2_pos (e : Z) : (0 < 2 ^ e)%Q.
Proof. by apply Qpower_0_lt. Qed.

Lemma pow2_succ (e : Z) : (2 ^ (e + 1) == 2 * 2 ^ e)%Q.
Proof.
  rewrite Qpower_plus by discriminate. change (2 ^ 1)%Q with 2%Q. ring.
Qed.

Lemma pow2_le (a b : Z) : a <= b → (2 ^ a <= 2 ^ b)%Q.
Proof. intros H. by apply Qpower_le_compat_l. Qed.

Lemma pow2_lt_inv (a b : Z) : (2 ^ a < 2 ^ b)%Q → a < b.
Proof. intros H. by apply (Qpower_lt_compat_l_inv 2). Qed.

(** [2 ^ a] is a whole multiple of [2 ^ b] for [b <= a]. *)
Lemma pow2_split (a b : Z) :
  b <= a → (2 ^ a == inject_Z (2 ^ (a - b)) * 2 ^ b)%Q.
Proof.
  intros H. rewrite Zpower_Qpower by lia.
  rewrite <- Qpower_plus by discriminate.
  by replace (a - b + b) with a by lia.
Qed.

(** ** The leading bit of a rational *)

Lemma Qlog2_spec (q : Q) :
  (0 < q)%Q → (2 ^ Qlog2 q <= q)%Q ∧ (q < 2 ^ (Qlog2 q + 1))%Q.
Proof.
  intros Hq. unfold Qlog2.
  assert (Qle_bool q 0 = false) as ->.
  { destruct (Qle_bool q 0) eqn:E; [|done]. apply Qle_bool_iff in E. lra. }
  destruct q as [n d]. cbn [Qnum Qden].
  assert (0 < n) as Hn by (unfold Qlt in Hq; simpl in Hq; lia).
  set (a := Z.log2 n). set (b := Z.log2 (Z.pos d)).
  destruct (Z.log2_spec n Hn) as [Ha1 Ha2]. fold a in Ha1, Ha2.
  destruct (Z.log2_spec (Z.pos d) ltac:(done)) as [Hb1 Hb2].
  fold b in Hb1, Hb2.
  assert (0 <= a) as Ha0 by apply Z.log2_nonneg.
  assert (0 <= b) as Hb0 by apply Z.log2_nonneg.
  rewrite Zle_Qle, Zpower_Qpower in Ha1, Hb1 by done.
  rewrite Zlt_Qlt, Zpower_Qpower in Ha2, Hb2 by lia.
  unfold Z.succ in Ha2, Hb2. rewrite pow2_succ in Ha2, Hb2.
  change (inject_Z 2) with 2%Q in *.
  pose proof (pow2_pos a) as HA. pose proof (pow2_pos b) as HB.
  pose proof (pow2_pos (a - b)) as HX.
  assert (2 ^ (a - b) * 2 ^ b == 2 ^ a)%Q as HXB.
  { rewrite <- Qpower_plus by discriminate.
    by replace (a - b + b) with a by lia. }
  assert (n # d == inject_Z n / inject_Z (Z.pos d))%Q as Hq'
    by apply Qmake_Qdiv.
  set (N := inject_Z n) in *. set (D := inject_Z (Z.pos d)) in *.
  set (A := (2 ^ a)%Q) in *. set (B := (2 ^ b)%Q) in *.
  set (X := (2 ^ (a - b))%Q) in *.
  assert (0 < D)%Q as HD by lra.
  assert (N / D < 2 * X)%Q as Hup.
  { apply Qlt_shift_div_r; [done|]. nra. }
  assert (X < 2 * (N / D))%Q as Hlo.
  { assert (X * D < 2 * N)%Q as H by nra.
    assert (2 * (N / D) == 2 * N / D)%Q as -> by (field; lra).
    apply Qlt_shift_div_l; [done|lra]. }
  destruct (Qle_bool X (n # d)) eqn:E.
  - apply Qle_bool_iff in E. fold X. split; [done|].
    rewrite pow2_succ. fold X. rewrite Hq'. done.
  - assert (Qlt_bool (n # d) X = true) as E'
      by (unfold Qlt_bool; by rewrite E).
    apply Qlt_bool_iff in E'.
    replace (a - b - 1 + 1) with (a - b) by lia. fold X. split; [|done].
    assert (X == 2 * 2 ^ (a - b - 1))%Q as HX2.
    { unfold X. rewrite <- pow2_succ.
      by replace (a - b - 1 + 1) with (a - b) by lia. }
    rewrite Hq'. lra.
Qed.

Lemma Qlog2_unique (q : Q) (e : Z) :
  (2 ^ e <= q)%Q → (q < 2 ^ (e + 1))%Q → Qlog2 q = e.
Proof.
  intros H1 H2.
  assert (0 < q)%Q as Hq by (eapply Qlt_le_trans; [apply (pow2_pos e)|done]).
  destruct (Qlog2_spec q Hq) as [S1 S2].
  assert (e < Qlog2 q + 1)
    by (apply pow2_lt_inv; apply Qle_lt_trans with q; assumption).
  assert (Qlog2 q < e + 1)
    by (apply pow2_lt_inv; apply Qle_lt_trans with q; assumption).
  lia.
Qed.

Lemma Qlog2_comp (x y : Q) : (x == y)%Q → Qlog2 x = Qlog2 y.
Proof.
  intros H. destruct (Qlt_le_dec 0 x) as [Hx|Hx].
  - destruct (Qlog2_spec x Hx). symmetry. apply Qlog2_unique; by rewrite <- H.
  - unfold Qlog2.
    assert (Qle_bool x 0 = true) as -> by (by apply Qle_bool_iff).
    assert (Qle_bool y 0 = true) as -> by (apply Qle_bool_iff; lra).
    done.
Qed.

Lemma Qlog2_mono (x y : Q) : (0 < x)%Q → (x <= y)%Q → Qlog2 x <= Qlog2 y.
Proof.
  intros Hx Hxy.
  destruct (Qlog2_spec x Hx) as [X1 _].
  destruct (Qlog2_spec y ltac:(lra)) as [_ Y2].
  assert (Qlog2 x < Qlog2 y + 1).
  { apply pow2_lt_inv. apply Qle_lt_trans with x; [exact X1|].
    apply Qle_lt_trans with y; assumption. }
  lia.
Qed.

(** ** Rounding to binary64 *)

Lemma binary64_comp (x y : Q) : (x == y)%Q → (binary64 x == binary64 y)%Q.
Proof.
  intros H. unfold binary64.
  rewrite (Qlog2_comp (Qabs x) (Qabs y)) by (by rewrite H).
  set (e := Z.max _ _).
  rewrite (round_half_even_comp (x / 2 ^ e) (y / 2 ^ e)) by (by rewrite H).
  reflexivity.
Qed.

Lemma binary64_nonneg (q : Q) : (0 <= q)%Q → (0 <= binary64 q)%Q.
Proof.
  intros Hq. unfold binary64. set (e := Z.max _ _).
  pose proof (pow2_pos e) as He.
  apply Qmult_le_0_compat; [|by apply Qlt_le_weak].
  change 0%Q with (inject_Z 0). rewrite <- Zle_Qle.
  apply round_half_even_nonneg. apply Qle_shift_div_l; [done|].
  by rewrite Qmult_0_l.
Qed.

(** The exponent of the last place kept for a positive number. *)
Lemma binary64_pos_unfold (x : Q) :
  (0 < x)%Q →
  binary64 x
  = (let e := Z.max (Qlog2 x - 52) (-1074) in
     inject_Z (round_half_even (x / 2 ^ e)) * 2 ^ e)%Q.
Proof.
  intros Hx. unfold binary64.
  by rewrite (Qlog2_comp (Qabs x) x) by (apply Qabs_pos; lra).
Qed.

Lemma binary64_mono_pos (x y : Q) :
  (0 < x)%Q → (x <= y)%Q → (binary64 x <= binary64 y)%Q.
Proof.
  intros Hx Hxy. assert (0 < y)%Q as Hy by lra.
  rewrite !binary64_pos_unfold by done. cbv zeta.
  pose proof (Qlog2_mono x y Hx Hxy) as HL.
  set (ex := Z.max (Qlog2 x - 52) (-1074)).
  set (ey := Z.max (Qlog2 y - 52) (-1074)).
  pose proof (pow2_pos ex) as Hex. pose proof (pow2_pos ey) as Hey.
  destruct (Z.eq_dec ex ey) as [E|NE].
  - rewrite <- E. apply Qmult_le_compat_r; [|by apply Qlt_le_weak].
    rewrite <- Zle_Qle. apply round_half_even_mono.
    apply Qmult_le_compat_r; [done|].
    apply Qlt_le_weak, Qinv_lt_0_compat, Hex.
  - assert (ex < ey) as Hlt by lia.
    assert (ey = Qlog2 y - 52) as Hey' by lia.
    assert (Qlog2 x + 1 <= Qlog2 y) as HL' by lia.
    destruct (Qlog2_spec x Hx) as [_ X2].
    destruct (Qlog2_spec y Hy) as [Y1 _].
    pose proof (pow2_le _ _ HL') as HP.
    apply Qle_trans with (2 ^ Qlog2 y)%Q.
    + rewrite (pow2_split (Qlog2 y) ex) by lia.
      apply Qmult_le_compat_r; [|by apply Qlt_le_weak].
      rewrite <- Zle_Qle.
      rewrite <- (round_half_even_Z (2 ^ (Qlog2 y - ex))).
      apply round_half_even_mono. apply Qle_shift_div_r; [done|].
      rewrite <- pow2_split by lia.
      apply Qlt_le_weak. apply Qlt_le_trans with (2 ^ (Qlog2 x + 1))%Q;
        assumption.
    + rewrite (pow2_split (Qlog2 y) ey) by lia.
      apply Qmult_le_compat_r; [|by apply Qlt_le_weak].
      rewrite <- Zle_Qle.
      rewrite <- (round_half_even_Z (2 ^ (Qlog2 y - ey))) at 1.
      apply round_half_even_mono. apply Qle_shift_div_l; [done|].
      by rewrite <- pow2_split by lia.
Qed.

(** The float of a positive number is within [float_error] of it. *)
Lemma binary64_close (x : Q) :
  (0 < x)%Q → (Qabs (binary64 x - x) <= float_error x)%Q.
Proof.
  intros Hx. rewrite binary64_pos_unfold by done. cbv zeta.
  set (e := Z.max (Qlog2 x - 52) (-1074)).
  pose proof (pow2_pos e) as He.
  pose proof (round_half_even_close (x / 2 ^ e)) as [Hlo Hhi].
  set (m := inject_Z (round_half_even (x / 2 ^ e))) in *.
  destruct (Qlog2_spec x Hx) as [HL _].
  pose proof (pow2_pos (-1075)) as Hmin.
  assert (2 ^ e <= 2 * (x / 2 ^ 53 + 2 ^ (-1075)))%Q as Hulp.
  { destruct (Z.max_spec (Qlog2 x - 52) (-1074)) as [[_ E]|[_ E]];
      fold e in E; rewrite E.
    - rewrite (pow2_succ (-1075)).
      assert (0 <= x / 2 ^ 53)%Q by (apply Qle_shift_div_l; [done|lra]).
      set (P := (2 ^ (-1075))%Q) in *. lra.
    - rewrite (pow2_split (Qlog2 x) (Qlog2 x - 52)) in HL by lia.
      replace (Qlog2 x - (Qlog2 x - 52)) with 52 in HL by lia.
      change (inject_Z (2 ^ 52)) with (4503599627370496 # 1)%Q in HL.
      change (2 ^ 53)%Q with (9007199254740992 # 1)%Q.
      assert (x / (9007199254740992 # 1) == x * (1 # 9007199254740992))%Q
        as -> by (field; discriminate).
      set (P := (2 ^ (-1075))%Q) in *. set (E' := (2 ^ (Qlog2 x - 52))%Q) in *.
      lra. }
  unfold float_error. apply Qabs_Qle_condition.
  assert (x == x / 2 ^ e * 2 ^ e)%Q as Hxe by (field; lra).
  set (z := (x / 2 ^ e)%Q) in *. set (E := (2 ^ e)%Q) in *.
  set (B := (x / 2 ^ 53 + 2 ^ (-1075))%Q) in *.
  split; nra.
Qed.

(** The floats of 0.1 and 0.025 (above the decimal), a tie rounded to the
    even significand on either side, the largest float, and the halving of
    the smallest one. *)
Example binary64_samples :
  (binary64 (1 # 10) == 3602879701896397 # 36028797018963968)%Q ∧
  (25 # 1000 < binary64 (25 # 1000))%Q ∧
  (binary64 (inject_Z (2 ^ 53 + 1)) == inject_Z (2 ^ 53))%Q ∧
  (binary64 (inject_Z (2 ^ 53 + 3)) == inject_Z (2 ^ 53 + 4))%Q ∧
  (binary64 float_max == float_max)%Q ∧
  (binary64 (2 ^ (-1075)) == 0)%Q ∧
  (binary64 (3 * 2 ^ (-1075)) == 2 ^ (-1073))%Q.
Proof. by vm_compute. Qed.

(** Only numbers of magnitude at most [2 ^ -1075] are rounded to zero. *)
Lemma binary64_zero (x : Q) :
  (binary64 x == 0)%Q → (Qabs x <= 2 ^ (-1075))%Q.
Proof.
  intros H.
  destruct (Qeq_dec x 0) as [E|NE].
  { rewrite E. apply Qlt_le_weak, pow2_pos. }
  assert (0 < Qabs x)%Q as Hpos.
  { destruct (Qle_lt_or_eq _ _ (Qabs_nonneg x)) as [Hlt|Heq]; [done|].
    exfalso. apply NE.
    assert (- 0 <= x <= 0)%Q as [? ?]
      by (apply Qabs_Qle_condition; rewrite <- Heq; apply Qle_refl).
    lra. }
  unfold binary64 in H. set (e := Z.max (Qlog2 (Qabs x) - 52) (-1074)) in H.
  pose proof (pow2_pos e) as He.
  apply Qmult_integral in H as [H|H];
    [|rewrite H in He; by apply Qlt_irrefl in He].
  pose proof (round_half_even_close (x / 2 ^ e)) as [Hlo Hhi].
  rewrite H in Hlo, Hhi.
  assert (Qabs (x / 2 ^ e) <= 1 # 2)%Q as Habs
    by (apply Qabs_Qle_condition; split; lra).
  assert (Qabs x <= 2 ^ (e - 1))%Q as Hx.
  { unfold Qdiv in Habs. rewrite Qabs_Qmult, Qabs_Qinv in Habs.
    rewrite (Qabs_pos (2 ^ e)) in Habs by (by apply Qlt_le_weak).
    assert (2 ^ e == 2 * 2 ^ (e - 1))%Q as He2.
    { rewrite <- pow2_succ. by replace (e - 1 + 1) with e by lia. }
    set (P := (2 ^ (e - 1))%Q) in *. set (E := (2 ^ e)%Q) in *.
    set (A := Qabs x) in *.
    assert (A == A * / E * E)%Q as HA by (field; lra).
    set (Y := (A * / E)%Q) in *. nra. }
  destruct (Qlog2_spec _ Hpos) as [HL _].
  assert (Qlog2 (Qabs x) <= e - 1).
  { apply (Qpower_le_compat_l_inv 2); [|done].
    apply Qle_trans with (Qabs x); assumption. }
  assert (e = -1074) as Ee by lia.
  by rewrite Ee in Hx.
Qed.

(** A binary64 number other than zero has magnitude [2 ^ -1074] at least. *)
Lemma binary64_smallest (x : Q) :
  (binary64 x == x)%Q → ¬ (x == 0)%Q → (2 ^ (-1074) <= Qabs x)%Q.
Proof.
  intros Hx NE. unfold binary64 in Hx.
  set (e := Z.max (Qlog2 (Qabs x) - 52) (-1074)) in Hx.
  set (m := round_half_even (x / 2 ^ e)) in Hx.
  pose proof (pow2_pos e) as He.
  rewrite <- Hx, Qabs_Qmult, (Qabs_pos (2 ^ e)) by (by apply Qlt_le_weak).
  assert (m ≠ 0) as Hm.
  { intros E. apply NE. rewrite <- Hx, E. ring. }
  assert (1 <= Qabs (inject_Z m))%Q as H1.
  { unfold inject_Z, Qabs. change 1%Q with (inject_Z 1).
    change (Z.abs m # 1) with (inject_Z (Z.abs m)). rewrite <- Zle_Qle. lia. }
  apply Qle_trans with (1 * 2 ^ e)%Q.
  - rewrite Qmult_1_l. apply pow2_le. lia.
  - apply Qmult_le_compat_r; [done|by apply Qlt_le_weak].
Qed.

(** ** Rounding to hundredths *)

Lemma round2_comp (x y : Q) : (x == y)%Q → (round2 x == round2 y)%Q.
Proof.
  intros H. unfold round2.
  rewrite (round_half_even_comp (x * 100) (y * 100)) by (by rewrite H).
  reflexivity.
Qed.

Lemma round2_mono (x y : Q) : (x <= y)%Q → (round2 x <= round2 y)%Q.
Proof.
  intros H. unfold round2.
  apply Qmult_le_compat_r; [|done].
  rewrite <- Zle_Qle. apply round_half_even_mono. lra.
Qed.

Lemma round2_nonneg (x : Q) : (0 <= x)%Q → (0 <= round2 x)%Q.
Proof.
  intros Hx. apply Qle_trans with (round2 0); [done|].
  by apply round2_mono.
Qed.

(** ** The clearance time *)

Lemma clearance_time_of_comp (f g : Q) :
  (f == g)%Q → (clearance_time_of f == clearance_time_of g)%Q.
Proof.
  intros H. unfold clearance_time_of, Qlt_bool.
  rewrite (Qleb_comp f g H 0%Q 0%Q (Qeq_refl 0)).
  destruct (negb (Qle_bool g 0)); [|reflexivity].
  apply binary64_comp. by rewrite H.
Qed.

Lemma clearance_time_nonneg (f : Q) : (0 <= clearance_time_of f)%Q.
Proof.
  unfold clearance_time_of. destruct (Qlt_bool 0 f) eqn:E; [|done].
  apply Qlt_bool_iff in E. apply binary64_nonneg.
  apply Qle_shift_div_l; lra.
Qed.
(** * Properties of the graph builder *)

Section Builder.
Variables scenario region : string.

Lemma add_segment_edge G seg :
  add_segment scenario region G seg =
  match segment_edge scenario region seg with
  | Raise e => Raise e
  | Ok None => Ok G
  | Ok (Some (u, v)) =>
      let c := resolve_capacity (capacity seg) in
      Ok (if has_edge G u v then add_capacity G u v c
          else add_edge G u v c (cost_time seg))
  end.
Proof.
  unfold add_segment, segment_edge.
  destruct (source seg) as [u|], (target seg) as [v|]; try reflexivity.
  destruct (orient scenario region seg u v) as [[a b]|e]; simpl; [|reflexivity].
  destruct (has_edge G a b); reflexivity.
Qed.

(** The edge map after one segment, pair by pair. *)
Lemma add_segment_lookup G seg G' u v :
  add_segment scenario region G seg = Ok G' →
  edges G' !! (u, v) =
  if maps_to scenario region u v seg
  then accumulate (edges G !! (u, v)) [seg]
  else edges G !! (u, v).
Proof.
  rewrite add_segment_edge. unfold maps_to.
  destruct (segment_edge scenario region seg) as [[[a b]|]|e]; [| |discriminate].
  - intros [= <-]. unfold has_edge. simpl.
    destruct (decide ((a, b) = (u, v))) as [[= -> ->]|Hne].
    + rewrite !bool_decide_eq_true_2 by done. simpl.
      destruct (edges G !! (u, v)) as [d|] eqn:Hd; simpl.
      * by rewrite lookup_alter_eq, Hd.
      * by rewrite lookup_insert_eq.
    + assert (bool_decide (a = u) && bool_decide (b = v) = false) as ->.
      { apply andb_false_iff.
        destruct (decide (a = u)) as [->|]; [right|left];
          apply bool_decide_eq_false; congruence. }
      destruct (edges G !! (a, b)); simpl.
      * by rewrite lookup_alter_ne.
      * by rewrite lookup_insert_ne.
  - by intros [= <-].
Qed.

(** The loop invariant: each pair holds what its own segments built. *)
Lemma add_segments_lookup segments : ∀ G G' u v,
  add_segments scenario region G segments = Ok G' →
  edges G' !! (u, v) =
  accumulate (edges G !! (u, v)) (segments_on scenario region u v segments).
Proof.
  induction segments as [|seg rest IH]; intros G G' u v; simpl.
  - by intros [= <-].
  - destruct (add_segment scenario region G seg) as [G1|e] eqn:H1; [|discriminate].
    simpl. intros Hrest.
    rewrite (IH _ _ u v Hrest), (add_segment_lookup _ _ _ u v H1).
    unfold segments_on. simpl.
    by destruct (maps_to scenario region u v seg).
Qed.

Lemma accumulate_some d segs :
  accumulate (Some d) segs =
  Some {| e_capacity :=
            fold_left Qplus (map (fun s => resolve_capacity (capacity s)) segs)
                      (e_capacity d);
          e_cost := e_cost d |}.
Proof.
  revert d. induction segs as [|seg rest IH]; intros d; simpl.
  - by destruct d.
  - by rewrite IH.
Qed.

Lemma accumulate_none segs :
  accumulate None segs =
  match segs with
  | [] => None
  | seg :: _ =>
      Some {| e_capacity :=
                sum_capacities (map (fun s => resolve_capacity (capacity s)) segs);
              e_cost := cost_time seg |}
  end.
Proof. destruct segs as [|seg rest]; simpl; [done|]. by rewrite accumulate_some. Qed.

(** The same on the finished graph. *)
Lemma generate_network_graph_lookup segments G u v :
  generate_network_graph scenario region segments = Ok G →
  edges G !! (u, v) =
  match segments_on scenario region u v segments with
  | [] => None
  | (seg :: _) as group =>
      Some {| e_capacity :=
                sum_capacities (map (fun s => resolve_capacity (capacity s)) group);
              e_cost := cost_time seg |}
  end.
Proof.
  intros H. unfold generate_network_graph in H.
  rewrite (add_segments_lookup _ _ _ u v H). simpl.
  rewrite lookup_empty, accumulate_none.
  by destruct (segments_on scenario region u v segments).
Qed.

(** The builder fails only where some segment's orientation does. *)
Lemma add_segments_total segments :
  (∀ seg, seg ∈ segments → ∃ e, segment_edge scenario region seg = Ok e) →
  ∀ G, ∃ G', add_segments scenario region G segments = Ok G'.
Proof.
  induction segments as [|seg rest IH]; intros Hall G; simpl; [eauto|].
  destruct (Hall seg) as [e He]; [by left|].
  rewrite add_segment_edge, He.
  destruct e as [[u v]|]; simpl; apply IH; intros s Hs; apply Hall; by right.
Qed.

End Builder.

(** ** The claims on the graph builder *)

Lemma resolve_capacity_cases (c : option Q) :
  (∀ q, c = Some q → ¬ (q == 0)%Q → resolve_capacity c = q) ∧
  (c = None ∨ (∃ q, c = Some q ∧ (q == 0)%Q) → resolve_capacity c = 1800%Q).
Proof.
  unfold resolve_capacity, truthy. split.
  - intros q -> Hq. destruct (Qeq_bool q 0) eqn:E; [|done].
    by apply Qeq_bool_iff in E.
  - intros [->|(q & -> & Hq)]; [done|].
    apply Qeq_bool_iff in Hq. by rewrite Hq.
Qed.

(** C1, as the specification words it, fails: a segment with capacity -5
    puts -5 on its edge, not the default 1800. *)
Lemma negative_capacity_is_kept :
  capacity negative_lane = Some (-5)%Q ∧ ((-5) <= 0)%Q ∧
  ∃ G d, generate_network_graph "baseline" "Tampa Bay" [negative_lane] = Ok G ∧
         edges G !! (1, 2) = Some d ∧
         e_capacity d = (-5)%Q ∧ ¬ (e_capacity d == 1800)%Q.
Proof.
  split; [reflexivity|]. split; [discriminate|].
  eexists _, _. split; [reflexivity|]. split; [reflexivity|].
  split; [reflexivity|]. discriminate.
Qed.

(** C1 (amended): a segment the builder includes adds to its edge its own
    capacity when that capacity is present and not zero (negative values
    included), and exactly 1800 when the capacity is absent or zero. *)
Theorem capacity_contribution scenario region G seg u v :
  segment_edge scenario region seg = Ok (Some (u, v)) →
  ∃ G' d',
    add_segment scenario region G seg = Ok G' ∧
    edges G' !! (u, v) = Some d' ∧
    e_capacity d' =
      match edges G !! (u, v) with
      | Some d => (e_capacity d + resolve_capacity (capacity seg))%Q
      | None => resolve_capacity (capacity seg)
      end ∧
    (∀ q, capacity seg = Some q → ¬ (q == 0)%Q →
          resolve_capacity (capacity seg) = q) ∧
    (capacity seg = None ∨ (∃ q, capacity seg = Some q ∧ (q == 0)%Q) →
     resolve_capacity (capacity seg) = 1800%Q).
Proof.
  intros He.
  assert (∃ G', add_segment scenario region G seg = Ok G') as [G' HG'].
  { rewrite add_segment_edge, He. eauto. }
  pose proof (add_segment_lookup scenario region G seg G' u v HG') as Hl.
  unfold maps_to in Hl. rewrite He, !bool_decide_eq_true_2 in Hl by done.
  simpl in Hl.
  eexists G', _. split; [done|]. split; [exact Hl|].
  split; [by destruct (edges G !! (u, v))|].
  apply resolve_capacity_cases.
Qed.

Lemma capacity_contribution_witness :
  segment_edge "baseline" "Tampa Bay" negative_lane = Ok (Some (1, 2)) ∧
  ∃ G' d',
    add_segment "baseline" "Tampa Bay" parallel_lanes_graph negative_lane = Ok G' ∧
    edges G' !! (1, 2) = Some d' ∧
    e_capacity d' =
      match edges parallel_lanes_graph !! (1, 2) with
      | Some d => (e_capacity d + resolve_capacity (capacity negative_lane))%Q
      | None => resolve_capacity (capacity negative_lane)
      end ∧
    (∀ q, capacity negative_lane = Some q → ¬ (q == 0)%Q →
          resolve_capacity (capacity negative_lane) = q) ∧
    (capacity negative_lane = None
     ∨ (∃ q, capacity negative_lane = Some q ∧ (q == 0)%Q) →
     resolve_capacity (capacity negative_lane) = 1800%Q).
Proof.
  split; [reflexivity|].
  apply (capacity_contribution "baseline" "Tampa Bay" parallel_lanes_graph
           negative_lane 1 2).
  reflexivity.
Defined.



(** Outside the contraflow scenario the contraflow block is skipped. *)
Lemma orient_not_contraflow scenario region seg u v :
  scenario ≠ "contraflow" → orient scenario region seg u v = Ok (u, v).
Proof.
  intros Hs. unfold orient.
  destruct (String.eqb_spec scenario "contraflow"); [done|reflexivity].
Qed.

(** C3: in any scenario other than contraflow, baseline in particular, every
    segment with both endpoints is inserted as (source, target): the builder
    returns a graph whose edges are exactly the (source, target) pairs of
    the segments that have both endpoints. *)
Theorem baseline_never_reverses scenario region segments :
  scenario ≠ "contraflow" →
  (∀ seg u v, orient scenario region seg u v = Ok (u, v)) ∧
  ∃ G, generate_network_graph scenario region segments = Ok G ∧
       ∀ u v, is_Some (edges G !! (u, v)) ↔
              ∃ seg, seg ∈ segments ∧ source seg = Some u ∧ target seg = Some v.
Proof.
  intros Hs.
  assert (Ho : ∀ seg u v, orient scenario region seg u v = Ok (u, v)).
  { intros. by apply orient_not_contraflow. }
  assert (He : ∀ seg, segment_edge scenario region seg =
                      Ok (match source seg, target seg with
                          | Some u, Some v => Some (u, v)
                          | _, _ => None
                          end)).
  { intros seg. unfold segment_edge.
    destruct (source seg), (target seg); try done. by rewrite Ho. }
  split; [exact Ho|].
  destruct (add_segments_total scenario region segments
              (fun seg _ => ex_intro _ _ (He seg)) empty_graph) as [G HG].
  exists G. split; [exact HG|]. intros u v.
  rewrite (generate_network_graph_lookup _ _ _ _ u v HG).
  assert (Hm : ∀ seg, maps_to scenario region u v seg = true ↔
                      source seg = Some u ∧ target seg = Some v).
  { intros seg. unfold maps_to. rewrite He.
    destruct (source seg) as [a|], (target seg) as [b|];
      try (split; [discriminate|intros [? ?]; discriminate]).
    rewrite andb_true_iff, !bool_decide_eq_true.
    split; [by intros [-> ->]|]. by intros [[= ->] [= ->]]. }
  split.
  - destruct (segments_on scenario region u v segments) as [|seg rest] eqn:E.
    { intros [? ?]; discriminate. }
    intros _. exists seg.
    assert (Hin : In seg (segments_on scenario region u v segments))
      by (rewrite E; by left).
    apply filter_In in Hin as [Hin Hmt].
    split; [by apply list_elem_of_In|]. by apply Hm.
  - intros (seg & Hin & Hst).
    assert (Hf : In seg (segments_on scenario region u v segments)).
    { apply filter_In. split; [by apply list_elem_of_In|]. by apply Hm. }
    destruct (segments_on scenario region u v segments); [destruct Hf|eauto].
Qed.

Lemma baseline_never_reverses_witness :
  "baseline" ≠ "contraflow" ∧
  (∀ seg u v, orient "baseline" "Tampa Bay" seg u v = Ok (u, v)) ∧
  ∃ G, generate_network_graph "baseline" "Tampa Bay" [southbound_highway] = Ok G ∧
       ∀ u v, is_Some (edges G !! (u, v)) ↔
              ∃ seg, seg ∈ [southbound_highway]
                     ∧ source seg = Some u ∧ target seg = Some v.
Proof.
  split; [discriminate|].
  apply (baseline_never_reverses "baseline" "Tampa Bay" [southbound_highway]).
  discriminate.
Defined.

(** The contraflow block raises only on an eligible segment whose geometry
    cannot be read as a non-empty line. *)
Lemma orient_readable scenario region seg u v :
  ¬ unreadable (geom seg) → ∃ e, orient scenario region seg u v = Ok e.
Proof.
  intros Hg. unfold orient.
  destruct (String.eqb scenario "contraflow"); [|eauto].
  destruct (road_name seg) as [[|c label]|]; [eauto| |eauto].
  destruct (contains "MAJOR HWY" (upper (String c label))); [|eauto].
  assert (∀ cs : list point, cs ≠ [] → ∃ e : Z * Z,
    (start_p ← first_coord cs;
     end_p ← last_coord cs;
     if should_reverse region (Qlt_bool (snd end_p - snd start_p) 0)
          (Qlt_bool (fst end_p - fst start_p) 0)
          (Qlt_bool 0 (fst end_p - fst start_p))
     then Ok (v, u) else Ok (u, v)) = Ok e) as Hcs.
  { intros cs Hne. destruct cs as [|p cs]; [done|]. simpl.
    unfold last_coord. destruct (last (p :: cs)) as [q|] eqn:El.
    - simpl. destruct (should_reverse _ _ _ _); eauto.
    - by apply last_None in El. }
  destruct (geom seg) as [|[cs|e]|[cs|e]|cs]; simpl in *;
    try done; try (by apply Hcs); eauto.
Qed.

Lemma orient_not_eligible scenario region seg u v :
  source seg = Some u → target seg = Some v →
  reversal_eligible scenario seg = false →
  orient scenario region seg u v = Ok (u, v).
Proof.
  intros Hu Hv. unfold reversal_eligible, orient. rewrite Hu, Hv.
  rewrite !bool_decide_eq_true_2 by eauto. rewrite !andb_true_r.
  destruct (String.eqb scenario "contraflow"); [|done]. simpl.
  destruct (road_name seg) as [[|c label]|]; [done| |done].
  by intros ->.
Qed.

Lemma orient_no_geometry scenario region seg u v :
  geom seg = GeomNone → orient scenario region seg u v = Ok (u, v).
Proof.
  intros Hg. unfold orient. rewrite Hg.
  destruct (String.eqb scenario "contraflow"); [|done].
  destruct (road_name seg) as [[|c label]|]; [done| |done].
  by destruct (contains "MAJOR HWY" (upper (String c label))).
Qed.

(** C4, as the specification words it, fails: under contraflow a major
    highway whose line has no coordinates, or whose payload shapely rejects,
    makes the builder raise. *)
Lemma malformed_geometry_raises :
  reversal_eligible "contraflow" empty_line_highway = true ∧
  generate_network_graph "contraflow" "Tampa Bay" [empty_line_highway]
    = Raise (LibError IndexError) ∧
  reversal_eligible "contraflow" corrupt_highway = true ∧
  generate_network_graph "contraflow" "Tampa Bay" [corrupt_highway]
    = Raise (LibError GeometryError).
Proof. repeat split; reflexivity. Qed.

(** C4 (amended): the builder raises no error when no reversal-eligible
    segment (contraflow scenario, both endpoints, major-highway label) has a
    geometry that cannot be read as a non-empty coordinate sequence; and a
    segment whose geometry is absent keeps its (source, target) orientation
    in every scenario and region. *)
Theorem missing_geometry_keeps_orientation scenario region segments :
  (∀ seg, seg ∈ segments → reversal_eligible scenario seg = true →
          ¬ unreadable (geom seg)) →
  (∃ G, generate_network_graph scenario region segments = Ok G) ∧
  (∀ seg u v, geom seg = GeomNone →
              orient scenario region seg u v = Ok (u, v)).
Proof.
  intros Hall. split; [|intros; by apply orient_no_geometry].
  apply add_segments_total. intros seg Hin. unfold segment_edge.
  destruct (source seg) as [u|] eqn:Hu; [|eauto].
  destruct (target seg) as [v|] eqn:Hv; [|eauto].
  destruct (reversal_eligible scenario seg) eqn:El.
  - destruct (orient_readable scenario region seg u v) as [e He]; [by apply Hall|].
    rewrite He. simpl. eauto.
  - rewrite (orient_not_eligible _ _ _ _ _ Hu Hv El). simpl. eauto.
Qed.

Lemma missing_geometry_keeps_orientation_witness :
  (∀ seg, seg ∈ [highway 1 2 GeomNone; southbound_highway] →
          reversal_eligible "contraflow" seg = true →
          ¬ unreadable (geom seg)) ∧
  (∃ G, generate_network_graph "contraflow" "Tampa Bay"
          [highway 1 2 GeomNone; southbound_highway] = Ok G) ∧
  (∀ seg u v, geom seg = GeomNone →
              orient "contraflow" "Tampa Bay" seg u v = Ok (u, v)).
Proof.
  assert (H : ∀ seg, seg ∈ [highway 1 2 GeomNone; southbound_highway] →
                     reversal_eligible "contraflow" seg = true →
                     ¬ unreadable (geom seg)).
  { intros seg Hin _.
    apply list_elem_of_In in Hin. simpl in Hin.
    destruct Hin as [<-|[<-|[]]]; simpl; [tauto|discriminate]. }
  split; [exact H|].
  exact (missing_geometry_keeps_orientation "contraflow" "Tampa Bay"
           [highway 1 2 GeomNone; southbound_highway] H).
Defined.

(** C9: the cost annotation of every edge of the returned graph is the
    travel cost of the first segment that landed on its pair; and merging a
    further segment into an existing edge leaves the node listing, every
    other edge and that edge's cost as they were, adding the segment's
    capacity only (its travel cost is dropped). *)
Theorem merge_keeps_first_cost scenario region segments G :
  generate_network_graph scenario region segments = Ok G →
  (∀ u v d, edges G !! (u, v) = Some d →
     ∃ first rest,
       segments_on scenario region u v segments = first :: rest ∧
       e_cost d = cost_time first) ∧
  (∀ later u v d,
     segment_edge scenario region later = Ok (Some (u, v)) →
     edges G !! (u, v) = Some d →
     ∃ G', add_segment scenario region G later = Ok G' ∧
           nodes G' = nodes G ∧
           (∀ k, k ≠ (u, v) → edges G' !! k = edges G !! k) ∧
           edges G' !! (u, v) =
             Some {| e_capacity :=
                       (e_capacity d + resolve_capacity (capacity later))%Q;
                     e_cost := e_cost d |}).
Proof.
  intros H. split.
  - intros u v d Hd.
    rewrite (generate_network_graph_lookup _ _ _ _ u v H) in Hd.
    destruct (segments_on scenario region u v segments) as [|first rest];
      [discriminate|].
    injection Hd as <-. by exists first, rest.
  - intros later u v d He Hd.
    rewrite add_segment_edge, He. simpl.
    unfold has_edge. rewrite Hd.
    eexists. split; [reflexivity|]. simpl. split; [done|]. split.
    + intros k Hk. by rewrite lookup_alter_ne.
    + by rewrite lookup_alter_eq, Hd.
Qed.

Lemma merge_keeps_first_cost_witness :
  generate_network_graph "baseline" "Tampa Bay" parallel_lanes
    = Ok parallel_lanes_graph ∧
  (∀ u v d, edges parallel_lanes_graph !! (u, v) = Some d →
     ∃ first rest,
       segments_on "baseline" "Tampa Bay" u v parallel_lanes = first :: rest ∧
       e_cost d = cost_time first) ∧
  (∀ later u v d,
     segment_edge "baseline" "Tampa Bay" later = Ok (Some (u, v)) →
     edges parallel_lanes_graph !! (u, v) = Some d →
     ∃ G', add_segment "baseline" "Tampa Bay" parallel_lanes_graph later = Ok G' ∧
           nodes G' = nodes parallel_lanes_graph ∧
           (∀ k, k ≠ (u, v) →
                 edges G' !! k = edges parallel_lanes_graph !! k) ∧
           edges G' !! (u, v) =
             Some {| e_capacity :=
                       (e_capacity d + resolve_capacity (capacity later))%Q;
                     e_cost := e_cost d |}).
Proof.
  split; [reflexivity|].
  apply (merge_keeps_first_cost "baseline" "Tampa Bay" parallel_lanes).
  reflexivity.
Defined.

(** * Properties of the flow solver's guards and of the handler *)

Lemma has_node_true G n : has_node G n = true ↔ n ∈ nodes G.
Proof. unfold has_node. apply bool_decide_eq_true. Qed.

Lemma has_node_false G n : has_node G n = false ↔ n ∉ nodes G.
Proof. unfold has_node. apply bool_decide_eq_false. Qed.

(** The service method catches whatever the library raises. *)
Lemma calculate_max_flow_total graph s t :
  ∃ q, calculate_max_flow graph s t = Ok q.
Proof.
  unfold calculate_max_flow.
  destruct (negb (has_node graph s) || negb (has_node graph t)); [eauto|].
  destruct (maximum_flow_value graph s t); simpl; eauto.
Qed.

(** C5: when the source or the sink is not a node of the graph,
    [calculate_max_flow] returns exactly 0 and raises nothing. *)
Theorem zero_flow_on_missing_endpoint graph source_node sink_node :
  source_node ∉ nodes graph ∨ sink_node ∉ nodes graph →
  calculate_max_flow graph source_node sink_node = Ok 0%Q.
Proof.
  intros H. unfold calculate_max_flow.
  destruct H as [H|H]; apply has_node_false in H; rewrite H; simpl; [done|].
  by rewrite orb_true_r.
Qed.

Lemma zero_flow_on_missing_endpoint_witness :
  (1 ∉ nodes parallel_lanes_graph ∨ 7 ∉ nodes parallel_lanes_graph) ∧
  calculate_max_flow parallel_lanes_graph 1 7 = Ok 0%Q.
Proof.
  assert (H : 1 ∉ nodes parallel_lanes_graph ∨ 7 ∉ nodes parallel_lanes_graph).
  { right. intros Hin. apply list_elem_of_In in Hin. simpl in Hin.
    destruct Hin as [Hin|[Hin|[]]]; discriminate. }
  split; [exact H|].
  exact (zero_flow_on_missing_endpoint parallel_lanes_graph 1 7 H).
Defined.

(** Whatever the library call raises becomes a flow of 0. *)
Lemma calculate_max_flow_caught graph s t e :
  maximum_flow_value graph s t = Raise e →
  calculate_max_flow graph s t = Ok 0%Q.
Proof.
  intros He. unfold calculate_max_flow. rewrite He. simpl.
  by destruct (negb (has_node graph s) || negb (has_node graph t)).
Qed.

Lemma maximum_flow_value_same_node graph s :
  s ∈ nodes graph →
  maximum_flow_value graph s s = Raise (LibError NetworkXError).
Proof.
  intros Hs. apply has_node_true in Hs.
  unfold maximum_flow_value. rewrite Hs. simpl.
  by rewrite bool_decide_eq_true_2.
Qed.

(** C10: with the source equal to the sink, a node of the graph, the library
    call raises, the service method catches it, and the result is 0; more
    generally every error of the library call is turned into 0. *)
Theorem same_node_flow_is_zero graph s :
  s ∈ nodes graph →
  maximum_flow_value graph s s = Raise (LibError NetworkXError) ∧
  calculate_max_flow graph s s = Ok 0%Q ∧
  (∀ t e, maximum_flow_value graph s t = Raise e →
          calculate_max_flow graph s t = Ok 0%Q).
Proof.
  intros Hs. split; [by apply maximum_flow_value_same_node|].
  split; [|intros t e; apply calculate_max_flow_caught].
  eapply calculate_max_flow_caught. by apply maximum_flow_value_same_node.
Qed.

Lemma same_node_flow_is_zero_witness :
  1 ∈ nodes parallel_lanes_graph ∧
  maximum_flow_value parallel_lanes_graph 1 1 = Raise (LibError NetworkXError) ∧
  calculate_max_flow parallel_lanes_graph 1 1 = Ok 0%Q ∧
  (∀ t e, maximum_flow_value parallel_lanes_graph 1 t = Raise e →
          calculate_max_flow parallel_lanes_graph 1 t = Ok 0%Q).
Proof.
  assert (H : 1 ∈ nodes parallel_lanes_graph).
  { apply list_elem_of_In. simpl. by left. }
  split; [exact H|].
  exact (same_node_flow_is_zero parallel_lanes_graph 1 H).
Defined.

Lemma lib_only_from_lib {A : Type} (x : lib_exn + A) : lib_only (from_lib x).
Proof. by destruct x. Qed.

Lemma lib_only_bind {A B : Type} (r : result A) (k : A → result B) :
  lib_only r → (∀ a, lib_only (k a)) → lib_only (r ≫= k).
Proof. destruct r as [a|[e|c]]; simpl; [auto|done|done]. Qed.

Lemma lib_only_last_node ns : lib_only (last_node ns).
Proof. unfold last_node. by destruct (last ns). Qed.

Lemma lib_only_first_node ns : lib_only (first_node ns).
Proof. by destruct ns. Qed.

Lemma reraise_as_500_lib_only {A : Type} (r : result A) :
  lib_only r → reraise_as_500 r ≠ Raise (HTTPException 404).
Proof. destruct r as [a|[e|c]]; simpl; [done|done|tauto]. Qed.

Section SimulationFacts.
Variable is_weakly_connected : DiGraph → lib_exn + bool.
Variable largest_component : DiGraph → lib_exn + DiGraph.
Variable random_choice : nat → list Z → lib_exn + Z.
Variable descendants : DiGraph → Z → lib_exn + list Z.

Lemma lib_only_trials remaining : ∀ trial subgraph ns,
  lib_only (trials random_choice descendants remaining trial subgraph ns).
Proof.
  induction remaining as [|k IH]; intros trial subgraph ns; simpl; [done|].
  apply lib_only_bind; [apply lib_only_from_lib|]. intros c.
  apply lib_only_bind; [apply lib_only_from_lib|]. intros ds.
  destruct (50 <? length ds)%nat; [|apply IH].
  apply lib_only_bind; [apply lib_only_last_node|done].
Qed.

Lemma select_endpoints_404 graph :
  number_of_nodes graph = 0%nat ↔
  select_endpoints is_weakly_connected largest_component random_choice
    descendants graph = Raise (HTTPException 404).
Proof.
  unfold select_endpoints.
  destruct (Nat.eqb_spec (number_of_nodes graph) 0) as [E|E].
  - by split.
  - split; [done|]. intros H. exfalso. revert H.
    apply reraise_as_500_lib_only.
    apply lib_only_bind; [apply lib_only_from_lib|]. intros connected.
    apply lib_only_bind.
    { destruct connected; simpl; [done|apply lib_only_from_lib]. }
    intros subgraph.
    apply lib_only_bind; [apply lib_only_trials|].
    intros [[s t]|]; [done|].
    apply lib_only_bind; [apply lib_only_first_node|]. intros s.
    apply lib_only_bind; [apply lib_only_last_node|done].
Qed.

Lemma run_simulation_raises scenario region segments graph e :
  generate_network_graph scenario region segments = Ok graph →
  run_simulation is_weakly_connected largest_component random_choice
    descendants None scenario region segments = Raise e ↔
  select_endpoints is_weakly_connected largest_component random_choice
    descendants graph = Raise e.
Proof.
  intros HG. unfold run_simulation. rewrite HG. simpl.
  destruct (select_endpoints _ _ _ _ graph) as [[[g s] t]|e']; simpl;
    [|split; intros [= ->]; reflexivity].
  destruct (calculate_max_flow_total g s t) as [q ->]. simpl.
  split; discriminate.
Qed.

(** A response is computed exactly when the builder and the endpoint
    selection return: it is then made from the flow between the endpoints
    selected, on the graph selected. *)
Lemma run_simulation_ok scenario region segments r :
  run_simulation is_weakly_connected largest_component random_choice
    descendants None scenario region segments = Ok r ↔
  ∃ graph subgraph s t f,
    generate_network_graph scenario region segments = Ok graph ∧
    select_endpoints is_weakly_connected largest_component random_choice
      descendants graph = Ok (subgraph, s, t) ∧
    calculate_max_flow subgraph s t = Ok f ∧
    r = make_response scenario subgraph f.
Proof.
  unfold run_simulation. split.
  - destruct (generate_network_graph scenario region segments) as [graph|e];
      simpl; [|done].
    destruct (select_endpoints _ _ _ _ graph) as [[[g s] t]|e] eqn:ES;
      simpl; [|done].
    destruct (calculate_max_flow g s t) as [f|e] eqn:Ef; simpl; [|done].
    intros [= <-]. by exists graph, g, s, t, f.
  - intros (graph & g & s & t & f & -> & HS & Hf & ->). simpl.
    rewrite HS. simpl. by rewrite Hf.
Qed.

End SimulationFacts.

(** C6: endpoint selection raises the 404 "graph is empty" error exactly
    when the graph has zero nodes; the handler then answers with that error,
    which no successful response equals (a zero-flow response in particular),
    and for a non-empty graph it never answers with it. *)
Theorem empty_graph_is_signalled
    (is_weakly_connected : DiGraph → lib_exn + bool)
    (largest_component : DiGraph → lib_exn + DiGraph)
    (random_choice : nat → list Z → lib_exn + Z)
    (descendants : DiGraph → Z → lib_exn + list Z)
    (graph : DiGraph) :
  let select := select_endpoints is_weakly_connected largest_component
                  random_choice descendants in
  let run := run_simulation is_weakly_connected largest_component
               random_choice descendants None in
  (number_of_nodes graph = 0%nat ↔ select graph = Raise (HTTPException 404)) ∧
  (∀ scenario region segments,
     generate_network_graph scenario region segments = Ok graph →
     (number_of_nodes graph = 0%nat ↔
      run scenario region segments = Raise (HTTPException 404)) ∧
     (number_of_nodes graph = 0%nat →
      ∀ r, run scenario region segments ≠ Ok r)).
Proof.
  cbv zeta. split; [apply select_endpoints_404|].
  intros scenario region segments HG. split.
  - rewrite (run_simulation_raises _ _ _ _ _ _ _ _ _ HG).
    apply select_endpoints_404.
  - intros Hn r Hr.
    apply (select_endpoints_404 is_weakly_connected largest_component
             random_choice descendants) in Hn.
    apply (run_simulation_raises _ _ _ _ _ _ _ _ _ HG) in Hn. congruence.
Qed.

(** C8: the response the handler computes derives its metrics from the flow
    [f] it reports, the flow computed between the endpoints selected: the
    clearance time is 24 for a flow of at most 0 and otherwise the quotient
    1000000 / f, a float division, rounded to two decimals (as long as the
    quotient is a finite float), hence within half a hundredth and the
    error of the division of 1000000 / f; the risk is CRITICAL below 1000 and
    MODERATE from 1000 on; flows 5000, 500 and 0 give (200, MODERATE),
    (2000, CRITICAL) and 24.  The quotient is a float before it is rounded
    to two decimals: a flow of 40000000 gives 0.03, not the 0.02 that the
    exact quotient 0.025 would give. *)
Theorem derived_metrics
    (is_weakly_connected : DiGraph → lib_exn + bool)
    (largest_component : DiGraph → lib_exn + DiGraph)
    (random_choice : nat → list Z → lib_exn + Z)
    (descendants : DiGraph → Z → lib_exn + list Z)
    scenario region segments r :
  run_simulation is_weakly_connected largest_component random_choice
    descendants None scenario region segments = Ok r →
  let f := max_throughput_vph r in
  (∃ graph subgraph source_node sink_node,
     generate_network_graph scenario region segments = Ok graph ∧
     select_endpoints is_weakly_connected largest_component random_choice
       descendants graph = Ok (subgraph, source_node, sink_node) ∧
     calculate_max_flow subgraph source_node sink_node = Ok f) ∧
  ((f <= 0)%Q → (clearance_time_hours r == 24)%Q) ∧
  ((0 < f)%Q → (1000000 / f <= float_max)%Q →
   (clearance_time_hours r == round2 (binary64 (1000000 / f)))%Q ∧
   (∃ n : Z, clearance_time_hours r == inject_Z n / 100)%Q ∧
   (Qabs (clearance_time_hours r - 1000000 / f)
      <= (1 # 200) + float_error (1000000 / f))%Q) ∧
  ((f < 1000)%Q → gridlock_risk r = "CRITICAL") ∧
  ((1000 <= f)%Q → gridlock_risk r = "MODERATE") ∧
  ((f == 5000)%Q →
   (clearance_time_hours r == 200)%Q ∧ gridlock_risk r = "MODERATE") ∧
  ((f == 500)%Q →
   (clearance_time_hours r == 2000)%Q ∧ gridlock_risk r = "CRITICAL") ∧
  ((f == 0)%Q → (clearance_time_hours r == 24)%Q) ∧
  ((f == 40000000)%Q → (clearance_time_hours r == 3 # 100)%Q).
Proof.
  intros H. apply run_simulation_ok in H
    as (graph & g & s & t & f & HG & HS & Hf & ->).
  cbv zeta. unfold make_response.
  cbn [max_throughput_vph clearance_time_hours gridlock_risk].
  assert (Hat : ∀ c, (f == c)%Q →
            (round2 (clearance_time_of f) == round2 (clearance_time_of c))%Q)
    by (intros c Hc; by apply round2_comp, clearance_time_of_comp).
  assert (Hlt : (f < 1000)%Q → gridlock_risk_of f = "CRITICAL").
  { intros Hc. unfold gridlock_risk_of.
    apply Qlt_bool_iff in Hc. by rewrite Hc. }
  assert (Hge : (1000 <= f)%Q → gridlock_risk_of f = "MODERATE").
  { intros Hc. unfold gridlock_risk_of.
    apply Qlt_bool_false_iff in Hc. by rewrite Hc. }
  split; [by exists graph, g, s, t|].
  split.
  { intros Hc. unfold clearance_time_of.
    apply Qlt_bool_false_iff in Hc. by rewrite Hc. }
  split.
  { intros Hc _. unfold clearance_time_of.
    apply Qlt_bool_iff in Hc as Hc'. rewrite Hc'.
    split; [reflexivity|]. split; [apply round2_spec|].
    assert (0 < 1000000 / f)%Q as Hq by (apply Qlt_shift_div_l; lra).
    pose proof (binary64_close _ Hq) as Hb.
    apply Qabs_Qle_condition in Hb as [Hb1 Hb2].
    destruct (round2_spec (binary64 (1000000 / f))) as [_ [Hr1 Hr2]].
    apply Qabs_Qle_condition.
    set (q := (1000000 / f)%Q) in *. set (b := binary64 q) in *.
    set (c := round2 b) in *. set (fe := float_error q) in *.
    split; lra. }
  split; [done|]. split; [done|].
  split. { intros Hc. split; [by rewrite (Hat _ Hc)|apply Hge; lra]. }
  split. { intros Hc. split; [by rewrite (Hat _ Hc)|apply Hlt; lra]. }
  split. { intros Hc. by rewrite (Hat _ Hc). }
  intros Hc. by rewrite (Hat _ Hc).
Qed.

Lemma derived_metrics_witness :
  let r := make_response "baseline" trunk_graph 40000000 in
  run_simulation always_connected whole_graph choose_one no_descendants
    None "baseline" "Tampa Bay" [trunk_road] = Ok r ∧
  let f := max_throughput_vph r in
  (∃ graph subgraph source_node sink_node,
     generate_network_graph "baseline" "Tampa Bay" [trunk_road] = Ok graph ∧
     select_endpoints always_connected whole_graph choose_one no_descendants
       graph = Ok (subgraph, source_node, sink_node) ∧
     calculate_max_flow subgraph source_node sink_node = Ok f) ∧
  ((f <= 0)%Q → (clearance_time_hours r == 24)%Q) ∧
  ((0 < f)%Q → (1000000 / f <= float_max)%Q →
   (clearance_time_hours r == round2 (binary64 (1000000 / f)))%Q ∧
   (∃ n : Z, clearance_time_hours r == inject_Z n / 100)%Q ∧
   (Qabs (clearance_time_hours r - 1000000 / f)
      <= (1 # 200) + float_error (1000000 / f))%Q) ∧
  ((f < 1000)%Q → gridlock_risk r = "CRITICAL") ∧
  ((1000 <= f)%Q → gridlock_risk r = "MODERATE") ∧
  ((f == 5000)%Q →
   (clearance_time_hours r == 200)%Q ∧ gridlock_risk r = "MODERATE") ∧
  ((f == 500)%Q →
   (clearance_time_hours r == 2000)%Q ∧ gridlock_risk r = "CRITICAL") ∧
  ((f == 0)%Q → (clearance_time_hours r == 24)%Q) ∧
  ((f == 40000000)%Q → (clearance_time_hours r == 3 # 100)%Q).
Proof.
  assert (H : run_simulation always_connected whole_graph choose_one
                no_descendants None "baseline" "Tampa Bay" [trunk_road]
              = Ok (make_response "baseline" trunk_graph 40000000))
    by (vm_compute; reflexivity).
  split; [exact H|].
  exact (derived_metrics always_connected whole_graph choose_one
           no_descendants "baseline" "Tampa Bay" [trunk_road] _ H).
Defined.

(** The handler on one road of capacity 5000, 500 and 999.9990234375:
    the metrics of the flows 5000 and 500, and a CRITICAL risk with a
    clearance time of exactly 1000 hours. *)
Example metrics_of_sample_flows :
  let run c := run_simulation always_connected whole_graph choose_one
                 no_descendants None "baseline" "Tampa Bay"
                 [lane 1 2 (Some c) None] in
  (∃ r, run 5000%Q = Ok r ∧ (max_throughput_vph r == 5000)%Q ∧
        (clearance_time_hours r == 200)%Q ∧ gridlock_risk r = "MODERATE") ∧
  (∃ r, run 500%Q = Ok r ∧ (max_throughput_vph r == 500)%Q ∧
        (clearance_time_hours r == 2000)%Q ∧ gridlock_risk r = "CRITICAL") ∧
  (∃ r, run (1023999 # 1024)%Q = Ok r ∧
        (max_throughput_vph r == 1023999 # 1024)%Q ∧
        (clearance_time_hours r == 1000)%Q ∧ gridlock_risk r = "CRITICAL").
Proof.
  cbv zeta. split; [|split]; eexists; (split; [vm_compute; reflexivity|]);
    by vm_compute.
Qed.

(** * Properties of the maximum-flow computation *)

(** ** Residual capacities under a push *)

Lemma res_push b R u v x y :
  res (push b R u v) x y =
  if decide ((v, u) = (x, y)) then (res R v u + b)%Q
  else if decide ((u, v) = (x, y)) then (res R u v - b)%Q
  else res R x y.
Proof.
  unfold push, res at 1.
  rewrite lookup_insert. destruct (decide ((v, u) = (x, y))); [done|].
  rewrite lookup_insert. by destruct (decide ((u, v) = (x, y))).
Qed.

(** ** Soundness of the search *)

Lemma successors_sound R u v : v ∈ successors R u → (0 < res R u v)%Q.
Proof.
  unfold successors. rewrite list_elem_of_omap.
  intros ([[a b] r] & Hin & Hf).
  apply elem_of_map_to_list in Hin.
  destruct (bool_decide (a = u)) eqn:Ea; [|discriminate]. simpl in Hf.
  destruct (Qlt_bool 0 r) eqn:Er; [|discriminate].
  injection Hf as <-. apply bool_decide_eq_true in Ea as ->.
  unfold res. rewrite Hin. simpl. by apply Qlt_bool_iff.
Qed.

Lemma extend_sound R s u p cands : ∀ visited acc acc' visited',
  rpath R s (u :: p) →
  (∀ v, v ∈ cands → (0 < res R u v)%Q) →
  s ∈ visited → Forall (rpath R s) acc →
  extend (u :: p) cands visited acc = (acc', visited') →
  s ∈ visited' ∧ Forall (rpath R s) acc'.
Proof.
  induction cands as [|v cs IH]; intros visited acc acc' visited' Hp Hc Hs Hacc;
    simpl.
  - by intros [= <- <-].
  - case_bool_decide as Hv.
    + apply IH; auto. intros w Hw. apply Hc. by right.
    + apply IH; auto.
      * intros w Hw. apply Hc. by right.
      * apply elem_of_union. by right.
      * apply Forall_app. split; [done|].
        apply Forall_singleton. apply rpath_cons; [done| |].
        -- apply Hc. by left.
        -- intros ->. contradiction.
Qed.

Lemma next_layer_sound R s frontier : ∀ visited acc acc' visited',
  Forall (rpath R s) frontier → s ∈ visited → Forall (rpath R s) acc →
  next_layer R frontier visited acc = (acc', visited') →
  s ∈ visited' ∧ Forall (rpath R s) acc'.
Proof.
  induction frontier as [|p ps IH]; intros visited acc acc' visited' Hf Hs Hacc;
    simpl.
  - by intros [= <- <-].
  - apply Forall_cons in Hf as [Hp Hps].
    destruct p as [|u p]; [by apply IH|].
    destruct (extend (u :: p) (successors R u) visited acc) as [acc1 vis1] eqn:E.
    apply (extend_sound R s) in E as [Hs1 Hacc1]; auto.
    + by apply IH.
    + intros v. apply successors_sound.
Qed.

Lemma bfs_sound R s t fuel : ∀ frontier visited p,
  Forall (rpath R s) frontier → s ∈ visited →
  bfs fuel R t frontier visited = Some p →
  rpath R s p ∧ ∃ p', p = t :: p'.
Proof.
  induction fuel as [|n IH]; intros frontier visited p Hf Hs; simpl.
  - destruct (List.find (ends_at t) frontier) as [q|] eqn:Eq; [|done].
    intros [= <-]. apply find_some in Eq as [Hin Ht].
    split; [rewrite Forall_forall in Hf; by apply Hf, list_elem_of_In|].
    destruct q as [|v q]; [done|]. apply bool_decide_eq_true in Ht as ->. eauto.
  - destruct (List.find (ends_at t) frontier) as [q|] eqn:Eq.
    + intros [= <-]. apply find_some in Eq as [Hin Ht].
      split; [rewrite Forall_forall in Hf; by apply Hf, list_elem_of_In|].
      destruct q as [|v q]; [done|]. apply bool_decide_eq_true in Ht as ->. eauto.
    + destruct frontier as [|q qs]; [done|].
      destruct (next_layer R (q :: qs) visited []) as [fr vis] eqn:E.
      apply (next_layer_sound R s) in E as [Hs' Hf']; auto.
      by apply IH.
Qed.

Lemma augmenting_path_sound R s t p :
  augmenting_path R s t = Some p → rpath R s p ∧ ∃ p', p = t :: p'.
Proof.
  unfold augmenting_path. apply bfs_sound.
  - apply Forall_singleton, rpath_start.
  - by apply elem_of_singleton.
Qed.

(** ** Shape of a path *)

Lemma rpath_at_source R s p : rpath R s (s :: p) → p = [].
Proof. inversion 1; [done|congruence]. Qed.

Lemma rpath_single R s u : rpath R s [u] → u = s.
Proof. by inversion 1. Qed.

Lemma rpath_tail R s v u p : rpath R s (v :: u :: p) →
  rpath R s (u :: p) ∧ (0 < res R u v)%Q ∧ v ≠ s.
Proof. by inversion 1. Qed.

(** A path to a node other than the source has a first hop and a
    bottleneck. *)
Lemma rpath_first_hop R s t p :
  rpath R s (t :: p) → t ≠ s → ∃ x, first_hop (t :: p) = Some x.
Proof.
  revert t. induction p as [|u p IH]; intros t Hp Ht.
  - by apply rpath_single in Hp.
  - apply rpath_tail in Hp as (Hp & _ & _). simpl.
    destruct p as [|w p]; [eauto|].
    apply (IH u Hp). intros ->. by apply rpath_at_source in Hp.
Qed.

Lemma bottleneck_cons R v u p :
  bottleneck R (v :: u :: p) =
  Some (match bottleneck R (u :: p) with
        | Some m => Qmin (res R u v) m
        | None => res R u v
        end).
Proof. reflexivity. Qed.

Lemma augment_cons b R v u p :
  augment b R (v :: u :: p) = push b (augment b R (u :: p)) u v.
Proof. reflexivity. Qed.

Lemma bottleneck_is_residual R p b :
  bottleneck R p = Some b → ∃ u v, b = res R u v.
Proof.
  revert b. induction p as [|v p IH]; intros b; [done|].
  destruct p as [|u p]; [done|]. rewrite bottleneck_cons.
  destruct (bottleneck R (u :: p)) as [m|]; intros [= <-]; [|eauto].
  destruct (Qmin_cases (res R u v) m) as [->| ->]; [eauto|].
  by apply IH.
Qed.

Lemma bottleneck_positive R s p b :
  rpath R s p → bottleneck R p = Some b → (0 < b)%Q.
Proof.
  intros Hp. revert b. induction Hp as [|u v p Hp IH Huv Hv]; intros b; [done|].
  rewrite bottleneck_cons.
  destruct (bottleneck R (u :: p)) as [m|]; intros [= <-]; [|done].
  specialize (IH m eq_refl).
  by destruct (Qmin_cases (res R u v) m) as [->| ->].
Qed.

Lemma bottleneck_first_hop R s p b x :
  rpath R s p → bottleneck R p = Some b → first_hop p = Some x →
  (b <= res R s x)%Q.
Proof.
  intros Hp. revert b. induction Hp as [|u v p Hp IH Huv Hv]; intros b; [done|].
  destruct p as [|w p].
  - apply rpath_single in Hp as ->. simpl. intros [= <-] [= <-]. lra.
  - change (first_hop (v :: u :: w :: p)) with (first_hop (u :: w :: p)).
    rewrite bottleneck_cons.
    destruct (bottleneck R (u :: w :: p)) as [m|] eqn:Em; [|done].
    intros [= <-] Hx. specialize (IH m eq_refl Hx).
    pose proof (Qmin_le_r (res R u v) m). lra.
Qed.

Lemma rpath_bottleneck R s t p :
  rpath R s (t :: p) → t ≠ s → ∃ b, bottleneck R (t :: p) = Some b.
Proof.
  intros Hp Ht. destruct p as [|u p]; [by apply rpath_single in Hp|].
  rewrite bottleneck_cons. eauto.
Qed.

(** ** What an augmentation does to the arcs leaving the source *)

Lemma res_augment_source b R s p x :
  rpath R s p →
  res (augment b R p) s x =
  if decide (first_hop p = Some x) then (res R s x - b)%Q else res R s x.
Proof.
  induction 1 as [|u v p Hp IH Huv Hv].
  - simpl. by destruct (decide (None = Some x)).
  - rewrite augment_cons, res_push.
    destruct (decide ((v, u) = (s, x))) as [[= -> ->]|_]; [done|].
    destruct p as [|w p].
    + apply rpath_single in Hp as ->. simpl.
      destruct (decide ((s, v) = (s, x))) as [[= ->]|Hne].
      * by rewrite decide_True.
      * rewrite decide_False; [done|congruence].
    + assert (u ≠ s) as Hu by (intros ->; by apply rpath_at_source in Hp).
      rewrite decide_False by congruence.
      exact IH.
Qed.

(** ** Multiples of the common denominator *)

Lemma grid_0 D : grid D 0.
Proof. exists 0. reflexivity. Qed.

Lemma grid_plus D a b : grid D a → grid D b → grid D (a + b).
Proof.
  intros [k Hk] [l Hl]. exists (k + l).
  rewrite inject_Z_plus, <- Hk, <- Hl. ring.
Qed.

Lemma grid_minus D a b : grid D a → grid D b → grid D (a - b).
Proof.
  intros [k Hk] [l Hl]. exists (k - l).
  unfold Z.sub. rewrite inject_Z_plus, inject_Z_opp, <- Hk, <- Hl. ring.
Qed.

(** A positive multiple of [1 / D] is at least [1 / D]. *)
Lemma grid_positive D q :
  grid D q → (0 < q)%Q → (1 <= q * inject_Z (Zpos D))%Q.
Proof.
  intros [k Hk] Hq. rewrite Hk.
  assert (0 < q * inject_Z (Z.pos D))%Q as Hpos.
  { apply Qmult_lt_0_compat; [done|]. reflexivity. }
  rewrite Hk in Hpos.
  change 0%Q with (inject_Z 0) in Hpos. rewrite <- Zlt_Qlt in Hpos.
  change 1%Q with (inject_Z 1). rewrite <- Zle_Qle. lia.
Qed.

Lemma grid_augment D b R p :
  grid D b → (∀ u v, grid D (res R u v)) →
  ∀ u v, grid D (res (augment b R p) u v).
Proof.
  intros Hb HR. induction p as [|v p IH]; [done|].
  destruct p as [|u p]; [done|].
  intros x y. rewrite augment_cons, res_push.
  destruct (decide ((v, u) = (x, y))); [by apply grid_plus|].
  destruct (decide ((u, v) = (x, y))); [by apply grid_minus|].
  apply IH.
Qed.

(** ** Sums *)

Lemma Qsum_cons a l : Qsum (a :: l) = (a + Qsum l)%Q.
Proof. reflexivity. Qed.

Lemma Qsum_nonneg l : Forall (fun q => (0 <= q)%Q) l → (0 <= Qsum l)%Q.
Proof.
  induction 1 as [|q l Hq _ IH]; [discriminate|]. rewrite Qsum_cons. lra.
Qed.

Lemma Qsum_map_same (f g : Z → Q) (l : list Z) :
  (∀ x, x ∈ l → f x = g x) → Qsum (map f l) = Qsum (map g l).
Proof.
  induction l as [|a l IH]; intros H; [done|]. simpl map. rewrite !Qsum_cons.
  rewrite H by (by left). rewrite IH; [done|]. intros x Hx. apply H. by right.
Qed.

(** Lowering one term of a sum over distinct indices lowers the sum. *)
Lemma Qsum_map_lower (f g : Z → Q) (b : Q) (x1 : Z) (l : list Z) :
  NoDup l → x1 ∈ l →
  g x1 = (f x1 - b)%Q → (∀ x, x ≠ x1 → g x = f x) →
  (Qsum (map g l) == Qsum (map f l) - b)%Q.
Proof.
  intros Hnd Hin H1 Hne. induction Hnd as [|a l Ha Hnd IH]; [by inversion Hin|].
  simpl map. rewrite !Qsum_cons.
  destruct (decide (a = x1)) as [->|Hax].
  - rewrite H1. rewrite (Qsum_map_same g f); [ring|].
    intros x Hx. apply Hne. intros ->. contradiction.
  - rewrite (Hne a Hax). rewrite IH; [ring|].
    apply elem_of_cons in Hin as [->|Hin]; [done|exact Hin].
Qed.

(** ** The residual network at zero flow *)

Lemma build_residual_network_lookup G u v :
  build_residual_network G !! (u, v) =
  match edges G !! (u, v) with
  | Some d =>
      if bool_decide (u ≠ v) && Qlt_bool 0 (e_capacity d)
      then Some (e_capacity d) else None
  | None => None
  end.
Proof.
  unfold build_residual_network. rewrite map_lookup_imap.
  by destruct (edges G !! (u, v)).
Qed.

Lemma initial_residual_edge G u v :
  (0 < res (build_residual_network G) u v)%Q → is_Some (edges G !! (u, v)).
Proof.
  unfold res. rewrite build_residual_network_lookup.
  destruct (edges G !! (u, v)); [eauto|]. simpl. intros H. by apply Qlt_irrefl in H.
Qed.

Lemma initial_residual_nonneg G u v :
  (0 <= res (build_residual_network G) u v)%Q.
Proof.
  unfold res. rewrite build_residual_network_lookup.
  destruct (edges G !! (u, v)) as [d|]; [|discriminate].
  destruct (bool_decide (u ≠ v)); simpl; [|discriminate].
  destruct (Qlt_bool 0 (e_capacity d)) eqn:E; simpl; [|discriminate].
  apply Qlt_bool_iff in E. lra.
Qed.

Lemma elem_of_out_nodes G s x :
  x ∈ out_nodes G s ↔
  ∃ d, edges G !! (s, x) = Some d ∧ s ≠ x ∧ (0 < e_capacity d)%Q.
Proof.
  unfold out_nodes, edge_list. rewrite list_elem_of_omap. split.
  - intros ([[a b] d] & Hin & Hf). apply elem_of_map_to_list in Hin.
    destruct (bool_decide (a = s)) eqn:Ea; [|discriminate].
    destruct (bool_decide (a ≠ b)) eqn:Eb; [|discriminate].
    destruct (Qlt_bool 0 (e_capacity d)) eqn:Ec; [|discriminate].
    injection Hf as <-.
    apply bool_decide_eq_true in Ea as ->. apply bool_decide_eq_true in Eb.
    apply Qlt_bool_iff in Ec. eauto.
  - intros (d & Hd & Hne & Hc). exists ((s, x), d). split.
    + by apply elem_of_map_to_list.
    + rewrite !bool_decide_eq_true_2 by done.
      apply Qlt_bool_iff in Hc. by rewrite Hc.
Qed.

Lemma initial_residual_out G s x :
  x ∉ out_nodes G s → (res (build_residual_network G) s x <= 0)%Q.
Proof.
  intros Hx. unfold res. rewrite build_residual_network_lookup.
  destruct (edges G !! (s, x)) as [d|] eqn:Ed; [|discriminate].
  destruct (bool_decide (s ≠ x)) eqn:Ene; simpl; [|discriminate].
  destruct (Qlt_bool 0 (e_capacity d)) eqn:Ec; simpl; [|discriminate].
  exfalso. apply Hx, elem_of_out_nodes. exists d.
  apply bool_decide_eq_true in Ene. apply Qlt_bool_iff in Ec. eauto.
Qed.

Lemma NoDup_out_nodes G s : NoDup (out_nodes G s).
Proof.
  unfold out_nodes, edge_list.
  pose proof (NoDup_fst_map_to_list (edges G)) as Hnd.
  induction (map_to_list (edges G)) as [|[[a b] d] l IH]; [constructor|].
  rewrite fmap_cons in Hnd. apply NoDup_cons in Hnd as [Hab Hnd].
  simpl omap.
  destruct (bool_decide (a = s) && bool_decide (a ≠ b)
            && Qlt_bool 0 (e_capacity d)) eqn:E; [|by apply IH].
  apply NoDup_cons. split; [|by apply IH].
  intros Hb. apply list_elem_of_omap in Hb as ([[a' b'] d'] & Hin & Hf).
  destruct (bool_decide (a' = s)) eqn:Ea'; [|discriminate].
  destruct (bool_decide (a' ≠ b')); [|discriminate].
  destruct (Qlt_bool 0 (e_capacity d')); [|discriminate].
  injection Hf as ->. apply bool_decide_eq_true in Ea' as ->.
  apply andb_true_iff in E as [E _]. apply andb_true_iff in E as [Ea _].
  apply bool_decide_eq_true in Ea as ->.
  apply Hab. simpl. apply list_elem_of_fmap. by exists ((s, b), d').
Qed.

(** At zero flow the spare capacity out of [s] is the usable capacity. *)
Lemma initial_spare_out G s :
  map (res (build_residual_network G) s) (out_nodes G s) =
  usable_out_capacities G s.
Proof.
  unfold out_nodes, usable_out_capacities, edge_list.
  assert (∀ k d, (k, d) ∈ map_to_list (edges G) → edges G !! k = Some d) as H.
  { intros k d. apply elem_of_map_to_list. }
  induction (map_to_list (edges G)) as [|[[a b] d] l IH]; [done|].
  simpl omap.
  destruct (bool_decide (a = s) && bool_decide (a ≠ b)
            && Qlt_bool 0 (e_capacity d)) eqn:E.
  - simpl map. f_equal; [|apply IH; intros; apply H; by right].
    pose proof E as E'.
    apply andb_true_iff in E as [E Ec]. apply andb_true_iff in E as [Ea Eb].
    apply bool_decide_eq_true in Ea as ->.
    unfold res. rewrite build_residual_network_lookup, (H (s, b) d) by (by left).
    by rewrite Eb, Ec.
  - apply IH. intros; apply H; by right.
Qed.

Lemma common_denominator_divides G k d :
  edges G !! k = Some d →
  ∃ m : positive, common_denominator G = (Qden (e_capacity d) * m)%positive.
Proof.
  intros Hd. apply elem_of_map_to_list in Hd.
  unfold common_denominator, edge_list.
  induction (map_to_list (edges G)) as [|[k' d'] l IH]; [by inversion Hd|].
  simpl. apply elem_of_cons in Hd as [[= <- <-]|Hin]; [eauto|].
  destruct (IH Hin) as [m ->].
  exists (Qden (e_capacity d') * m)%positive. lia.
Qed.

Lemma grid_of_denominator (q : Q) (m : positive) : grid (Qden q * m) q.
Proof.
  exists (Qnum q * Zpos m). destruct q as [n den].
  unfold Qeq, Qmult, inject_Z. simpl. lia.
Qed.

Lemma initial_residual_grid G u v :
  grid (common_denominator G) (res (build_residual_network G) u v).
Proof.
  unfold res. rewrite build_residual_network_lookup.
  destruct (edges G !! (u, v)) as [d|] eqn:Ed; [|apply grid_0].
  destruct (bool_decide (u ≠ v) && Qlt_bool 0 (e_capacity d)); [|apply grid_0].
  simpl. destruct (common_denominator_divides G _ _ Ed) as [m ->].
  apply grid_of_denominator.
Qed.

Lemma flow_inv_initial G s : flow_inv G s (build_residual_network G) 0.
Proof.
  split.
  - apply initial_residual_grid.
  - apply initial_residual_out.
  - intros x _. apply initial_residual_nonneg.
  - unfold spare_out. rewrite initial_spare_out. ring.
  - discriminate.
Qed.

(** ** One augmentation *)

Lemma spare_out_nonneg G s R f : flow_inv G s R f → (0 <= spare_out G s R)%Q.
Proof.
  intros Hinv. apply Qsum_nonneg, Forall_forall. intros q Hq.
  apply list_elem_of_fmap in Hq as (x & -> & Hx). by apply (inv_in _ _ _ _ Hinv).
Qed.

Lemma flow_inv_step G s t R f p :
  flow_inv G s R f → s ≠ t → augmenting_path R s t = Some p →
  ∃ b, bottleneck R p = Some b ∧ (0 < b)%Q ∧
       (1 <= b * inject_Z (Zpos (common_denominator G)))%Q ∧
       (spare_out G s (augment b R p) == spare_out G s R - b)%Q ∧
       flow_inv G s (augment b R p) (f + b).
Proof.
  intros Hinv Hst Hp.
  apply augmenting_path_sound in Hp as [Hp [p' ->]].
  assert (t ≠ s) as Hts by congruence.
  destruct (rpath_bottleneck _ _ _ _ Hp Hts) as [b Hb].
  destruct (rpath_first_hop _ _ _ _ Hp Hts) as [x1 Hx1].
  pose proof (bottleneck_positive _ _ _ _ Hp Hb) as Hpos.
  pose proof (bottleneck_first_hop _ _ _ _ _ Hp Hb Hx1) as Hle.
  assert (grid (common_denominator G) b) as Hgrid.
  { destruct (bottleneck_is_residual _ _ _ Hb) as (u & v & ->).
    apply (inv_grid _ _ _ _ Hinv). }
  assert (x1 ∈ out_nodes G s) as Hin.
  { destruct (decide (x1 ∈ out_nodes G s)) as [|Hn]; [done|].
    apply (inv_out _ _ _ _ Hinv) in Hn. lra. }
  assert (res (augment b R (t :: p')) s x1 = (res R s x1 - b)%Q) as H1.
  { rewrite (res_augment_source _ _ _ _ _ Hp). by rewrite decide_True. }
  assert (∀ x, x ≠ x1 → res (augment b R (t :: p')) s x = res R s x) as Hne.
  { intros x Hx. rewrite (res_augment_source _ _ _ _ _ Hp).
    rewrite decide_False; [done|]. rewrite Hx1. congruence. }
  assert (spare_out G s (augment b R (t :: p')) == spare_out G s R - b)%Q as Hsp.
  { unfold spare_out. apply (Qsum_map_lower _ _ _ x1); auto.
    apply NoDup_out_nodes. }
  exists b. split; [done|]. split; [done|].
  split; [by apply grid_positive|]. split; [done|].
  split.
  - by apply grid_augment; [|apply (inv_grid _ _ _ _ Hinv)].
  - intros x Hx. rewrite Hne by (intros ->; contradiction).
    by apply (inv_out _ _ _ _ Hinv).
  - intros x Hx. destruct (decide (x = x1)) as [->|Hxx].
    + rewrite H1. lra.
    + rewrite Hne by done. by apply (inv_in _ _ _ _ Hinv).
  - rewrite Hsp, (inv_value _ _ _ _ Hinv). ring.
  - pose proof (inv_nonneg _ _ _ _ Hinv). lra.
Qed.

(** ** The value of the loop *)

Lemma edmonds_karp_bounds G s t fuel : ∀ R f,
  flow_inv G s R f → s ≠ t →
  (0 <= edmonds_karp fuel R s t f <= Qsum (usable_out_capacities G s))%Q.
Proof.
  assert (∀ R f, flow_inv G s R f →
                 (0 <= f <= Qsum (usable_out_capacities G s))%Q) as Hnow.
  { intros R f Hinv. pose proof (spare_out_nonneg _ _ _ _ Hinv).
    pose proof (inv_value _ _ _ _ Hinv). pose proof (inv_nonneg _ _ _ _ Hinv).
    lra. }
  induction fuel as [|n IH]; intros R f Hinv Hst; simpl; [by eapply Hnow|].
  destruct (augmenting_path R s t) as [p|] eqn:Ep; [|by eapply Hnow].
  destruct (flow_inv_step _ _ _ _ _ _ Hinv Hst Ep) as (b & -> & _ & _ & _ & Hinv').
  by apply IH.
Qed.

(** With a bound above [D * spare] the bounded loop is the loop. *)
Lemma edmonds_karp_runs G s t fuel : ∀ R f,
  flow_inv G s R f → s ≠ t →
  (inject_Z (Zpos (common_denominator G)) * spare_out G s R
     < inject_Z (Z.of_nat fuel))%Q →
  ∃ R', augmenting_loop s t R f R' (edmonds_karp fuel R s t f).
Proof.
  induction fuel as [|n IH]; intros R f Hinv Hst Hfuel.
  - exfalso. pose proof (spare_out_nonneg _ _ _ _ Hinv) as Hsp.
    assert (0 <= inject_Z (Z.pos (common_denominator G)) * spare_out G s R)%Q.
    { apply Qmult_le_0_compat; [discriminate|done]. }
    change (inject_Z (Z.of_nat 0)) with 0%Q in Hfuel. lra.
  - simpl. destruct (augmenting_path R s t) as [p|] eqn:Ep;
      [|exists R; by apply loop_exit].
    destruct (flow_inv_step _ _ _ _ _ _ Hinv Hst Ep)
      as (b & Hb & _ & Hone & Hsp & Hinv').
    rewrite Hb.
    destruct (IH (augment b R p) (f + b)%Q) as [R' HR']; [done|done| |];
      [|exists R'; by eapply loop_iter].
    rewrite Hsp. rewrite Nat2Z.inj_succ in Hfuel. unfold Z.succ in Hfuel.
    rewrite inject_Z_plus in Hfuel. change (inject_Z 1) with 1%Q in Hfuel.
    lra.
Qed.

Lemma augmentation_bound_enough G s :
  (inject_Z (Zpos (common_denominator G))
     * spare_out G s (build_residual_network G)
   < inject_Z (Z.of_nat (augmentation_bound G s)))%Q.
Proof.
  unfold spare_out, augmentation_bound. rewrite initial_spare_out.
  set (X := (inject_Z (Z.pos (common_denominator G))
             * Qsum (usable_out_capacities G s))%Q).
  assert (0 <= X)%Q as HX.
  { apply Qmult_le_0_compat; [discriminate|].
    rewrite <- initial_spare_out.
    apply (spare_out_nonneg G s _ 0), flow_inv_initial. }
  assert (0 <= Qfloor X) as Hfl.
  { change 0 with (Qfloor 0). by apply Qfloor_resp_le. }
  rewrite Nat2Z.inj_succ, Z2Nat.id by done.
  apply Qlt_floor.
Qed.

(** ** No walk, no flow *)

Lemma rpath_walk G s p :
  rpath (build_residual_network G) s p → ∀ v p', p = v :: p' → walk G s v.
Proof.
  induction 1 as [|u v p Hp IH Huv Hv]; intros w p' [= <- <-].
  - apply walk_refl.
  - eapply walk_step; [by eapply IH|]. by apply initial_residual_edge.
Qed.

Lemma edmonds_karp_no_walk G s t fuel :
  ¬ walk G s t → edmonds_karp fuel (build_residual_network G) s t 0 = 0%Q.
Proof.
  intros Hw. destruct fuel as [|n]; [done|]. simpl.
  destruct (augmenting_path (build_residual_network G) s t) as [p|] eqn:Ep;
    [|done].
  exfalso. apply Hw.
  apply augmenting_path_sound in Ep as [Hp [p' ->]].
  by eapply rpath_walk.
Qed.

(** ** The library call and the service method *)

Lemma maximum_flow_value_ok G s t :
  s ∈ nodes G → t ∈ nodes G → s ≠ t →
  maximum_flow_value G s t =
  Ok (edmonds_karp (augmentation_bound G s) (build_residual_network G) s t 0).
Proof.
  intros Hs Ht Hst. unfold maximum_flow_value.
  apply has_node_true in Hs, Ht. rewrite Hs, Ht. simpl.
  by rewrite bool_decide_eq_false_2.
Qed.

Lemma omap_cons {A B : Type} (f : A → option B) (x : A) (l : list A) :
  omap f (x :: l) =
  match f x with
  | Some y => y :: omap f l
  | None => omap f l
  end.
Proof. reflexivity. Qed.

Lemma usable_le_out_capacity G s :
  (∀ v d, edges G !! (s, v) = Some d → (0 <= e_capacity d)%Q) →
  (Qsum (usable_out_capacities G s) <= out_capacity G s)%Q.
Proof.
  intros Hpos. unfold usable_out_capacities, out_capacity, edge_list.
  assert (∀ k d, (k, d) ∈ map_to_list (edges G) → edges G !! k = Some d) as H.
  { intros k d. apply elem_of_map_to_list. }
  induction (map_to_list (edges G)) as [|[[a b] d] l IH]; [discriminate|].
  assert (IH' := IH (fun k d Hin => H k d (list_elem_of_further _ _ _ Hin))).
  rewrite !omap_cons.
  destruct (bool_decide (a = s)) eqn:Ea; cbn [andb]; [|exact IH'].
  apply bool_decide_eq_true in Ea as ->.
  assert (0 <= e_capacity d)%Q as Hd.
  { apply (Hpos b). apply H. by left. }
  destruct (bool_decide (s ≠ b) && Qlt_bool 0 (e_capacity d));
    rewrite ?Qsum_cons; lra.
Qed.


(** * Completeness of the breadth-first search *)

Lemma successors_complete R u v : (0 < res R u v)%Q → v ∈ successors R u.
Proof.
  unfold res, successors. intros H.
  destruct (R !! (u, v)) as [r|] eqn:E; simpl in H;
    [|by apply Qlt_irrefl in H].
  apply list_elem_of_omap. exists ((u, v), r). split.
  - by apply elem_of_map_to_list.
  - rewrite bool_decide_eq_true_2 by done.
    apply Qlt_bool_iff in H. by rewrite H.
Qed.

Lemma successors_target R u v : v ∈ successors R u → v ∈ targets R.
Proof.
  unfold successors, targets. rewrite list_elem_of_omap.
  intros ([[a b] r] & Hin & Hf).
  destruct (bool_decide (a = u) && Qlt_bool 0 r); [|discriminate].
  injection Hf as <-.
  apply elem_of_list_to_set, list_elem_of_fmap. exists (a, b). split; [done|].
  apply list_elem_of_fmap. by exists ((a, b), r).
Qed.

Lemma size_list_to_set_le (l : list Z) :
  (size (list_to_set l : gset Z) ≤ length l)%nat.
Proof.
  induction l as [|x l IH].
  - change (list_to_set [] : gset Z) with (∅ : gset Z). by rewrite size_empty.
  - change (list_to_set (x :: l) : gset Z) with ({[x]} ∪ list_to_set l : gset Z).
    rewrite size_union_alt, size_singleton. simpl.
    assert (list_to_set l ∖ {[x]} ⊆ (list_to_set l : gset Z)) as Hsub.
    { intros y Hy. apply elem_of_difference in Hy. tauto. }
    apply subseteq_size in Hsub. lia.
Qed.

Lemma size_targets R : (size (targets R) ≤ size R)%nat.
Proof.
  unfold targets. etrans; [apply size_list_to_set_le|].
  by rewrite !length_fmap, length_map_to_list.
Qed.

Lemma extend_spec p cands : ∀ visited acc acc' visited',
  extend p cands visited acc = (acc', visited') →
  visited ⊆ visited' ∧
  (∀ v, v ∈ cands → v ∈ visited') ∧
  (∀ q, q ∈ acc' →
     q ∈ acc ∨ ∃ v, q = v :: p ∧ v ∈ cands ∧ v ∈ visited' ∧ v ∉ visited) ∧
  (∀ q, q ∈ acc → q ∈ acc') ∧
  (∀ v, v ∈ visited' → v ∉ visited → head_of acc' v).
Proof.
  induction cands as [|c cs IH]; intros visited acc acc' visited'; simpl.
  - intros [= <- <-]. split; [done|]. split; [by inversion 1|].
    split; [auto|]. split; [auto|]. intros v ? ?. contradiction.
  - case_bool_decide as Hc; intros E; apply IH in E as (Ha & Hb & Hc' & Hd & He).
    + split; [done|]. split.
      { intros v [->|Hv]%elem_of_cons; [by apply Ha|by apply Hb]. }
      split.
      { intros q Hq. destruct (Hc' q Hq) as [?|(v & ? & ? & ? & ?)]; [by left|].
        right. exists v. repeat split; auto. by right. }
      split; [done|done].
    + split; [etrans; [apply union_subseteq_r|exact Ha]|]. split.
      { intros v [->|Hv]%elem_of_cons; [|by apply Hb].
        apply Ha, elem_of_union. left. by apply elem_of_singleton. }
      split.
      { intros q Hq. destruct (Hc' q Hq) as [Hq'|(v & ? & ? & ? & Hv)].
        - apply elem_of_app in Hq' as [?|Hq']; [by left|].
          apply list_elem_of_singleton in Hq' as ->. right. exists c.
          split; [done|]. split; [by left|]. split; [|done].
          apply Ha, elem_of_union. left. by apply elem_of_singleton.
        - right. exists v. split; [done|]. split; [by right|].
          split; [done|]. intros Hx. apply Hv, elem_of_union. by right. }
      split.
      { intros q Hq. apply Hd, elem_of_app. by left. }
      intros v Hv Hnv. destruct (decide (v = c)) as [->|Hvc].
      * exists p. apply Hd, elem_of_app. right. by apply list_elem_of_singleton.
      * apply He; [done|].
        intros [Hx%elem_of_singleton|Hx]%elem_of_union; contradiction.
Qed.

Lemma next_layer_spec R frontier : ∀ visited acc acc' visited',
  next_layer R frontier visited acc = (acc', visited') →
  visited ⊆ visited' ∧
  (∀ u p v, (u :: p) ∈ frontier → v ∈ successors R u → v ∈ visited') ∧
  (∀ q, q ∈ acc' →
     q ∈ acc ∨ ∃ v p, q = v :: p ∧ v ∈ targets R ∧ v ∈ visited' ∧ v ∉ visited) ∧
  (∀ q, q ∈ acc → q ∈ acc') ∧
  (∀ v, v ∈ visited' → v ∉ visited → head_of acc' v).
Proof.
  induction frontier as [|q qs IH]; intros visited acc acc' visited'; simpl.
  - intros [= <- <-]. split; [done|]. split; [by inversion 1|].
    split; [auto|]. split; [auto|]. intros v ? ?. contradiction.
  - destruct q as [|u p].
    { intros E. apply IH in E as (Ha & Hb & Hc & Hd & He).
      split; [done|]. split; [|done].
      intros u p v [?|Hin]%elem_of_cons; [done|]. by eapply Hb. }
    destruct (extend (u :: p) (successors R u) visited acc) as [acc1 vis1] eqn:E1.
    apply extend_spec in E1 as (Ha1 & Hb1 & Hc1 & Hd1 & He1).
    intros E. apply IH in E as (Ha & Hb & Hc & Hd & He).
    split; [by etrans|]. split.
    { intros u' p' v [[= -> ->]|Hin]%elem_of_cons Hv.
      - by apply Ha, Hb1.
      - by eapply Hb. }
    split.
    { intros q Hq. destruct (Hc q Hq) as [Hq1|(v & p' & -> & ? & ? & Hv)].
      - destruct (Hc1 q Hq1) as [?|(v & -> & Hv & ? & ?)]; [by left|].
        right. exists v, (u :: p). split; [done|].
        split; [by eapply successors_target|]. split; [by apply Ha|done].
      - right. exists v, p'. split; [done|]. split; [done|]. split; [done|].
        intros Hx. by apply Hv, Ha1. }
    split; [auto|].
    intros v Hv Hnv. destruct (decide (v ∈ vis1)) as [Hv1|Hv1].
    + destruct (He1 v Hv1 Hnv) as [p' Hp']. exists p'. by apply Hd.
    + by apply He.
Qed.

Lemma bfs_inv_closed R s t visited :
  bfs_inv R s t [] visited → ¬ reach R s t.
Proof.
  intros [Hs Hcl Ht] Hreach.
  assert (∀ v, ¬ head_of [] v) as Hno.
  { intros v [p Hp]. by inversion Hp. }
  assert (∀ x, reach R s x → x ∈ visited) as Hall.
  { induction 1 as [|u v _ IH Huv]; [done|].
    destruct (Hcl u IH) as [Hh|Hc]; [by apply Hno in Hh|by apply Hc]. }
  by apply (Hno t), Ht, Hall.
Qed.

Lemma find_ends_at_None t frontier :
  List.find (ends_at t) frontier = None → ¬ head_of frontier t.
Proof.
  intros Hf [p Hp]. apply list_elem_of_In in Hp.
  apply (find_none _ _ Hf) in Hp. simpl in Hp.
  by rewrite bool_decide_eq_true_2 in Hp.
Qed.

Lemma bfs_complete R s t fuel : ∀ frontier visited,
  bfs_inv R s t frontier visited →
  (size (targets R ∖ visited) < fuel)%nat →
  bfs fuel R t frontier visited = None → ¬ reach R s t.
Proof.
  induction fuel as [|n IH]; intros frontier visited Hinv Hsize; [lia|].
  simpl. destruct (List.find (ends_at t) frontier) eqn:Ef; [done|].
  apply find_ends_at_None in Ef.
  destruct frontier as [|q qs]; [intros _; by eapply bfs_inv_closed|].
  destruct (next_layer R (q :: qs) visited []) as [fr vis] eqn:E.
  apply next_layer_spec in E as (Ha & Hb & Hc & _ & He).
  destruct Hinv as [Hs Hcl Ht].
  assert (bfs_inv R s t fr vis) as Hinv'.
  { split.
    - by apply Ha.
    - intros u Hu. destruct (decide (u ∈ visited)) as [Huv|Huv];
        [|left; by apply He].
      right. intros v Hv. destruct (Hcl u Huv) as [[p Hp]|Hc'].
      + eapply Hb; [done|]. by apply successors_complete.
      + by apply Ha, Hc'.
    - intros Htv. apply He; [done|]. intros Htv'. by apply Ef, Ht. }
  destruct fr as [|q' fr'].
  { intros _. by eapply bfs_inv_closed. }
  apply IH; [done|].
  destruct (Hc q') as [Hq|(v & p & _ & Hvt & Hv & Hnv)];
    [by left|by inversion Hq|].
  assert (targets R ∖ vis ⊂ targets R ∖ visited) as Hsub.
  { split.
    - intros y [Hy1 Hy2]%elem_of_difference. apply elem_of_difference.
      split; [done|]. intros Hy. by apply Hy2, Ha.
    - intros Hsup. assert (v ∈ targets R ∖ vis) as Hx.
      { apply Hsup, elem_of_difference. by split. }
      apply elem_of_difference in Hx as [_ Hx]. contradiction. }
  apply subset_size in Hsub. lia.
Qed.

Lemma rpath_reach R s p : rpath R s p → ∀ v p', p = v :: p' → reach R s v.
Proof.
  induction 1 as [|u v p Hp IH Huv Hv]; intros w p' [= <- <-].
  - apply reach_refl.
  - eapply reach_step; [by eapply IH|done].
Qed.

(** The search finds a path exactly when the sink can be reached over arcs
    with spare capacity. *)
Lemma augmenting_path_None R s t :
  augmenting_path R s t = None ↔ ¬ reach R s t.
Proof.
  split.
  - unfold augmenting_path. apply bfs_complete.
    + split.
      * by apply elem_of_singleton.
      * intros u ->%elem_of_singleton. left. exists []. by left.
      * intros ->%elem_of_singleton. exists []. by left.
    + pose proof (size_targets R).
      assert (targets R ∖ {[s]} ⊆ targets R) as Hsub.
      { intros y Hy. apply elem_of_difference in Hy. tauto. }
      apply subseteq_size in Hsub. lia.
  - intros Hn. destruct (augmenting_path R s t) as [p|] eqn:E; [|done].
    exfalso. apply Hn. apply augmenting_path_sound in E as [Hp [p' ->]].
    by eapply rpath_reach.
Qed.

(** When the augmenting loop stops, the sink is out of reach. *)
Lemma augmenting_loop_exit s t R f R' f' :
  augmenting_loop s t R f R' f' → ¬ reach R' s t.
Proof.
  induction 1 as [R f Hnone|]; [by apply augmenting_path_None|done].
Qed.

(** * The claims on the flow solver *)

Lemma usable_out_capacity_nonneg G s :
  (0 <= Qsum (usable_out_capacities G s))%Q.
Proof.
  rewrite <- initial_spare_out.
  apply (spare_out_nonneg G s _ 0), flow_inv_initial.
Qed.

(** C7, as the specification words it, fails: the graph built from a lane of
    capacity 1000 and a lane of capacity -5000 leaving node 1 carries a flow
    of 1000 from node 1 to node 2, above the sum -4000 of the capacities of
    the edges leaving node 1. *)
Lemma flow_exceeds_signed_out_capacity :
  generate_network_graph "baseline" "Tampa Bay" mixed_sign_lanes
    = Ok mixed_sign_graph ∧
  1 ∈ nodes mixed_sign_graph ∧ 2 ∈ nodes mixed_sign_graph ∧
  (out_capacity mixed_sign_graph 1 == -4000)%Q ∧
  ∃ f, calculate_max_flow mixed_sign_graph 1 2 = Ok f ∧
       ¬ (0 <= f ∧ f <= out_capacity mixed_sign_graph 1)%Q.
Proof.
  split; [reflexivity|].
  split; [apply list_elem_of_In; simpl; tauto|].
  split; [apply list_elem_of_In; simpl; tauto|].
  split; [reflexivity|].
  exists 1000%Q. split; [by vm_compute|].
  intros [_ H]. revert H. apply Qlt_not_le. reflexivity.
Qed.

(** C7 (amended): for a source and a sink that are nodes of the graph,
    [calculate_max_flow] returns a value that is non-negative and at most
    the sum of the positive capacities of the edges leaving the source that
    are not self loops, hence at most the sum of the capacities of all
    edges leaving the source when none of these is negative; the value is
    exactly 0 when the graph has no directed walk from the source to the
    sink; and for distinct endpoints it is the value at which the
    augmenting loop stops, the sink being then out of reach in the residual
    network. *)
Theorem max_flow_bounds G s t :
  s ∈ nodes G → t ∈ nodes G →
  ∃ f, calculate_max_flow G s t = Ok f ∧
       (0 <= f)%Q ∧
       (f <= Qsum (usable_out_capacities G s))%Q ∧
       ((∀ v d, edges G !! (s, v) = Some d → (0 <= e_capacity d)%Q) →
        (f <= out_capacity G s)%Q) ∧
       (¬ walk G s t → f = 0%Q) ∧
       (s ≠ t → ∃ R', augmenting_loop s t (build_residual_network G) 0 R' f
                      ∧ ¬ reach R' s t).
Proof.
  intros Hs Ht.
  pose proof (usable_out_capacity_nonneg G s) as Hu.
  destruct (decide (s = t)) as [<-|Hst].
  - exists 0%Q.
    split; [eapply calculate_max_flow_caught;
            by apply maximum_flow_value_same_node|].
    split; [discriminate|]. split; [done|].
    split; [intros H; apply usable_le_out_capacity in H; lra|].
    split; [done|]. intros Hne. by destruct Hne.
  - exists (edmonds_karp (augmentation_bound G s) (build_residual_network G) s t 0).
    split.
    { unfold calculate_max_flow. apply has_node_true in Hs as Hs', Ht as Ht'.
      rewrite Hs', Ht'. simpl. by rewrite maximum_flow_value_ok. }
    pose proof (edmonds_karp_bounds G s t (augmentation_bound G s) _ _
                  (flow_inv_initial G s) Hst) as [Hlo Hhi].
    split; [done|]. split; [done|].
    split; [intros H; apply usable_le_out_capacity in H; lra|].
    split; [apply edmonds_karp_no_walk|].
    intros _.
    destruct (edmonds_karp_runs G s t (augmentation_bound G s) _ _
                (flow_inv_initial G s) Hst (augmentation_bound_enough G s))
      as [R' HR'].
    exists R'. split; [done|]. by eapply augmenting_loop_exit.
Qed.

Lemma max_flow_bounds_witness :
  1 ∈ nodes parallel_lanes_graph ∧ 2 ∈ nodes parallel_lanes_graph ∧
  ∃ f, calculate_max_flow parallel_lanes_graph 1 2 = Ok f ∧
       (0 <= f)%Q ∧
       (f <= Qsum (usable_out_capacities parallel_lanes_graph 1))%Q ∧
       ((∀ v d, edges parallel_lanes_graph !! (1, v) = Some d →
                (0 <= e_capacity d)%Q) →
        (f <= out_capacity parallel_lanes_graph 1)%Q) ∧
       (¬ walk parallel_lanes_graph 1 2 → f = 0%Q) ∧
       (1 ≠ 2 → ∃ R', augmenting_loop 1 2
                        (build_residual_network parallel_lanes_graph) 0 R' f
                      ∧ ¬ reach R' 1 2).
Proof.
  assert (H1 : 1 ∈ nodes parallel_lanes_graph)
    by (apply list_elem_of_In; simpl; tauto).
  assert (H2 : 2 ∈ nodes parallel_lanes_graph)
    by (apply list_elem_of_In; simpl; tauto).
  split; [exact H1|]. split; [exact H2|].
  exact (max_flow_bounds parallel_lanes_graph 1 2 H1 H2).
Defined.

(** The concrete case of the specification: two parallel lanes of capacities
    3600 and 1800 give one edge of capacity 5400 and a flow of 5400. *)
Example parallel_lanes_flow :
  generate_network_graph "baseline" "Tampa Bay" parallel_lanes
    = Ok parallel_lanes_graph ∧
  (e_capacity <$> edges parallel_lanes_graph !! (1, 2)) = Some 5400%Q ∧
  calculate_max_flow parallel_lanes_graph 1 2 = Ok 5400%Q.
Proof. repeat split; by vm_compute. Qed.

(** The concrete contraflow case: a southbound major highway in Tampa Bay
    is inserted reversed. *)
Example southbound_highway_reversed :
  segment_edge "contraflow" "Tampa Bay" southbound_highway = Ok (Some (2, 1)) ∧
  segment_edge "baseline" "Tampa Bay" southbound_highway = Ok (Some (1, 2)).
Proof. split; reflexivity. Qed.

(** * Further properties of the graph builder *)

(** ** Segments without endpoints *)

Lemma add_segment_no_endpoints scenario region G seg :
  has_endpoints seg = false → add_segment scenario region G seg = Ok G.
Proof.
  unfold has_endpoints, add_segment.
  by destruct (source seg), (target seg).
Qed.

(** X1: segments that lack a source or a target node are skipped: the
    builder returns (or raises) exactly what it does on the input with
    those segments removed. *)
Theorem segments_without_endpoints_are_skipped scenario region segments :
  generate_network_graph scenario region segments =
  generate_network_graph scenario region (List.filter has_endpoints segments).
Proof.
  unfold generate_network_graph. generalize empty_graph.
  induction segments as [|seg rest IH]; intros G; [done|]. simpl.
  destruct (has_endpoints seg) eqn:E; simpl.
  - destruct (add_segment scenario region G seg); simpl; [apply IH|done].
  - rewrite add_segment_no_endpoints by done. simpl. apply IH.
Qed.

(** ** The reversal decision *)

Lemma contains_marker_nonempty label :
  contains "MAJOR HWY" (upper label) = true → label ≠ "".
Proof. by intros H ->. Qed.

(** The contraflow block on a major highway, in terms of its heading. *)
Lemma orient_major region seg u v :
  is_major seg = true →
  orient "contraflow" region seg u v =
  h ← heading (geom seg);
  match h with
  | None => Ok (u, v)
  | Some (dx, dy) =>
      if should_reverse region (Qlt_bool dy 0) (Qlt_bool dx 0) (Qlt_bool 0 dx)
      then Ok (v, u) else Ok (u, v)
  end.
Proof.
  unfold is_major, orient, heading. simpl.
  destruct (road_name seg) as [label|]; [|done].
  intros Hm. destruct label as [|c label]; [done|]. rewrite Hm.
  destruct (line_coords (geom seg)) as [[cs|]|e]; simpl; [|done|done].
  destruct (first_coord cs) as [p|e]; simpl; [|done].
  destruct (last_coord cs) as [q|e]; simpl; [|done]. done.
Qed.

Lemma orient_not_major scenario region seg u v :
  is_major seg = false → orient scenario region seg u v = Ok (u, v).
Proof.
  unfold is_major, orient.
  destruct (String.eqb scenario "contraflow"); [|done].
  destruct (road_name seg) as [[|c label]|]; [done| |done].
  by intros ->.
Qed.

(** X2: a segment whose label lacks the major-highway marker is never
    reversed and never makes the builder raise, whatever the scenario, the
    region and the state of its geometry. *)
Theorem unmarked_segment_never_reversed scenario region seg u v :
  is_major seg = false →
  source seg = Some u → target seg = Some v →
  orient scenario region seg u v = Ok (u, v) ∧
  segment_edge scenario region seg = Ok (Some (u, v)).
Proof.
  intros Hm Hu Hv. pose proof (orient_not_major scenario region seg u v Hm) as Ho.
  split; [done|]. unfold segment_edge. by rewrite Hu, Hv, Ho.
Qed.

Lemma unmarked_segment_never_reversed_witness :
  is_major local_road = false ∧
  source local_road = Some 1 ∧ target local_road = Some 2 ∧
  orient "contraflow" "Tampa Bay" local_road 1 2 = Ok (1, 2) ∧
  segment_edge "contraflow" "Tampa Bay" local_road = Ok (Some (1, 2)).
Proof.
  split; [reflexivity|]. split; [reflexivity|]. split; [reflexivity|].
  apply (unmarked_segment_never_reversed "contraflow" "Tampa Bay" local_road 1 2);
    reflexivity.
Defined.

Lemma should_reverse_southbound region wb eb :
  should_reverse region true wb eb = true.
Proof.
  unfold should_reverse. simpl.
  repeat match goal with |- context [if ?c then _ else _] => destruct c end;
    reflexivity.
Qed.

Lemma should_reverse_no_heading region :
  should_reverse region false false false = false.
Proof.
  unfold should_reverse. simpl.
  repeat match goal with |- context [if ?c then _ else _] => destruct c end;
    reflexivity.
Qed.

Lemma should_reverse_east_west region :
  should_reverse region false true false
  && should_reverse region false false true = false.
Proof.
  unfold should_reverse. simpl.
  repeat match goal with |- context [if ?c then _ else _] => destruct c end;
    reflexivity.
Qed.

(** X3: under contraflow a major highway whose line heads south (its last
    coordinate lies south of its first) is reversed in every region, listed
    or not. *)
Theorem southbound_major_always_reversed region seg u v dx dy :
  is_major seg = true →
  heading (geom seg) = Ok (Some (dx, dy)) → (dy < 0)%Q →
  orient "contraflow" region seg u v = Ok (v, u).
Proof.
  intros Hm Hh Hdy. rewrite orient_major, Hh by done. simpl.
  apply Qlt_bool_iff in Hdy. by rewrite Hdy, should_reverse_southbound.
Qed.

Lemma southbound_major_always_reversed_witness :
  is_major southbound_highway = true ∧
  heading (geom southbound_highway) = Ok (Some ((-82 - -82)%Q, (27 - 28)%Q)) ∧
  (27 - 28 < 0)%Q ∧
  orient "contraflow" "Atlantis" southbound_highway 1 2 = Ok (2, 1).
Proof.
  split; [reflexivity|]. split; [reflexivity|]. split; [reflexivity|].
  apply (southbound_major_always_reversed "Atlantis" southbound_highway 1 2
           (-82 - -82)%Q (27 - 28)%Q); reflexivity.
Defined.

(** X4: a major highway whose line heads neither south, west nor east (no
    change in x, no decrease in y, a single point included) keeps its
    orientation under contraflow in every region. *)
Theorem due_north_never_reversed region seg u v dx dy :
  is_major seg = true →
  heading (geom seg) = Ok (Some (dx, dy)) → (dx == 0)%Q → (0 <= dy)%Q →
  orient "contraflow" region seg u v = Ok (u, v).
Proof.
  intros Hm Hh Hdx Hdy. rewrite orient_major, Hh by done. simpl.
  assert (Qlt_bool dy 0 = false) as -> by (apply Qlt_bool_false_iff; lra).
  assert (Qlt_bool dx 0 = false) as -> by (apply Qlt_bool_false_iff; lra).
  assert (Qlt_bool 0 dx = false) as -> by (apply Qlt_bool_false_iff; lra).
  by rewrite should_reverse_no_heading.
Qed.

Lemma due_north_never_reversed_witness :
  is_major northbound_highway = true ∧
  heading (geom northbound_highway) = Ok (Some ((-82 - -82)%Q, (28 - 27)%Q)) ∧
  (-82 - -82 == 0)%Q ∧ (0 <= 28 - 27)%Q ∧
  orient "contraflow" "Miami" northbound_highway 1 2 = Ok (1, 2).
Proof.
  split; [reflexivity|]. split; [reflexivity|]. split; [reflexivity|].
  split; [discriminate|].
  apply (due_north_never_reversed "Miami" northbound_highway 1 2
           (-82 - -82)%Q (28 - 27)%Q); [reflexivity|reflexivity|reflexivity|].
  discriminate.
Defined.

(** X5: no region reverses both directions of an east-west corridor: of a
    westbound and an eastbound major highway, neither heading south, at most
    one is reversed. *)
Theorem east_and_west_never_both_reversed region west east u v u' v'
    dxw dyw dxe dye :
  is_major west = true → is_major east = true →
  heading (geom west) = Ok (Some (dxw, dyw)) → (dxw < 0)%Q → (0 <= dyw)%Q →
  heading (geom east) = Ok (Some (dxe, dye)) → (0 < dxe)%Q → (0 <= dye)%Q →
  u ≠ v → u' ≠ v' →
  ¬ (orient "contraflow" region west u v = Ok (v, u) ∧
     orient "contraflow" region east u' v' = Ok (v', u')).
Proof.
  intros Hmw Hme Hw Hdxw Hdyw He Hdxe Hdye Huv Huv'.
  rewrite !orient_major, Hw, He by done. simpl.
  assert (Qlt_bool dyw 0 = false) as -> by (apply Qlt_bool_false_iff; lra).
  assert (Qlt_bool dye 0 = false) as -> by (apply Qlt_bool_false_iff; lra).
  assert (Qlt_bool dxw 0 = true) as -> by (by apply Qlt_bool_iff).
  assert (Qlt_bool 0 dxw = false) as -> by (apply Qlt_bool_false_iff; lra).
  assert (Qlt_bool dxe 0 = false) as -> by (apply Qlt_bool_false_iff; lra).
  assert (Qlt_bool 0 dxe = true) as -> by (by apply Qlt_bool_iff).
  pose proof (should_reverse_east_west region) as H.
  destruct (should_reverse region false true false),
           (should_reverse region false false true);
    try discriminate; intros [[=] [=]]; congruence.
Qed.

Lemma east_and_west_never_both_reversed_witness :
  is_major westbound_highway = true ∧ is_major eastbound_highway = true ∧
  heading (geom westbound_highway) = Ok (Some ((-82 - -81)%Q, (28 - 28)%Q)) ∧
  (-82 - -81 < 0)%Q ∧ (0 <= 28 - 28)%Q ∧
  heading (geom eastbound_highway) = Ok (Some ((-81 - -82)%Q, (28 - 28)%Q)) ∧
  (0 < -81 - -82)%Q ∧ (0 <= 28 - 28)%Q ∧
  3 ≠ 4 ∧ 5 ≠ 6 ∧
  ¬ (orient "contraflow" "Tampa Bay" westbound_highway 3 4 = Ok (4, 3) ∧
     orient "contraflow" "Tampa Bay" eastbound_highway 5 6 = Ok (6, 5)).
Proof.
  repeat (split; [first [reflexivity | discriminate]|]).
  apply (east_and_west_never_both_reversed "Tampa Bay" westbound_highway
           eastbound_highway 3 4 5 6 (-82 - -81)%Q (28 - 28)%Q
           (-81 - -82)%Q (28 - 28)%Q);
    first [reflexivity | discriminate].
Defined.

(** ** Region names *)

Lemma upper_ascii_idemp c : upper_ascii (upper_ascii c) = upper_ascii c.
Proof. destruct c as [[] [] [] [] [] [] [] []]; reflexivity. Qed.

Lemma upper_idemp s : upper (upper s) = upper s.
Proof.
  induction s as [|c s IH]; [done|]. simpl. by rewrite upper_ascii_idemp, IH.
Qed.

Lemma should_reverse_upper r1 r2 sb wb eb :
  upper r1 = upper r2 → should_reverse r1 sb wb eb = should_reverse r2 sb wb eb.
Proof. intros H. unfold should_reverse. by rewrite H. Qed.

Lemma orient_upper scenario r1 r2 seg u v :
  upper r1 = upper r2 →
  orient scenario r1 seg u v = orient scenario r2 seg u v.
Proof.
  intros H. unfold orient.
  destruct (String.eqb scenario "contraflow"); [|done].
  destruct (road_name seg) as [[|c label]|]; [done| |done].
  destruct (contains "MAJOR HWY" (upper (String c label))); [|done].
  destruct (line_coords (geom seg)) as [[cs|]|e]; simpl; [|done|done].
  destruct (first_coord cs) as [p|e]; simpl; [|done].
  destruct (last_coord cs) as [q|e]; simpl; [|done].
  by rewrite (should_reverse_upper r1 r2).
Qed.

Lemma add_segments_upper scenario r1 r2 segments :
  upper r1 = upper r2 → ∀ G,
  add_segments scenario r1 G segments = add_segments scenario r2 G segments.
Proof.
  intros H. induction segments as [|seg rest IH]; intros G; [done|]. simpl.
  assert (add_segment scenario r1 G seg = add_segment scenario r2 G seg) as ->.
  { unfold add_segment. destruct (source seg), (target seg); try done.
    by rewrite (orient_upper scenario r1 r2). }
  destruct (add_segment scenario r2 G seg); simpl; [apply IH|done].
Qed.

(** X6: the region is matched without regard to letter case: two region
    names that agree once upper-cased give the same outcome of the builder
    on every input; in particular a region and its upper-cased form do. *)
Theorem region_match_ignores_case scenario r1 r2 segments :
  upper r1 = upper r2 →
  generate_network_graph scenario r1 segments =
  generate_network_graph scenario r2 segments ∧
  generate_network_graph scenario r1 segments =
  generate_network_graph scenario (upper r1) segments.
Proof.
  intros H. split; [by apply add_segments_upper|].
  apply add_segments_upper. by rewrite upper_idemp.
Qed.

Lemma region_match_ignores_case_witness :
  upper "tampa bay" = upper "Tampa BAY" ∧
  generate_network_graph "contraflow" "tampa bay" [westbound_highway] =
  generate_network_graph "contraflow" "Tampa BAY" [westbound_highway] ∧
  generate_network_graph "contraflow" "tampa bay" [westbound_highway] =
  generate_network_graph "contraflow" (upper "tampa bay") [westbound_highway].
Proof.
  split; [reflexivity|].
  apply (region_match_ignores_case "contraflow" "tampa bay" "Tampa BAY"
           [westbound_highway]).
  reflexivity.
Defined.

(** ** The node listing *)

Lemma elem_of_add_node ns a n : n ∈ add_node ns a ↔ n ∈ ns ∨ n = a.
Proof.
  unfold add_node. case_bool_decide as Ha.
  - split; [by left|]. by intros [?| ->].
  - rewrite elem_of_app, list_elem_of_singleton. tauto.
Qed.

Lemma NoDup_add_node ns a : NoDup ns → NoDup (add_node ns a).
Proof.
  intros Hnd. unfold add_node. case_bool_decide as Ha; [done|].
  apply NoDup_app. split; [done|]. split; [|apply NoDup_singleton].
  intros x Hx ->%list_elem_of_singleton. contradiction.
Qed.

Lemma length_add_node ns a : (length (add_node ns a) ≤ S (length ns))%nat.
Proof.
  unfold add_node. case_bool_decide; [lia|].
  rewrite length_app. simpl. lia.
Qed.

Lemma orient_endpoints scenario region seg u v e :
  orient scenario region seg u v = Ok e → e = (u, v) ∨ e = (v, u).
Proof.
  unfold orient.
  destruct (String.eqb scenario "contraflow"); [|intros [= <-]; by left].
  destruct (road_name seg) as [[|c label]|]; try (intros [= <-]; by left).
  destruct (contains "MAJOR HWY" (upper (String c label)));
    [|intros [= <-]; by left].
  destruct (line_coords (geom seg)) as [[cs|]|e']; simpl;
    [|intros [= <-]; by left|done].
  destruct (first_coord cs) as [p|e']; simpl; [|done].
  destruct (last_coord cs) as [q|e']; simpl; [|done].
  destruct (should_reverse _ _ _ _); intros [= <-]; auto.
Qed.

Lemma segment_edge_endpoints scenario region seg a b :
  segment_edge scenario region seg = Ok (Some (a, b)) →
  ∃ u v, source seg = Some u ∧ target seg = Some v ∧
         ((a, b) = (u, v) ∨ (a, b) = (v, u)).
Proof.
  unfold segment_edge.
  destruct (source seg) as [u|], (target seg) as [v|]; try done.
  destruct (orient scenario region seg u v) as [e|e'] eqn:E; simpl; [|done].
  intros [= ->]. exists u, v. split; [done|]. split; [done|].
  by eapply orient_endpoints.
Qed.

Lemma segment_edge_none scenario region seg :
  segment_edge scenario region seg = Ok None → has_endpoints seg = false.
Proof.
  unfold segment_edge, has_endpoints.
  destruct (source seg) as [u|], (target seg) as [v|]; try done.
  by destruct (orient scenario region seg u v).
Qed.

(** One segment: well-formedness is kept and the node listing grows by the
    endpoints of the segment, if it has both. *)
Lemma add_segment_nodes scenario region G seg G' :
  graph_wf G → add_segment scenario region G seg = Ok G' →
  graph_wf G' ∧
  (length (nodes G') + 2 * size (edges G)
     ≤ length (nodes G) + 2 * size (edges G'))%nat ∧
  (size (edges G') ≤ size (edges G) + (if has_endpoints seg then 1 else 0))%nat ∧
  ∀ n, n ∈ nodes G' ↔
       n ∈ nodes G ∨
       ∃ u v, source seg = Some u ∧ target seg = Some v ∧ (n = u ∨ n = v).
Proof.
  intros [Hnd Hwf]. rewrite add_segment_edge.
  destruct (segment_edge scenario region seg) as [[[a b]|]|e] eqn:E;
    [| |done].
  - destruct (segment_edge_endpoints _ _ _ _ _ E) as (u & v & Hu & Hv & Hab).
    assert (has_endpoints seg = true) as ->
      by (unfold has_endpoints; by rewrite Hu, Hv).
    assert (∀ n, (n = a ∨ n = b) ↔ (n = u ∨ n = v)) as Hends.
    { intros n. destruct Hab as [[= -> ->]|[= -> ->]]; tauto. }
    cbv zeta. unfold has_edge.
    destruct (edges G !! (a, b)) as [d|] eqn:Ed; intros [= <-];
      unfold graph_wf, add_capacity, add_edge; cbn [nodes edges].
    + destruct (Hwf a b) as [Ha Hb]; [by rewrite Ed|].
      assert (∀ k, is_Some (alter (fun d0 =>
                {| e_capacity := (e_capacity d0
                                  + resolve_capacity (capacity seg))%Q;
                   e_cost := e_cost d0 |}) (a, b) (edges G) !! k)
                   ↔ is_Some (edges G !! k)) as Hk.
      { intros k. destruct (decide (k = (a, b))) as [->|Hne].
        - rewrite lookup_alter_eq, Ed. simpl. split; eauto.
        - by rewrite lookup_alter_ne. }
      split; [split; [done|]; intros x y Hxy; by apply Hwf, Hk|].
      split.
      { rewrite <- !(size_dom (D := gset (Z * Z))), dom_alter_L. lia. }
      split.
      { rewrite <- !(size_dom (D := gset (Z * Z))), dom_alter_L. lia. }
      intros n. split; [by left|].
      intros [Hn|(u' & v' & Hu' & Hv' & Hn)]; [done|].
      rewrite Hu in Hu'. rewrite Hv in Hv'.
      injection Hu' as <-. injection Hv' as <-.
      apply Hends in Hn as [->| ->]; done.
    + split.
      { split; [by do 2 apply NoDup_add_node|].
        intros x y Hxy. rewrite !elem_of_add_node.
        destruct (decide ((a, b) = (x, y))) as [[= <- <-]|Hne]; [tauto|].
        rewrite lookup_insert_ne in Hxy by done.
        destruct (Hwf x y Hxy). tauto. }
      split.
      { rewrite map_size_insert_None by done.
        pose proof (length_add_node (add_node (nodes G) a) b).
        pose proof (length_add_node (nodes G) a). lia. }
      split; [rewrite map_size_insert_None by done; lia|].
      intros n. rewrite !elem_of_add_node. split.
      * intros [[Hn|Hn]|Hn]; [by left| |]; right; exists u, v;
          (split; [done|]); (split; [done|]); apply Hends; auto.
      * intros [Hn|(u' & v' & Hu' & Hv' & Hn)]; [tauto|].
        rewrite Hu in Hu'. rewrite Hv in Hv'.
        injection Hu' as <-. injection Hv' as <-.
        apply Hends in Hn. tauto.
  - apply segment_edge_none in E. rewrite E. intros [= <-].
    split; [done|]. split; [lia|]. split; [lia|].
    intros n. split; [by left|]. intros [Hn|(u & v & Hu & Hv & _)]; [done|].
    unfold has_endpoints in E. by rewrite Hu, Hv in E.
Qed.

Lemma add_segments_nodes scenario region segments : ∀ G G',
  graph_wf G → add_segments scenario region G segments = Ok G' →
  graph_wf G' ∧
  (length (nodes G') + 2 * size (edges G)
     ≤ length (nodes G) + 2 * size (edges G'))%nat ∧
  (size (edges G')
     ≤ size (edges G) + length (List.filter has_endpoints segments))%nat ∧
  ∀ n, n ∈ nodes G' ↔
       n ∈ nodes G ∨
       ∃ seg u v, seg ∈ segments ∧ source seg = Some u ∧ target seg = Some v
                  ∧ (n = u ∨ n = v).
Proof.
  induction segments as [|seg rest IH]; intros G G' Hwf; simpl.
  - intros [= <-]. split; [done|]. split; [lia|]. split; [lia|].
    intros n. split; [by left|]. intros [?|(seg & _ & _ & Hin & _)]; [done|].
    by inversion Hin.
  - destruct (add_segment scenario region G seg) as [G1|e] eqn:E1; [|done].
    simpl. intros Hrest.
    destruct (add_segment_nodes _ _ _ _ _ Hwf E1) as (Hwf1 & Hl1 & Hs1 & Hn1).
    destruct (IH _ _ Hwf1 Hrest) as (Hwf' & Hl' & Hs' & Hn').
    split; [done|]. split; [lia|]. split.
    { destruct (has_endpoints seg); simpl; lia. }
    intros n. rewrite Hn', Hn1. split.
    + intros [[Hn|(u & v & Hu & Hv & Hn)]|(s & u & v & Hin & Hu & Hv & Hn)].
      * by left.
      * right. exists seg, u, v. split; [by left|done].
      * right. exists s, u, v. split; [by right|done].
    + intros [Hn|(s & u & v & [->|Hin]%elem_of_cons & Hu & Hv & Hn)].
      * by left; left.
      * left; right. by exists u, v.
      * right. by exists s, u, v.
Qed.

Lemma graph_wf_empty : graph_wf empty_graph.
Proof.
  split; [constructor|]. intros u v [d Hd]. simpl in Hd.
  by rewrite lookup_empty in Hd.
Qed.

(** X7: in the returned graph the node listing has no repetition, holds both
    endpoints of every edge, and consists exactly of the source and target
    nodes of the segments that have both, whatever the scenario made of
    their orientation. *)
Theorem built_graph_nodes scenario region segments G :
  generate_network_graph scenario region segments = Ok G →
  NoDup (nodes G) ∧
  (∀ u v, is_Some (edges G !! (u, v)) → u ∈ nodes G ∧ v ∈ nodes G) ∧
  (∀ n, n ∈ nodes G ↔
        ∃ seg u v, seg ∈ segments ∧ source seg = Some u ∧ target seg = Some v
                   ∧ (n = u ∨ n = v)).
Proof.
  intros H.
  destruct (add_segments_nodes _ _ _ _ _ graph_wf_empty H)
    as ([Hnd Hwf] & _ & _ & Hn).
  split; [done|]. split; [done|].
  intros n. rewrite Hn. split; [|by right].
  intros [Hin|?]; [by inversion Hin|done].
Qed.

Lemma built_graph_nodes_witness :
  generate_network_graph "baseline" "Tampa Bay" parallel_lanes
    = Ok parallel_lanes_graph ∧
  NoDup (nodes parallel_lanes_graph) ∧
  (∀ u v, is_Some (edges parallel_lanes_graph !! (u, v)) →
          u ∈ nodes parallel_lanes_graph ∧ v ∈ nodes parallel_lanes_graph) ∧
  (∀ n, n ∈ nodes parallel_lanes_graph ↔
        ∃ seg u v, seg ∈ parallel_lanes ∧ source seg = Some u
                   ∧ target seg = Some v ∧ (n = u ∨ n = v)).
Proof.
  split; [reflexivity|].
  apply (built_graph_nodes "baseline" "Tampa Bay" parallel_lanes).
  reflexivity.
Defined.

(** X8: the returned graph has at most one edge per segment that has both
    endpoints, and at most two nodes per edge. *)
Theorem built_graph_size scenario region segments G :
  generate_network_graph scenario region segments = Ok G →
  (number_of_edges G ≤ length (List.filter has_endpoints segments))%nat ∧
  (number_of_edges G ≤ length segments)%nat ∧
  (number_of_nodes G ≤ 2 * number_of_edges G)%nat.
Proof.
  intros H.
  destruct (add_segments_nodes _ _ _ _ _ graph_wf_empty H)
    as (_ & Hl & Hs & _).
  unfold number_of_edges, number_of_nodes. simpl in Hl, Hs.
  rewrite map_size_empty in Hl, Hs.
  pose proof (filter_length has_endpoints segments) as Hf.
  split; [lia|]. split; lia.
Qed.

Lemma built_graph_size_witness :
  generate_network_graph "baseline" "Tampa Bay" parallel_lanes
    = Ok parallel_lanes_graph ∧
  (number_of_edges parallel_lanes_graph
     ≤ length (List.filter has_endpoints parallel_lanes))%nat ∧
  (number_of_edges parallel_lanes_graph ≤ length parallel_lanes)%nat ∧
  (number_of_nodes parallel_lanes_graph
     ≤ 2 * number_of_edges parallel_lanes_graph)%nat.
Proof.
  split; [reflexivity|].
  apply (built_graph_size "baseline" "Tampa Bay" parallel_lanes).
  reflexivity.
Defined.

(** ** Capacity is redirected, not created *)

Lemma fold_left_Qplus l : ∀ a, (fold_left Qplus l a == a + Qsum l)%Q.
Proof.
  induction l as [|x l IH]; intros a; cbn [fold_left].
  - change (Qsum []) with 0%Q. ring.
  - rewrite IH, Qsum_cons. ring.
Qed.

Lemma sum_capacities_Qsum l : (sum_capacities l == Qsum l)%Q.
Proof.
  destruct l as [|x l]; [reflexivity|]. simpl sum_capacities.
  rewrite fold_left_Qplus, Qsum_cons. reflexivity.
Qed.

Lemma cap_of_built scenario region segments G u v :
  generate_network_graph scenario region segments = Ok G →
  (cap_of G u v ==
   Qsum (map (fun s => resolve_capacity (capacity s))
             (segments_on scenario region u v segments)))%Q.
Proof.
  intros H. unfold cap_of.
  rewrite (generate_network_graph_lookup _ _ _ _ u v H).
  destruct (segments_on scenario region u v segments) as [|seg rest] eqn:E;
    [reflexivity|].
  cbn [e_capacity]. apply sum_capacities_Qsum.
Qed.

Lemma add_segments_ok_all scenario region segments : ∀ G G',
  add_segments scenario region G segments = Ok G' →
  ∀ seg, seg ∈ segments → ∃ e, segment_edge scenario region seg = Ok e.
Proof.
  induction segments as [|seg rest IH]; intros G G' H s Hs;
    [by inversion Hs|].
  simpl in H.
  destruct (add_segment scenario region G seg) as [G1|e] eqn:E1; [|done].
  simpl in H. apply elem_of_cons in Hs as [->|Hs]; [|by eapply IH].
  rewrite add_segment_edge in E1.
  destruct (segment_edge scenario region seg); [eauto|done].
Qed.

Lemma maps_to_some scenario region u v seg a b :
  segment_edge scenario region seg = Ok (Some (a, b)) →
  maps_to scenario region u v seg = bool_decide (a = u) && bool_decide (b = v).
Proof. intros E. unfold maps_to. by rewrite E. Qed.

Lemma maps_to_none scenario region u v seg :
  segment_edge scenario region seg = Ok None →
  maps_to scenario region u v seg = false.
Proof. intros E. unfold maps_to. by rewrite E. Qed.

(** Over both directions of a pair, two orientations of the same segments
    collect the same capacities. *)
Lemma pair_sums_agree sc1 rg1 sc2 rg2 u v segments :
  (∀ seg, seg ∈ segments → ∃ e, segment_edge sc1 rg1 seg = Ok e) →
  (∀ seg, seg ∈ segments → ∃ e, segment_edge sc2 rg2 seg = Ok e) →
  (Qsum (map (fun s => resolve_capacity (capacity s))
             (segments_on sc1 rg1 u v segments))
   + Qsum (map (fun s => resolve_capacity (capacity s))
               (segments_on sc1 rg1 v u segments))
   ==
   Qsum (map (fun s => resolve_capacity (capacity s))
             (segments_on sc2 rg2 u v segments))
   + Qsum (map (fun s => resolve_capacity (capacity s))
               (segments_on sc2 rg2 v u segments)))%Q.
Proof.
  induction segments as [|seg rest IH]; intros H1 H2; [reflexivity|].
  assert (IH' := IH (fun s Hs => H1 s (list_elem_of_further _ _ _ Hs))
                    (fun s Hs => H2 s (list_elem_of_further _ _ _ Hs))).
  clear IH. unfold segments_on in *. simpl List.filter.
  set (A1 := Qsum (map _ (List.filter (maps_to sc1 rg1 u v) rest))) in *.
  set (B1 := Qsum (map _ (List.filter (maps_to sc1 rg1 v u) rest))) in *.
  set (A2 := Qsum (map _ (List.filter (maps_to sc2 rg2 u v) rest))) in *.
  set (B2 := Qsum (map _ (List.filter (maps_to sc2 rg2 v u) rest))) in *.
  destruct (H1 seg) as [e1 E1]; [by left|].
  destruct (H2 seg) as [e2 E2]; [by left|].
  destruct e1 as [[a1 b1]|], e2 as [[a2 b2]|].
  - rewrite !(maps_to_some _ _ _ _ _ _ _ E1), !(maps_to_some _ _ _ _ _ _ _ E2).
    destruct (segment_edge_endpoints _ _ _ _ _ E1) as (s & t & Hs & Ht & Hab1).
    destruct (segment_edge_endpoints _ _ _ _ _ E2)
      as (s' & t' & Hs' & Ht' & Hab2).
    rewrite Hs in Hs'. rewrite Ht in Ht'.
    injection Hs' as <-. injection Ht' as <-.
    destruct Hab1 as [[= -> ->]|[= -> ->]], Hab2 as [[= -> ->]|[= -> ->]];
      destruct (bool_decide (s = u)), (bool_decide (t = v)),
               (bool_decide (s = v)), (bool_decide (t = u));
      cbn [andb map]; rewrite ?Qsum_cons; fold A1 B1 A2 B2; lra.
  - apply segment_edge_none in E2.
    destruct (segment_edge_endpoints _ _ _ _ _ E1) as (s & t & Hs & Ht & _).
    unfold has_endpoints in E2. by rewrite Hs, Ht in E2.
  - apply segment_edge_none in E1.
    destruct (segment_edge_endpoints _ _ _ _ _ E2) as (s & t & Hs & Ht & _).
    unfold has_endpoints in E1. by rewrite Hs, Ht in E1.
  - rewrite !(maps_to_none _ _ _ _ _ E1), !(maps_to_none _ _ _ _ _ E2).
    fold A1 B1 A2 B2. exact IH'.
Qed.

(** X9: the scenario and the region only redirect capacity.  Two graphs
    built from the same segments have the same nodes and, for every pair of
    nodes, the same total capacity over the two directions (capacities
    taken as exact numbers). *)
Theorem reversal_conserves_capacity sc1 rg1 sc2 rg2 segments G1 G2 :
  generate_network_graph sc1 rg1 segments = Ok G1 →
  generate_network_graph sc2 rg2 segments = Ok G2 →
  (∀ n, n ∈ nodes G1 ↔ n ∈ nodes G2) ∧
  ∀ u v, (cap_of G1 u v + cap_of G1 v u == cap_of G2 u v + cap_of G2 v u)%Q.
Proof.
  intros H1 H2. split.
  - intros n.
    destruct (add_segments_nodes _ _ _ _ _ graph_wf_empty H1) as (_ & _ & _ & Hn1).
    destruct (add_segments_nodes _ _ _ _ _ graph_wf_empty H2) as (_ & _ & _ & Hn2).
    rewrite Hn1, Hn2. tauto.
  - intros u v.
    rewrite !(cap_of_built _ _ _ _ _ _ H1), !(cap_of_built _ _ _ _ _ _ H2).
    apply pair_sums_agree; by eapply add_segments_ok_all.
Qed.

Lemma reversal_conserves_capacity_witness :
  generate_network_graph "baseline" "Tampa Bay" shared_corridor
    = Ok shared_corridor_baseline ∧
  generate_network_graph "contraflow" "Tampa Bay" shared_corridor
    = Ok shared_corridor_contraflow ∧
  (∀ n, n ∈ nodes shared_corridor_baseline
        ↔ n ∈ nodes shared_corridor_contraflow) ∧
  ∀ u v, (cap_of shared_corridor_baseline u v
          + cap_of shared_corridor_baseline v u
          == cap_of shared_corridor_contraflow u v
             + cap_of shared_corridor_contraflow v u)%Q.
Proof.
  split; [reflexivity|]. split; [reflexivity|].
  apply (reversal_conserves_capacity "baseline" "Tampa Bay" "contraflow"
           "Tampa Bay" shared_corridor); reflexivity.
Defined.

(** ** One unreadable geometry *)

Lemma orient_unreadable region seg u v :
  is_major seg = true → unreadable (geom seg) →
  ∃ e, orient "contraflow" region seg u v = Raise e.
Proof.
  intros Hm Hg. rewrite orient_major by done. unfold heading.
  destruct (geom seg) as [|[cs|e]|[cs|e]|cs]; simpl in *;
    try done; try subst cs; simpl; eauto.
Qed.

Lemma add_segments_raises scenario region segments seg e :
  seg ∈ segments → segment_edge scenario region seg = Raise e →
  ∀ G, ∃ e', add_segments scenario region G segments = Raise e'.
Proof.
  intros Hin He. induction segments as [|s rest IH]; intros G;
    [by inversion Hin|].
  simpl. apply elem_of_cons in Hin as [<-|Hin].
  - rewrite add_segment_edge, He. simpl. eauto.
  - destruct (add_segment scenario region G s) as [G1|e1]; simpl; [|eauto].
    by apply IH.
Qed.

(** X10: under contraflow a single reversal-eligible segment whose geometry
    cannot be read as a non-empty line makes the whole build raise, wherever
    the segment stands in the input; the baseline build of the same input
    returns a graph. *)
Theorem unreadable_geometry_aborts_contraflow region segments seg :
  seg ∈ segments →
  reversal_eligible "contraflow" seg = true → unreadable (geom seg) →
  (∃ e, generate_network_graph "contraflow" region segments = Raise e) ∧
  (∃ G, generate_network_graph "baseline" region segments = Ok G).
Proof.
  intros Hin Hel Hg. split.
  - unfold reversal_eligible in Hel. simpl in Hel.
    apply andb_true_iff in Hel as [Hel Hm].
    apply andb_true_iff in Hel as [Hs Ht].
    apply bool_decide_eq_true in Hs as [u Hu], Ht as [v Hv].
    destruct (orient_unreadable region seg u v) as [e He]; [done|done|].
    eapply (add_segments_raises _ _ _ seg e); [done|].
    unfold segment_edge. by rewrite Hu, Hv, He.
  - apply add_segments_total. intros s _. unfold segment_edge.
    destruct (source s) as [u|]; [|eauto].
    destruct (target s) as [v|]; [|eauto].
    rewrite orient_not_contraflow by done. simpl. eauto.
Qed.

Lemma unreadable_geometry_aborts_contraflow_witness :
  corrupt_highway ∈ [lane 1 2 None None; corrupt_highway; local_road] ∧
  reversal_eligible "contraflow" corrupt_highway = true ∧
  unreadable (geom corrupt_highway) ∧
  (∃ e, generate_network_graph "contraflow" "Tampa Bay"
          [lane 1 2 None None; corrupt_highway; local_road] = Raise e) ∧
  (∃ G, generate_network_graph "baseline" "Tampa Bay"
          [lane 1 2 None None; corrupt_highway; local_road] = Ok G).
Proof.
  assert (H : corrupt_highway ∈ [lane 1 2 None None; corrupt_highway; local_road]).
  { apply list_elem_of_In. simpl. tauto. }
  split; [exact H|]. split; [reflexivity|]. split; [exact I|].
  exact (unreadable_geometry_aborts_contraflow "Tampa Bay"
           [lane 1 2 None None; corrupt_highway; local_road] corrupt_highway
           H eq_refl I).
Defined.

(** ** When the scenario does not matter *)

Lemma add_segments_same_orient sc1 rg1 sc2 rg2 segments :
  (∀ seg u v, seg ∈ segments → source seg = Some u → target seg = Some v →
              orient sc1 rg1 seg u v = orient sc2 rg2 seg u v) →
  ∀ G, add_segments sc1 rg1 G segments = add_segments sc2 rg2 G segments.
Proof.
  induction segments as [|seg rest IH]; intros H G; [done|]. simpl.
  assert (add_segment sc1 rg1 G seg = add_segment sc2 rg2 G seg) as ->.
  { unfold add_segment.
    destruct (source seg) as [u|] eqn:Hu; [|done].
    destruct (target seg) as [v|] eqn:Hv; [|done].
    by rewrite (H seg u v) by (done || by left). }
  destruct (add_segment sc2 rg2 G seg); simpl; [|done].
  apply IH. intros s u v Hs. apply H. by right.
Qed.

(** X22: the builder gives the baseline graph, whatever the region, in every
    scenario other than "contraflow" (an unrecognized scenario is a baseline
    run), and also under contraflow when no segment with both endpoints
    carries the major-highway marker. *)
Theorem scenario_without_effect scenario region region' segments :
  scenario ≠ "contraflow" ∨
  (∀ seg, seg ∈ segments → has_endpoints seg = true → is_major seg = false) →
  generate_network_graph scenario region segments =
  generate_network_graph "baseline" region' segments.
Proof.
  intros H. apply add_segments_same_orient. intros seg u v Hin Hu Hv.
  rewrite (orient_not_contraflow "baseline") by done.
  destruct H as [H|H]; [by apply orient_not_contraflow|].
  apply orient_not_major, H; [done|].
  unfold has_endpoints. by rewrite Hu, Hv.
Qed.

Lemma scenario_without_effect_witness :
  ("Contraflow" ≠ "contraflow" ∨
   (∀ seg, seg ∈ shared_corridor → has_endpoints seg = true →
           is_major seg = false)) ∧
  generate_network_graph "Contraflow" "Miami" shared_corridor =
  generate_network_graph "baseline" "Tampa Bay" shared_corridor.
Proof.
  assert (H : "Contraflow" ≠ "contraflow" ∨
              (∀ seg, seg ∈ shared_corridor → has_endpoints seg = true →
                      is_major seg = false)) by (left; discriminate).
  split; [exact H|].
  exact (scenario_without_effect "Contraflow" "Miami" "Tampa Bay"
           shared_corridor H).
Defined.

(** * Further properties of the request handler *)

Section HandlerFacts.
Variable is_weakly_connected : DiGraph → lib_exn + bool.
Variable largest_component : DiGraph → lib_exn + DiGraph.
Variable random_choice : nat → list Z → lib_exn + Z.
Variable descendants : DiGraph → Z → lib_exn + list Z.

(** Endpoint selection raises nothing but the 404 of the empty graph and
    the 500 it turns library errors into. *)
Lemma select_endpoints_raises graph e :
  select_endpoints is_weakly_connected largest_component random_choice
    descendants graph = Raise e →
  (e = HTTPException 404 ∧ number_of_nodes graph = 0%nat) ∨
  (e = HTTPException 500 ∧ number_of_nodes graph ≠ 0%nat).
Proof.
  intros H.
  destruct (Nat.eq_dec (number_of_nodes graph) 0%nat) as [E|E].
  - left. split; [|done].
    apply (select_endpoints_404 is_weakly_connected largest_component
             random_choice descendants) in E. congruence.
  - right. split; [|done].
    assert (e ≠ HTTPException 404) as Hne.
    { intros ->. by apply select_endpoints_404 in H. }
    unfold select_endpoints in H.
    destruct (number_of_nodes graph =? 0)%nat eqn:E0;
      [by apply Nat.eqb_eq in E0|].
    unfold reraise_as_500 in H.
    match type of H with
    | match ?r with _ => _ end = _ =>
        assert (lib_only r) as Hl; [|destruct r as [a|[l|c]]]
    end.
    + apply lib_only_bind; [apply lib_only_from_lib|]. intros connected.
      apply lib_only_bind.
      { destruct connected; simpl; [done|apply lib_only_from_lib]. }
      intros subgraph.
      apply lib_only_bind; [apply lib_only_trials|].
      intros [[s t]|]; [done|].
      apply lib_only_bind; [apply lib_only_first_node|]. intros s.
      apply lib_only_bind; [apply lib_only_last_node|done].
    + done.
    + by injection H as <-.
    + destruct Hl.
Qed.


End HandlerFacts.

Lemma nodes_empty_iff scenario region segments graph :
  generate_network_graph scenario region segments = Ok graph →
  number_of_nodes graph = 0%nat ↔
  ∀ seg, seg ∈ segments → has_endpoints seg = false.
Proof.
  intros H.
  destruct (add_segments_nodes _ _ _ _ _ graph_wf_empty H) as (_ & _ & _ & Hn).
  unfold number_of_nodes. split.
  - intros Hlen seg Hin. destruct (has_endpoints seg) eqn:E; [|done].
    unfold has_endpoints in E.
    destruct (source seg) as [u|] eqn:Hu; [|done].
    destruct (target seg) as [v|] eqn:Hv; [|done].
    assert (u ∈ nodes graph) as Hin'.
    { apply Hn. right. exists seg, u, v. auto. }
    destruct (nodes graph); [by inversion Hin'|done].
  - intros Hall. destruct (nodes graph) as [|n ns] eqn:En; [done|].
    assert (n ∈ n :: ns) as Hin by (by left).
    apply Hn in Hin as [Hin|(seg & u & v & Hseg & Hu & Hv & _)];
      [by inversion Hin|].
    apply Hall in Hseg. unfold has_endpoints in Hseg. by rewrite Hu, Hv in Hseg.
Qed.

(** X11: when the cache misses and the builder returns, the handler answers
    404 "graph is empty" exactly when no segment of the input has both a
    source and a target node. *)
Theorem not_found_iff_no_usable_segment
    (is_weakly_connected : DiGraph → lib_exn + bool)
    (largest_component : DiGraph → lib_exn + DiGraph)
    (random_choice : nat → list Z → lib_exn + Z)
    (descendants : DiGraph → Z → lib_exn + list Z)
    scenario region segments graph :
  generate_network_graph scenario region segments = Ok graph →
  run_simulation is_weakly_connected largest_component random_choice
    descendants None scenario region segments = Raise (HTTPException 404) ↔
  ∀ seg, seg ∈ segments → has_endpoints seg = false.
Proof.
  intros H.
  rewrite (run_simulation_raises _ _ _ _ _ _ _ _ _ H).
  rewrite <- select_endpoints_404. by eapply nodes_empty_iff.
Qed.

Lemma not_found_iff_no_usable_segment_witness :
  generate_network_graph "contraflow" "Tampa Bay" [dangling_lane]
    = Ok empty_graph ∧
  (run_simulation always_connected whole_graph choose_one no_descendants
     None "contraflow" "Tampa Bay" [dangling_lane] = Raise (HTTPException 404) ↔
   ∀ seg, seg ∈ [dangling_lane] → has_endpoints seg = false).
Proof.
  split; [reflexivity|].
  apply (not_found_iff_no_usable_segment always_connected whole_graph
           choose_one no_descendants "contraflow" "Tampa Bay"
           [dangling_lane] empty_graph).
  reflexivity.
Defined.

(** X12: when the cache misses, the handler raises only in three ways: the
    builder's own exception, 404 from endpoint selection on a graph without
    nodes, and 500 from endpoint selection when a library routine fails on
    a graph with nodes; once the endpoints are selected it always answers,
    with the response made from the flow between them. *)
Theorem handler_failure_modes
    (is_weakly_connected : DiGraph → lib_exn + bool)
    (largest_component : DiGraph → lib_exn + DiGraph)
    (random_choice : nat → list Z → lib_exn + Z)
    (descendants : DiGraph → Z → lib_exn + list Z)
    scenario region segments :
  let run := run_simulation is_weakly_connected largest_component
               random_choice descendants None scenario region segments in
  let select := select_endpoints is_weakly_connected largest_component
                  random_choice descendants in
  (∀ e, run = Raise e →
     generate_network_graph scenario region segments = Raise e ∨
     ∃ graph,
       generate_network_graph scenario region segments = Ok graph ∧
       select graph = Raise e ∧
       ((e = HTTPException 404 ∧ number_of_nodes graph = 0%nat) ∨
        (e = HTTPException 500 ∧ number_of_nodes graph ≠ 0%nat))) ∧
  (∀ graph subgraph source_node sink_node,
     generate_network_graph scenario region segments = Ok graph →
     select graph = Ok (subgraph, source_node, sink_node) →
     ∃ f, calculate_max_flow subgraph source_node sink_node = Ok f ∧
          run = Ok (make_response scenario subgraph f)).
Proof.
  cbv zeta. split.
  - intros e H.
    destruct (generate_network_graph scenario region segments) as [graph|e']
      eqn:EG.
    + right. exists graph. split; [done|].
      apply (run_simulation_raises _ _ _ _ _ _ _ _ _ EG) in H.
      split; [done|]. by eapply select_endpoints_raises.
    + left. unfold run_simulation in H. rewrite EG in H. simpl in H.
      congruence.
  - intros graph g s t HG HS.
    destruct (calculate_max_flow_total g s t) as [f Hf].
    exists f. split; [done|].
    apply run_simulation_ok. by exists graph, g, s, t, f.
Qed.



(** ** The derived metrics *)

(** X14: in every response the handler computes, a MODERATE risk comes with
    a clearance time of at most 1000 hours and a CRITICAL risk of a positive
    flow with at least 1000 hours (a flow just below 1000 is CRITICAL with a
    clearance time of exactly 1000.0, after rounding); a flow of zero is
    CRITICAL with a clearance time of 24 hours, shorter than for any
    positive flow below 1000. *)
Theorem risk_and_clearance_agree
    (is_weakly_connected : DiGraph → lib_exn + bool)
    (largest_component : DiGraph → lib_exn + DiGraph)
    (random_choice : nat → list Z → lib_exn + Z)
    (descendants : DiGraph → Z → lib_exn + list Z)
    scenario region segments r :
  run_simulation is_weakly_connected largest_component random_choice
    descendants None scenario region segments = Ok r →
  let f := max_throughput_vph r in
  (gridlock_risk r = "MODERATE" ↔ (1000 <= f)%Q) ∧
  (gridlock_risk r = "CRITICAL" ↔ (f < 1000)%Q) ∧
  (gridlock_risk r = "MODERATE" → (0 <= clearance_time_hours r <= 1000)%Q) ∧
  (gridlock_risk r = "CRITICAL" → (0 < f)%Q →
   (1000 <= clearance_time_hours r)%Q) ∧
  ((f <= 0)%Q →
   gridlock_risk r = "CRITICAL" ∧ (clearance_time_hours r == 24)%Q).
Proof.
  intros H. apply run_simulation_ok in H
    as (graph & g & s & t & f & HG & HS & Hf & ->).
  cbv zeta. unfold make_response.
  cbn [max_throughput_vph clearance_time_hours gridlock_risk].
  assert (Hm : gridlock_risk_of f = "MODERATE" ↔ (1000 <= f)%Q).
  { unfold gridlock_risk_of. destruct (Qlt_bool f 1000) eqn:E.
    - apply Qlt_bool_iff in E. split; [done|]. intros; lra.
    - by apply Qlt_bool_false_iff in E. }
  assert (Hc : gridlock_risk_of f = "CRITICAL" ↔ (f < 1000)%Q).
  { unfold gridlock_risk_of. destruct (Qlt_bool f 1000) eqn:E.
    - by apply Qlt_bool_iff in E.
    - apply Qlt_bool_false_iff in E. split; [done|]. intros; lra. }
  assert (H1000 : (round2 (binary64 1000) == 1000)%Q) by (by vm_compute).
  split; [done|]. split; [done|]. split; [|split].
  - intros Hge%Hm. split; [apply round2_nonneg, clearance_time_nonneg|].
    unfold clearance_time_of.
    assert (Qlt_bool 0 f = true) as -> by (apply Qlt_bool_iff; lra).
    rewrite <- H1000. apply round2_mono, binary64_mono_pos.
    + apply Qlt_shift_div_l; lra.
    + apply Qle_shift_div_r; lra.
  - intros Hlt%Hc Hpos. unfold clearance_time_of.
    apply Qlt_bool_iff in Hpos as Hpos'. rewrite Hpos'.
    rewrite <- H1000. apply round2_mono, binary64_mono_pos; [done|].
    apply Qle_shift_div_l; lra.
  - intros Hle. split; [apply Hc; lra|].
    unfold clearance_time_of.
    apply Qlt_bool_false_iff in Hle. by rewrite Hle.
Qed.

Lemma risk_and_clearance_agree_witness :
  let r := make_response "baseline" near_critical_graph (1023999 # 1024) in
  run_simulation always_connected whole_graph choose_one no_descendants
    None "baseline" "Tampa Bay" [near_critical_road] = Ok r ∧
  let f := max_throughput_vph r in
  (gridlock_risk r = "MODERATE" ↔ (1000 <= f)%Q) ∧
  (gridlock_risk r = "CRITICAL" ↔ (f < 1000)%Q) ∧
  (gridlock_risk r = "MODERATE" → (0 <= clearance_time_hours r <= 1000)%Q) ∧
  (gridlock_risk r = "CRITICAL" → (0 < f)%Q →
   (1000 <= clearance_time_hours r)%Q) ∧
  ((f <= 0)%Q →
   gridlock_risk r = "CRITICAL" ∧ (clearance_time_hours r == 24)%Q).
Proof.
  assert (H : run_simulation always_connected whole_graph choose_one
                no_descendants None "baseline" "Tampa Bay"
                [near_critical_road]
              = Ok (make_response "baseline" near_critical_graph
                      (1023999 # 1024)))
    by (vm_compute; reflexivity).
  split; [exact H|].
  exact (risk_and_clearance_agree always_connected whole_graph choose_one
           no_descendants "baseline" "Tampa Bay" [near_critical_road] _ H).
Defined.






(** * Further properties of the flow solver *)

Lemma initial_residual_positive G u v :
  (0 < res (build_residual_network G) u v)%Q ↔
  ∃ d, edges G !! (u, v) = Some d ∧ u ≠ v ∧ (0 < e_capacity d)%Q.
Proof.
  unfold res. rewrite build_residual_network_lookup. split.
  - destruct (edges G !! (u, v)) as [d|]; simpl;
      [|intros H; by apply Qlt_irrefl in H].
    destruct (bool_decide (u ≠ v)) eqn:E1; simpl;
      [|intros H; by apply Qlt_irrefl in H].
    destruct (Qlt_bool 0 (e_capacity d)) eqn:E2; simpl;
      [|intros H; by apply Qlt_irrefl in H].
    intros _. exists d. apply bool_decide_eq_true in E1.
    apply Qlt_bool_iff in E2. auto.
  - intros (d & -> & Hne & Hc).
    rewrite bool_decide_eq_true_2 by done.
    apply Qlt_bool_iff in Hc as Hc'. rewrite Hc'. simpl. done.
Qed.

Lemma reach_usable_walk G s t :
  reach (build_residual_network G) s t ↔ usable_walk G s t.
Proof.
  split.
  - induction 1 as [|u v _ IH Huv]; [apply usable_refl|].
    apply initial_residual_positive in Huv as (d & Hd & _ & Hc).
    by eapply usable_step.
  - induction 1 as [|u v d _ IH Hd Hc]; [apply reach_refl|].
    destruct (decide (u = v)) as [<-|Hne]; [done|].
    eapply reach_step; [done|]. apply initial_residual_positive. eauto.
Qed.

Lemma edmonds_karp_grows G s t fuel : ∀ R f,
  flow_inv G s R f → s ≠ t → (f <= edmonds_karp fuel R s t f)%Q.
Proof.
  induction fuel as [|n IH]; intros R f Hinv Hst; simpl; [lra|].
  destruct (augmenting_path R s t) as [p|] eqn:Ep; [|lra].
  destruct (flow_inv_step _ _ _ _ _ _ Hinv Hst Ep)
    as (b & -> & Hb & _ & _ & Hinv').
  specialize (IH _ _ Hinv' Hst). lra.
Qed.

(** Finiteness of the capacities is checked on the edge listing. *)
Lemma finite_capacities_edge_list G :
  forallb (fun '(_, d) => Qle_bool (e_capacity d) float_max) (edge_list G)
    = true →
  finite_capacities G.
Proof.
  intros H u v d Hd. rewrite forallb_forall in H.
  apply Qle_bool_iff, (H ((u, v), d)).
  apply list_elem_of_In. by apply elem_of_map_to_list.
Qed.

(** X16: on a graph of finite capacities, for distinct endpoints that are
    nodes of the graph, the flow returned is zero exactly when the sink
    cannot be reached from the source over edges of positive capacity, and
    positive otherwise. *)
Theorem zero_flow_iff_unreachable G s t :
  finite_capacities G →
  s ∈ nodes G → t ∈ nodes G → s ≠ t →
  ∃ f, calculate_max_flow G s t = Ok f ∧
       ((f == 0)%Q ↔ ¬ usable_walk G s t) ∧
       ((0 < f)%Q ↔ usable_walk G s t).
Proof.
  intros _ Hs Ht Hst.
  exists (edmonds_karp (augmentation_bound G s) (build_residual_network G) s t 0).
  split.
  { unfold calculate_max_flow. apply has_node_true in Hs as Hs', Ht as Ht'.
    rewrite Hs', Ht'. simpl. by rewrite maximum_flow_value_ok. }
  destruct (augmenting_path (build_residual_network G) s t) as [p|] eqn:Ep.
  - assert (usable_walk G s t) as Hw.
    { apply reach_usable_walk.
      apply augmenting_path_sound in Ep as [Hp [p' ->]].
      by eapply rpath_reach. }
    destruct (flow_inv_step _ _ _ _ _ _ (flow_inv_initial G s) Hst Ep)
      as (b & Hb & Hbpos & _ & _ & Hinv').
    pose proof (edmonds_karp_grows G s t
                  (Z.to_nat (Qfloor (inject_Z (Zpos (common_denominator G))
                                     * Qsum (usable_out_capacities G s))))
                  _ _ Hinv' Hst) as Hge.
    unfold augmentation_bound. cbn [edmonds_karp]. rewrite Ep, Hb.
    split; [split; [intros Hf; lra|done]|].
    split; [done|intros _; lra].
  - assert (¬ usable_walk G s t) as Hn.
    { rewrite <- reach_usable_walk. by apply augmenting_path_None. }
    unfold augmentation_bound. cbn [edmonds_karp]. rewrite Ep.
    split; [split; [done|reflexivity]|].
    split; [intros Hf; by apply Qlt_irrefl in Hf|done].
Qed.

Lemma zero_flow_iff_unreachable_witness :
  finite_capacities mixed_sign_graph ∧
  1 ∈ nodes mixed_sign_graph ∧ 3 ∈ nodes mixed_sign_graph ∧ 1 ≠ 3 ∧
  ∃ f, calculate_max_flow mixed_sign_graph 1 3 = Ok f ∧
       ((f == 0)%Q ↔ ¬ usable_walk mixed_sign_graph 1 3) ∧
       ((0 < f)%Q ↔ usable_walk mixed_sign_graph 1 3).
Proof.
  assert (H0 : finite_capacities mixed_sign_graph).
  { apply finite_capacities_edge_list. by vm_compute. }
  assert (H1 : 1 ∈ nodes mixed_sign_graph)
    by (apply list_elem_of_In; simpl; tauto).
  assert (H3 : 3 ∈ nodes mixed_sign_graph)
    by (apply list_elem_of_In; simpl; tauto).
  assert (Hne : 1 ≠ 3) by discriminate.
  split; [exact H0|].
  split; [exact H1|]. split; [exact H3|]. split; [exact Hne|].
  exact (zero_flow_iff_unreachable mixed_sign_graph 1 3 H0 H1 H3 Hne).
Defined.

(** ** A lower bound *)

Lemma Qsum_map_minus (f g : Z → Q) (l : list Z) :
  (Qsum (map f l) - Qsum (map g l) == Qsum (map (fun x => f x - g x) l))%Q.
Proof.
  induction l as [|a l IH]; [reflexivity|].
  simpl map. rewrite !Qsum_cons, <- IH. ring.
Qed.

Lemma Qsum_map_ge_term (h : Z → Q) (l : list Z) (x : Z) :
  (∀ y, y ∈ l → (0 <= h y)%Q) → x ∈ l → (h x <= Qsum (map h l))%Q.
Proof.
  induction l as [|a l IH]; intros Hpos Hin; [by inversion Hin|].
  simpl map. rewrite Qsum_cons.
  assert (0 <= Qsum (map h l))%Q as Hrest.
  { apply Qsum_nonneg, Forall_forall. intros q Hq.
    apply list_elem_of_fmap in Hq as (y & -> & Hy). apply Hpos. by right. }
  apply elem_of_cons in Hin as [->|Hin].
  - lra.
  - assert (h x <= Qsum (map h l))%Q
      by (apply IH; [intros; apply Hpos; by right|done]).
    assert (0 <= h a)%Q by (apply Hpos; by left). lra.
Qed.

(** An augmentation never raises the spare capacity of an arc leaving the
    source. *)
Lemma augment_lowers_source R s t p b x :
  augmenting_path R s t = Some p → bottleneck R p = Some b →
  (res (augment b R p) s x <= res R s x)%Q.
Proof.
  intros Hp Hb. apply augmenting_path_sound in Hp as [Hp _].
  pose proof (bottleneck_positive _ _ _ _ Hp Hb).
  rewrite (res_augment_source _ _ _ _ _ Hp).
  destruct (decide (first_hop p = Some x)); lra.
Qed.

Lemma augmenting_loop_inv G s t R f R' f' :
  augmenting_loop s t R f R' f' → s ≠ t →
  flow_inv G s R f →
  (∀ x, res R s x <= res (build_residual_network G) s x)%Q →
  flow_inv G s R' f' ∧
  (∀ x, res R' s x <= res (build_residual_network G) s x)%Q.
Proof.
  intros Hloop Hst. induction Hloop as [|R f p b R' f' Hp Hb _ IH];
    intros Hinv Hle; [done|].
  destruct (flow_inv_step _ _ _ _ _ _ Hinv Hst Hp)
    as (b' & Hb' & _ & _ & _ & Hinv').
  rewrite Hb in Hb'. injection Hb' as <-.
  apply IH; [done|].
  intros x. pose proof (augment_lowers_source _ _ _ _ _ x Hp Hb).
  specialize (Hle x). lra.
Qed.

(** X17: on a graph of finite capacities, for distinct endpoints that are
    nodes of the graph, the flow returned is at least the capacity of the
    edge that leads from the source straight to the sink, when there is one
    of positive capacity. *)
Theorem flow_covers_direct_edge G s t d :
  finite_capacities G →
  s ∈ nodes G → t ∈ nodes G → s ≠ t →
  edges G !! (s, t) = Some d → (0 < e_capacity d)%Q →
  ∃ f, calculate_max_flow G s t = Ok f ∧ (e_capacity d <= f)%Q.
Proof.
  intros _ Hs Ht Hst Hd Hc.
  exists (edmonds_karp (augmentation_bound G s) (build_residual_network G) s t 0).
  split.
  { unfold calculate_max_flow. apply has_node_true in Hs as Hs', Ht as Ht'.
    rewrite Hs', Ht'. simpl. by rewrite maximum_flow_value_ok. }
  destruct (edmonds_karp_runs G s t (augmentation_bound G s) _ _
              (flow_inv_initial G s) Hst (augmentation_bound_enough G s))
    as [R' Hloop].
  set (f := edmonds_karp _ _ _ _ _) in *.
  set (R0 := build_residual_network G) in *.
  destruct (augmenting_loop_inv G _ _ _ _ _ _ Hloop Hst (flow_inv_initial G s))
    as [Hinv Hle]; [intros x; apply Qle_refl|].
  assert (res R' s t <= 0)%Q as Hsat.
  { destruct (Qlt_le_dec 0 (res R' s t)) as [Hpos|]; [|done].
    exfalso. apply (augmenting_loop_exit _ _ _ _ _ _ Hloop).
    eapply reach_step; [apply reach_refl|done]. }
  assert (res R0 s t = e_capacity d) as H0.
  { unfold R0, res. rewrite build_residual_network_lookup, Hd.
    rewrite bool_decide_eq_true_2 by done.
    apply Qlt_bool_iff in Hc as ->. done. }
  assert (t ∈ out_nodes G s) as Hin by (apply elem_of_out_nodes; eauto).
  pose proof (inv_value _ _ _ _ Hinv) as Hval.
  rewrite <- initial_spare_out in Hval. fold R0 in Hval.
  unfold spare_out in Hval. rewrite Qsum_map_minus in Hval.
  pose proof (Qsum_map_ge_term (fun x => res R0 s x - res R' s x)%Q
                (out_nodes G s) t) as Hterm.
  cbv beta in Hterm.
  assert (res R0 s t - res R' s t
          <= Qsum (map (fun x => res R0 s x - res R' s x) (out_nodes G s)))%Q.
  { apply Hterm; [|done]. intros y _. specialize (Hle y). fold R0 in Hle.
    lra. }
  rewrite H0 in H. lra.
Qed.

Lemma flow_covers_direct_edge_witness :
  finite_capacities mixed_sign_graph ∧
  1 ∈ nodes mixed_sign_graph ∧ 2 ∈ nodes mixed_sign_graph ∧ 1 ≠ 2 ∧
  edges mixed_sign_graph !! (1, 2)
    = Some {| e_capacity := 1000%Q; e_cost := None |} ∧
  (0 < 1000)%Q ∧
  ∃ f, calculate_max_flow mixed_sign_graph 1 2 = Ok f ∧ (1000 <= f)%Q.
Proof.
  assert (H0 : finite_capacities mixed_sign_graph).
  { apply finite_capacities_edge_list. by vm_compute. }
  assert (H1 : 1 ∈ nodes mixed_sign_graph)
    by (apply list_elem_of_In; simpl; tauto).
  assert (H2 : 2 ∈ nodes mixed_sign_graph)
    by (apply list_elem_of_In; simpl; tauto).
  assert (Hne : 1 ≠ 2) by discriminate.
  split; [exact H0|].
  split; [exact H1|]. split; [exact H2|]. split; [exact Hne|].
  split; [reflexivity|]. split; [reflexivity|].
  exact (flow_covers_direct_edge mixed_sign_graph 1 2
           {| e_capacity := 1000%Q; e_cost := None |} H0 H1 H2 Hne
           eq_refl eq_refl).
Defined.

(** * The health endpoints *)

(** X18: the overall status is "unhealthy" exactly when the database probe
    raises [OperationalError]; otherwise "degraded" exactly when the database
    probe raises something else or the cache ping raises; otherwise
    "healthy".  A cache client that was never connected, reported
    "unhealthy" as a component, leaves the overall status untouched; and the
    message is never "Unknown status". *)
Theorem overall_health_status (db : db_probe) (cache : cache_probe) :
  let h := get_system_health db cache in
  (sh_status h = UNHEALTHY ↔ ∃ e, db = DbOperationalError e) ∧
  (sh_status h = DEGRADED ↔
     (∃ e, db = DbOtherError e) ∨ (db = DbOk ∧ ∃ e, cache = CachePingError e)) ∧
  (sh_status h = HEALTHY ↔
     db = DbOk ∧ (cache = CachePingOk ∨ cache = CacheNoClient)) ∧
  (cs_status (sh_cache (get_system_health db CacheNoClient)) = UNHEALTHY ∧
   sh_status (get_system_health db CacheNoClient)
     = sh_status (get_system_health db CachePingOk)) ∧
  sh_message h ≠ "Unknown status".
Proof.
  destruct db as [|e|e], cache as [| |e']; cbn;
    repeat split;
    try discriminate; try reflexivity;
    try (intros [x Hx]; discriminate);
    try (intros [[x Hx]|[Hx [y Hy]]]; discriminate);
    try (intros [Hx [Hy|Hy]]; discriminate);
    try (intros _; eauto; fail);
    try (intros _; right; eauto; fail);
    try (intros _; left; eauto; fail);
    eauto.
Qed.

(** X19: the health endpoint and the readiness probe agree: both answer 200
    when the overall status is "healthy", that is when the database probe
    succeeds and the cache does not raise on its ping, and both answer 503
    otherwise; the body of the health answer carries the overall status. *)
Theorem health_and_readiness_agree (db : db_probe) (cache : cache_probe) :
  (hr_code (health_check db cache) = 200 ↔
   db = DbOk ∧ (cache = CachePingOk ∨ cache = CacheNoClient)) ∧
  (hr_code (health_check db cache) = 200
   ∨ hr_code (health_check db cache) = 503) ∧
  hr_code (health_check db cache) = rr_code (readiness_check db cache) ∧
  (rr_ready (readiness_check db cache) = true ↔
   hr_code (health_check db cache) = 200) ∧
  hr_status (health_check db cache) = sh_status (get_system_health db cache).
Proof.
  destruct db as [|e|e], cache as [| |e']; cbn;
    repeat split; try discriminate; try reflexivity;
    try (intros [Hx [Hy|Hy]]; discriminate);
    try (intros _; eauto; fail); eauto.
Qed.

(** * The ingestion pipeline and the builder *)

Lemma upper_app (a b : string) : upper (a ++ b) = (upper a ++ upper b)%string.
Proof. induction a as [|c a IH]; [done|]. simpl. by rewrite IH. Qed.

Lemma prefix_marker_digit c rest :
  is_digit c = true →
  String.prefix "MAJOR HWY" (String (upper_ascii c) rest) = false.
Proof.
  destruct c as [[] [] [] [] [] [] [] []]; intros H;
    try discriminate H; reflexivity.
Qed.

Lemma contains_marker_digits (a b : string) :
  all_digits a = true →
  contains "MAJOR HWY" (upper (a ++ b)) = contains "MAJOR HWY" (upper b).
Proof.
  induction a as [|c a IH]; [done|].
  intros [Hc Ha]%andb_true_iff.
  change (upper (String c a ++ b))
    with (String (upper_ascii c) (upper (a ++ b))).
  change (contains "MAJOR HWY" (String (upper_ascii c) (upper (a ++ b))))
    with (String.prefix "MAJOR HWY" (String (upper_ascii c) (upper (a ++ b)))
          || contains "MAJOR HWY" (upper (a ++ b))).
  rewrite prefix_marker_digit by done. simpl. by apply IH.
Qed.

(** X20: for a row whose ROADWAY identifier is made of digits, the name the
    pipeline synthesizes carries the builder's major-highway marker exactly
    when the row is an interstate and not a toll road: the toll suffix
    replaces the marker, so the segment of a toll interstate is never
    reversed, in any scenario and region. *)
Theorem toll_interstate_is_not_major r u v g :
  all_digits (ROADWAY r) = true →
  is_major (ingested r u v g)
    = route_is_interstate r && negb (route_is_toll_road r) ∧
  (route_is_toll_road r = true →
   ∀ scenario region a b,
     orient scenario region (ingested r u v g) a b = Ok (a, b)).
Proof.
  intros Hd.
  assert (is_major (ingested r u v g)
          = route_is_interstate r && negb (route_is_toll_road r)) as Hm.
  { unfold is_major, ingested, synthesize_road_names. cbn [road_name].
    rewrite contains_marker_digits by done.
    by destruct (route_is_interstate r), (route_is_toll_road r). }
  split; [done|]. intros Ht scenario region a b.
  apply orient_not_major. rewrite Hm, Ht. apply andb_false_r.
Qed.

Lemma toll_interstate_is_not_major_witness :
  all_digits (ROADWAY turnpike) = true ∧
  is_major (ingested turnpike (Some 1) (Some 2) (geom southbound_highway))
    = route_is_interstate turnpike && negb (route_is_toll_road turnpike) ∧
  (route_is_toll_road turnpike = true →
   ∀ scenario region a b,
     orient scenario region
       (ingested turnpike (Some 1) (Some 2) (geom southbound_highway)) a b
     = Ok (a, b)).
Proof.
  split; [reflexivity|].
  apply (toll_interstate_is_not_major turnpike (Some 1) (Some 2)
           (geom southbound_highway)).
  reflexivity.
Defined.

(** X21: the pipeline never divides by a zero speed: the speed in m/s of a
    row is never zero, a zero speed limit giving the speed, and the travel
    time, of a limit of 10 mph; and the builder takes the capacity of the
    row as it is when the lane count is a float other than zero, while it
    replaces the zero capacity of a row without lanes by 1800. *)
Theorem ingested_speed_and_capacity r :
  let p := calculate_network_properties r in
  ¬ (np_speed_ms p == 0)%Q ∧
  ((SPEED r == 0)%Q →
   ∀ r', (SPEED r' == 10)%Q → (route_length_m r' == route_length_m r)%Q →
     let p' := calculate_network_properties r' in
     (np_speed_ms p == np_speed_ms p')%Q ∧
     (np_cost_time p == np_cost_time p')%Q) ∧
  ((LANE_CNT r == 0)%Q → resolve_capacity (Some (np_capacity p)) = 1800%Q) ∧
  ((binary64 (LANE_CNT r) == LANE_CNT r)%Q → ¬ (LANE_CNT r == 0)%Q →
   ¬ (np_capacity p == 0)%Q ∧
   resolve_capacity (Some (np_capacity p)) = np_capacity p).
Proof.
  cbv zeta. unfold calculate_network_properties.
  cbn [np_capacity np_speed_ms np_cost_time].
  set (c := binary64 (44704 # 100000)).
  assert (Hten : ¬ (binary64 (10 * c) == 0)%Q) by (by vm_compute).
  split; [|split; [|split]].
  - destruct (Qeq_bool (binary64 (SPEED r * c)) 0) eqn:E; [done|].
    by apply Qeq_bool_neq.
  - intros H0 r' H10 Hlen.
    assert (binary64 (SPEED r * c) == 0)%Q as Hz.
    { rewrite (binary64_comp (SPEED r * c) 0) by (rewrite H0; ring).
      by vm_compute. }
    assert (binary64 (SPEED r' * c) == binary64 (10 * c))%Q as Hs
      by (apply binary64_comp; by rewrite H10).
    apply Qeq_bool_iff in Hz. rewrite Hz.
    assert (Qeq_bool (binary64 (SPEED r' * c)) 0 = false) as ->.
    { destruct (Qeq_bool (binary64 (SPEED r' * c)) 0) eqn:E; [|done].
      apply Qeq_bool_iff in E. rewrite Hs in E. contradiction. }
    split; [by symmetry|].
    apply binary64_comp. by rewrite Hs, Hlen.
  - intros H0. unfold resolve_capacity, truthy.
    assert (Qeq_bool (binary64 (LANE_CNT r * 1800)) 0 = true) as ->; [|done].
    apply Qeq_bool_iff.
    rewrite (binary64_comp (LANE_CNT r * 1800) 0) by (rewrite H0; ring).
    by vm_compute.
  - intros Hf Hnz.
    assert (¬ (binary64 (LANE_CNT r * 1800) == 0)%Q) as Hc.
    { intros Hz%binary64_zero.
      pose proof (binary64_smallest _ Hf Hnz) as Hlo.
      rewrite Qabs_Qmult in Hz. change (Qabs 1800) with 1800%Q in Hz.
      assert (2 ^ (-1074) == 2 * 2 ^ (-1075))%Q as Hp
        by apply (pow2_succ (-1075)).
      pose proof (pow2_pos (-1075)) as Hpos.
      rewrite Hp in Hlo.
      set (P := (2 ^ (-1075))%Q) in *. set (A := Qabs (LANE_CNT r)) in *.
      lra. }
    split; [done|]. unfold resolve_capacity, truthy.
    destruct (Qeq_bool (binary64 (LANE_CNT r * 1800)) 0) eqn:E; [|done].
    by apply Qeq_bool_iff in E.
Qed.

(** The columns of a four-lane row of 1200 m at 70 mph, as the interpreter
    computes them: 7200, 31.292799999999996 and 38.347479292361186. *)
Example network_properties_sample :
  let p := calculate_network_properties turnpike in
  (np_capacity p == 7200)%Q ∧
  (np_speed_ms p == 550508759450701 # 17592186044416)%Q ∧
  (np_cost_time p == 84326998755701 # 2199023255552)%Q.
Proof. by vm_compute. Qed.
